(** * position-monitor: subscriptions, snapshot diffing and fan-out

    A shallow embedding of the two programs of the repository, followed
    by the facts proved about them.  The programs:

    - [main.go], the multi-tenant monitor (subscription registry,
      per-address account states, durable store, poll orchestrator,
      change detection and rendering);
    - the single-tenant monitor (second source file), whose change
      detection adds a standalone account-value report.

    Conventions.
    - Go's [float64] is Rocq's primitive binary64 [float]; comparisons are
      the IEEE ones ([<=?], [<?], [=?]), so every test on a NaN is false.
    - Go maps are [gmap]s.  A [for ... range m] loop visits the entries of
      [m] in an order the Go runtime chooses afresh for every loop; the
      order is an explicit input here (a list that is a permutation of
      [map_to_list m]).
    - [time.Now], the HTTP call, the chat transport and the SQL store are
      outside the program: their answers come from an [Env] of oracles
      indexed by a clock, and every interaction is recorded in a trace.
    - The library functions [strconv.ParseFloat] and the [fmt] verbs are
      the fields of the class [GoRuntime]; the theorems hold for every
      instance, and [go_runtime] is an executable model of them used in
      the examples. *)

From Stdlib Require Import ZArith Floats Ascii String DecimalString.
From stdpp Require Import gmap strings list fin_maps.

Open Scope string_scope.
Open Scope list_scope.

(** ** The library functions the programs call *)

Inductive NumError := ErrSyntax | ErrRange.

Class GoRuntime := {
  (** [strconv.ParseFloat(s, 64)]: the value and the error, if any. *)
  ParseFloat : string → float * option NumError;
  (** [fmt.Sprintf("%.Nf", x)] for a float64 [x]. *)
  Sprintf_f : nat → float → string;
  (** [fmt.Sprintf("%d", n)] for an int [n]. *)
  Sprintf_d : Z → string;
}.

(** The line feed written [\n] in the Go sources. *)
Definition nl : string := String (Ascii.ascii_of_nat 10) EmptyString.

(** An executable model of the Go library functions, for decimal
    literals, [Inf]/[Infinity]/[NaN] and the verbs [%.Nf] and [%d].
    Hexadecimal literals and digit-separating underscores are not
    modelled (they are reported as syntax errors here). *)
Module Go.

Definition digit_of (c : ascii) : option Z :=
  let n := Ascii.nat_of_ascii c in
  if (48 <=? n)%nat && (n <=? 57)%nat then Some (Z.of_nat (n - 48)) else None.

(** A run of decimal digits: the number read (continuing [acc]), how many
    digits were read, and the rest of the text. *)
Fixpoint read_digits (s : string) (acc : Z) (n : nat) : Z * nat * string :=
  match s with
  | String c s' =>
      match digit_of c with
      | Some d => read_digits s' (10 * acc + d)%Z (S n)
      | None => (acc, n, s)
      end
  | EmptyString => (acc, n, s)
  end.

Definition read_sign (s : string) : bool * string :=
  match s with
  | String "-" s' => (true, s')
  | String "+" s' => (false, s')
  | _ => (false, s)
  end.

Definition lower (c : ascii) : ascii :=
  let n := Ascii.nat_of_ascii c in
  if (65 <=? n)%nat && (n <=? 90)%nat then Ascii.ascii_of_nat (n + 32) else c.

Fixpoint lower_string (s : string) : string :=
  match s with
  | String c s' => String (lower c) (lower_string s')
  | EmptyString => EmptyString
  end.

(** The special values: an optionally signed [inf] or [infinity], and an
    unsigned [nan], in any letter case. *)
Definition special (s : string) : option float :=
  let l := lower_string s in
  if decide (l = "nan") then Some nan
  else
    let '(neg, body) := read_sign l in
    if decide (body = "inf" ∨ body = "infinity")
    then Some (if neg then neg_infinity else infinity)
    else None.

(** A decimal literal without its sign: digits with an optional point and
    an optional exponent; the result is a mantissa [m] and a power of ten
    [e], the literal denoting [m * 10^e]. *)
Definition read_decimal (s : string) : option (Z * Z) :=
  let '(ip, ni, s1) := read_digits s 0 0 in
  let '(m, nf, s2) :=
    match s1 with
    | String "." s1' => read_digits s1' ip 0
    | _ => (ip, 0%nat, s1)
    end in
  if (ni + nf =? 0)%nat then None
  else
    match s2 with
    | EmptyString => Some (m, - Z.of_nat nf)%Z
    | String c s3 =>
        if decide (lower c = "e"%char) then
          let '(eneg, s4) := read_sign s3 in
          let '(e, ne, s5) := read_digits s4 0 0 in
          if (ne =? 0)%nat then None
          else
            match s5 with
            | EmptyString => Some (m, (if eneg then - e else e) - Z.of_nat nf)%Z
            | _ => None
            end
        else None
    end.

(** The binary64 value nearest to [± m * 10^e] (ties to even).  For a
    negative [e] the quotient is taken with at least 64 significant bits
    and a sticky bit, which rounds like the exact quotient. *)
Definition round_decimal (neg : bool) (m e : Z) : spec_float :=
  let sgn (z : Z) := if neg then (- z)%Z else z in
  if (m =? 0)%Z then S754_zero neg
  else if (0 <=? e)%Z then binary_normalize prec emax (sgn (m * 10 ^ e)%Z) 0 false
  else
    let d := (10 ^ (- e))%Z in
    let s := Z.max 0 (64 + Z.log2 d - Z.log2 m) in
    let q := (m * 2 ^ s / d)%Z in
    let r := ((m * 2 ^ s) mod d)%Z in
    binary_normalize prec emax
      (sgn (2 * q + (if (r =? 0)%Z then 0 else 1))%Z) (- s - 1) false.

Definition ParseFloat (s : string) : float * option NumError :=
  match special s with
  | Some f => (f, None)
  | None =>
      let '(neg, body) := read_sign s in
      match read_decimal body with
      | None => (0%float, Some ErrSyntax)
      | Some (m, e) =>
          match round_decimal neg m e with
          | S754_infinity sg => (SF2Prim (S754_infinity sg), Some ErrRange)
          | f => (SF2Prim f, None)
          end
      end
  end.

(** [n * 2^e] rounded to the nearest integer, ties to even. *)
Definition round_half_even (n e : Z) : Z :=
  if (0 <=? e)%Z then (n * 2 ^ e)%Z
  else
    let d := (2 ^ (- e))%Z in
    let q := (n / d)%Z in
    let r := (n mod d)%Z in
    if (2 * r <? d)%Z then q
    else if (d <? 2 * r)%Z then (q + 1)%Z
    else if Z.even q then q else (q + 1)%Z.

Definition digits (n : Z) : string := NilEmpty.string_of_uint (N.to_uint (Z.to_N n)).

Fixpoint zeros (k : nat) : string :=
  match k with O => "" | S k' => String "0" (zeros k') end.

(** The non-negative integer [n], read as a count of [10^-p] units,
    written with [p] digits after the point. *)
Definition fixed (n : Z) (p : nat) : string :=
  let scale := (10 ^ Z.of_nat p)%Z in
  let ip := (n / scale)%Z in
  let fp := digits (n mod scale) in
  let int_part := if (ip =? 0)%Z then "0" else digits ip in
  match p with
  | O => int_part
  | _ => int_part +:+ "." +:+ zeros (p - String.length fp) +:+ fp
  end.

Definition Sprintf_f (p : nat) (x : float) : string :=
  match Prim2SF x with
  | S754_nan => "NaN"
  | S754_infinity false => "+Inf"
  | S754_infinity true => "-Inf"
  | S754_zero sg => (if sg then "-" else "") +:+ fixed 0 p
  | S754_finite sg m e =>
      (if sg then "-" else "")
        +:+ fixed (round_half_even (Z.pos m * 10 ^ Z.of_nat p) e) p
  end.

Definition Sprintf_d (n : Z) : string := NilZero.string_of_int (Z.to_int n).

End Go.

Definition go_runtime : GoRuntime :=
  {| ParseFloat := Go.ParseFloat; Sprintf_f := Go.Sprintf_f; Sprintf_d := Go.Sprintf_d |}.

(** ** Data model ([main.go], lines 28-89) *)

(** [Position]; the nested structs [Leverage] and [CumFunding] are
    flattened into prefixed fields. *)
Record Position := {
  Coin : string;
  Szi : string;
  Leverage_Type : string;
  Leverage_Value : Z;
  Leverage_RawUsd : string;
  EntryPx : string;
  PositionValue : string;
  UnrealizedPnl : string;
  ReturnOnEquity : string;
  LiquidationPx : string;
  MarginUsed : string;
  MaxLeverage : Z;
  CumFunding_AllTime : string;
  CumFunding_SinceOpen : string;
  CumFunding_SinceChange : string;
}.

Record WalletConfig := {
  Address : string;
  Name : string;
  ChatID : string;
}.

Record AccountState := {
  LastPositions : gmap string Position;
  LastAccountValue : float;
}.

(** The state a new address starts from (lines 440-443 and 555-558). *)
Definition zero_state : AccountState :=
  {| LastPositions := ∅; LastAccountValue := 0%float |}.

(** The entries a [range] loop over [m] may visit, in the order visited. *)
Definition ranges {A} (m : gmap string A) (order : list (string * A)) : Prop :=
  order ≡ₚ map_to_list m.

(** ** The DiffReport of the specification (section 4.2)

    The Go functions build the text of a report directly.  The events of
    the specification are computed by [detect_events] below, over the same
    two loops; the lemmas [detectPositionChanges_render] show that the
    text built by the code is the rendering of exactly these events, in
    this order. *)
Inductive Event :=
| Opened (coin : string) (current : Position)
| Resized (coin : string) (increased : bool) (lastSzi currentSzi sziChangePercent : float)
| Closed (coin : string) (last : Position).

Definition event_coin (e : Event) : string :=
  match e with Opened c _ | Resized c _ _ _ _ | Closed c _ => c end.

Definition is_opened (e : Event) : bool :=
  match e with Opened _ _ => true | _ => false end.
Definition is_resized (e : Event) : bool :=
  match e with Resized _ _ _ _ _ => true | _ => false end.
Definition is_closed (e : Event) : bool :=
  match e with Closed _ _ => true | _ => false end.

Definition concat_s (blocks : list string) : string := foldr String.app "" blocks.

(** [if changes == "" { changes = header }], the guard before every
    block that the loops append. *)
Definition begin_report (header changes : string) : string :=
  if decide (changes = "") then header else changes.

(** What a loop body does to [changes] when it reports [blocks]. *)
Definition emit (header changes : string) (blocks : list string) : string :=
  match blocks with
  | [] => changes
  | _ => begin_report header changes +:+ concat_s blocks
  end.

(** ** Rendering and change detection, shared by the two programs *)

Section Engine.
Context `{GoRuntime}.

(** [v, _ := strconv.ParseFloat(s, 64)]: the error is dropped. *)
Definition parse (s : string) : float := (ParseFloat s).1.

(** [shortenAddress] (lines 752-757); lengths and slices count bytes. *)
Definition shortenAddress (address : string) : string :=
  if (String.length address <=? 10)%nat then address
  else substring 0 6 address +:+ "..."
       +:+ substring (String.length address - 4) 4 address.

(** [addPositionDetails] (lines 726-750); the message is returned instead
    of being updated through the pointer. *)
Definition addPositionDetails (message : string) (position : Position) : string :=
  let szi := parse (Szi position) in
  let entryPx := parse (EntryPx position) in
  let posValue := parse (PositionValue position) in
  let unrealizedPnl := parse (UnrealizedPnl position) in
  let roi := parse (ReturnOnEquity position) in
  let liquidationPx := parse (LiquidationPx position) in
  let direction := if (szi <? 0)%float then "空头" else "多头" in
  let szi := if (szi <? 0)%float then (- szi)%float else szi in
  let message := message +:+ "   " +:+ Coin position +:+ " (" +:+ direction +:+ ")" +:+ nl in
  let message := message +:+ "   📈 仓位大小: " +:+ Sprintf_f 5 szi
                   +:+ " ($" +:+ Sprintf_f 2 posValue +:+ ")" +:+ nl in
  let message := message +:+ "   🏷️ 入场价格: $" +:+ Sprintf_f 2 entryPx +:+ nl in
  let message := message +:+ "   📊 杠杆: " +:+ Sprintf_d (Leverage_Value position) +:+ "x" +:+ nl in
  let pnlEmoji := if (0 <=? unrealizedPnl)%float then "🟢" else "🔴" in
  let message := message +:+ "   " +:+ pnlEmoji +:+ " 盈亏: $" +:+ Sprintf_f 2 unrealizedPnl
                   +:+ " (" +:+ Sprintf_f 2 (roi * 100)%float +:+ "%)" +:+ nl in
  message +:+ "   ⚠️ 强平价格: $" +:+ Sprintf_f 2 liquidationPx +:+ nl +:+ nl.

(** The two lines a position report starts with (written out three times
    in [detectPositionChanges], each time under [if changes == ""]). *)
Definition changes_header (name address timeStamp : string) : string :=
  let changes := "🔄 HyperLiquid持仓变化 - " +:+ name
                   +:+ " (" +:+ timeStamp +:+ ")" +:+ nl +:+ nl in
  changes +:+ "💼 账户地址: " +:+ shortenAddress address +:+ nl +:+ nl.

Definition sziChangePercent (currentSzi lastSzi : float) : float :=
  if negb (lastSzi =? 0)%float
  then (PrimFloat.abs ((currentSzi - lastSzi) / lastSzi) * 100)%float
  else 0%float.

(** Body of the first loop of [detectPositionChanges] (lines 677-711). *)
Definition detect_current (header : string) (lastPositions : gmap string Position)
    (changes : string) (entry : string * Position) : string :=
  let '(coin, current) := entry in
  match lastPositions !! coin with
  | None =>
      let changes := begin_report header changes in
      let changes := changes +:+ "🆕 新开仓位: " +:+ coin +:+ nl in
      addPositionDetails changes current
  | Some last =>
      let currentSzi := parse (Szi current) in
      let lastSzi := parse (Szi last) in
      let sziChangePercent := sziChangePercent currentSzi lastSzi in
      if (1 <=? sziChangePercent)%float then
        let changes := begin_report header changes in
        let changes :=
          if (PrimFloat.abs lastSzi <? PrimFloat.abs currentSzi)%float
          then changes +:+ "📈 仓位增加: " +:+ coin +:+ nl
          else changes +:+ "📉 仓位减少: " +:+ coin +:+ nl in
        let changes := changes +:+ "   从: " +:+ Sprintf_f 5 lastSzi +:+ nl in
        let changes := changes +:+ "   到: " +:+ Sprintf_f 5 currentSzi +:+ nl in
        changes +:+ "   变化: " +:+ Sprintf_f 2 sziChangePercent +:+ "%" +:+ nl +:+ nl
      else changes
  end.

(** Body of the second loop (lines 713-721). *)
Definition detect_closed (header : string) (currentPositions : gmap string Position)
    (changes : string) (entry : string * Position) : string :=
  let '(coin, _) := entry in
  match currentPositions !! coin with
  | None =>
      let changes := begin_report header changes in
      changes +:+ "❌ 已关闭仓位: " +:+ coin +:+ nl +:+ nl
  | Some _ => changes
  end.

(** [detectPositionChanges] of [main.go] (lines 673-724).  Besides the
    four arguments of the Go function it takes what the function reads
    from its environment: the time stamp given by [time.Now] and the
    orders in which its two [range] loops visit [currentPositions] and
    [state.LastPositions]. *)
Definition detectPositionChanges (wallet : WalletConfig)
    (currentPositions : gmap string Position) (currentAccountValue : float)
    (state : AccountState) (timeStamp : string)
    (rangeCurrent rangeLast : list (string * Position)) : string :=
  let header := changes_header (Name wallet) (Address wallet) timeStamp in
  let changes := "" in
  let changes := foldl (detect_current header (LastPositions state)) changes rangeCurrent in
  foldl (detect_closed header currentPositions) changes rangeLast.

(** The events of the two loops. *)
Definition diff_current (lastPositions : gmap string Position)
    (entry : string * Position) : list Event :=
  let '(coin, current) := entry in
  match lastPositions !! coin with
  | None => [Opened coin current]
  | Some last =>
      let currentSzi := parse (Szi current) in
      let lastSzi := parse (Szi last) in
      let pct := sziChangePercent currentSzi lastSzi in
      if (1 <=? pct)%float
      then [Resized coin (PrimFloat.abs lastSzi <? PrimFloat.abs currentSzi)%float
              lastSzi currentSzi pct]
      else []
  end.

Definition diff_closed (currentPositions : gmap string Position)
    (entry : string * Position) : list Event :=
  let '(coin, last) := entry in
  match currentPositions !! coin with
  | None => [Closed coin last]
  | Some _ => []
  end.

Definition detect_events (currentPositions : gmap string Position)
    (state : AccountState) (rangeCurrent rangeLast : list (string * Position)) : list Event :=
  (rangeCurrent ≫= diff_current (LastPositions state))
    ++ (rangeLast ≫= diff_closed currentPositions).

(** The specification's Δ% of a resize, in binary64 arithmetic:
    [|current − previous| / |previous| × 100], and 0 when the previous
    size is zero. *)
Definition delta_percent (current previous : float) : float :=
  if (previous =? 0)%float then 0%float
  else (PrimFloat.abs (current - previous) / PrimFloat.abs previous * 100)%float.

(** The text of one event in a report of the multi-tenant monitor. *)
Definition render_event (e : Event) : string :=
  match e with
  | Opened coin current => addPositionDetails ("🆕 新开仓位: " +:+ coin +:+ nl) current
  | Resized coin increased lastSzi currentSzi pct =>
      (if increased then "📈 仓位增加: " else "📉 仓位减少: ") +:+ coin +:+ nl
        +:+ "   从: " +:+ Sprintf_f 5 lastSzi +:+ nl
        +:+ "   到: " +:+ Sprintf_f 5 currentSzi +:+ nl
        +:+ "   变化: " +:+ Sprintf_f 2 pct +:+ "%" +:+ nl +:+ nl
  | Closed coin _ => "❌ 已关闭仓位: " +:+ coin +:+ nl +:+ nl
  end.

Definition render_report (wallet : WalletConfig) (timeStamp : string)
    (events : list Event) : string :=
  match events with
  | [] => ""
  | _ => changes_header (Name wallet) (Address wallet) timeStamp
           +:+ concat_s (render_event <$> events)
  end.

(** [generateInitialStatusMessage] of [main.go] (lines 588-628), with the
    time stamp and the order of its [range] loop as arguments. *)
Definition initial_position (message : string) (entry : string * Position) : string :=
  let position := entry.2 in
  let szi := parse (Szi position) in
  let entryPx := parse (EntryPx position) in
  let posValue := parse (PositionValue position) in
  let unrealizedPnl := parse (UnrealizedPnl position) in
  let roi := parse (ReturnOnEquity position) in
  let liquidationPx := parse (LiquidationPx position) in
  let marginUsed := parse (MarginUsed position) in
  let direction := if (szi <? 0)%float then "空头" else "多头" in
  let szi := if (szi <? 0)%float then (- szi)%float else szi in
  let message := message +:+ "🪙 " +:+ Coin position +:+ " (" +:+ direction +:+ ")" +:+ nl in
  let message := message +:+ "📈 仓位大小: " +:+ Sprintf_f 5 szi
                   +:+ " ($" +:+ Sprintf_f 2 posValue +:+ ")" +:+ nl in
  let message := message +:+ "🏷️ 入场价格: $" +:+ Sprintf_f 2 entryPx +:+ nl in
  let message := message +:+ "📊 杠杆: " +:+ Sprintf_d (Leverage_Value position)
                   +:+ "x (" +:+ Leverage_Type position +:+ ")" +:+ nl in
  let pnlEmoji := if (0 <=? unrealizedPnl)%float then "🟢" else "🔴" in
  let message := message +:+ pnlEmoji +:+ " 盈亏: $" +:+ Sprintf_f 2 unrealizedPnl
                   +:+ " (" +:+ Sprintf_f 2 (roi * 100)%float +:+ "%)" +:+ nl in
  let message := message +:+ "⚠️ 强平价格: $" +:+ Sprintf_f 2 liquidationPx +:+ nl in
  message +:+ "💸 已用保证金: $" +:+ Sprintf_f 2 marginUsed +:+ nl +:+ nl.

Definition generateInitialStatusMessage (wallet : WalletConfig)
    (positions : gmap string Position) (accountValue : float)
    (timeStamp : string) (rangePositions : list (string * Position)) : string :=
  let message := "🔄 HyperLiquid初始持仓状态 - " +:+ Name wallet
                   +:+ " (" +:+ timeStamp +:+ ")" +:+ nl +:+ nl in
  let message := message +:+ "💼 账户地址: " +:+ shortenAddress (Address wallet) +:+ nl in
  let message := message +:+ "💰 账户价值: $" +:+ Sprintf_f 2 accountValue +:+ nl +:+ nl in
  let message :=
    if bool_decide (0 < size positions) then
      let message := message +:+ "📊 当前持仓:" +:+ nl +:+ nl in
      foldl initial_position message rangePositions
    else message +:+ "没有找到开放的持仓。" +:+ nl in
  message +:+ "🔔 持仓监控已启动，将在仓位变化时发送通知。".

End Engine.
(** ** The single-tenant monitor (second source file)

    [Position], [AccountState], [shortenAddress] and [addPositionDetails]
    are declared there with the same text as in [main.go]; the
    definitions above are used for them. *)
Module SingleTenant.

Record WalletConfig := {
  Address : string;
  Name : string;
}.

Section Engine.
Context `{GoRuntime}.

(** Body of the first loop of [detectPositionChanges] (lines 337-379);
    the loop carries [changes], [newPositions] and [modifiedPositions]. *)
Definition detect_current (header : string) (lastPositions : gmap string Position)
    (acc : string * bool * bool) (entry : string * Position) : string * bool * bool :=
  let '(changes, newPositions, modifiedPositions) := acc in
  let '(coin, current) := entry in
  match lastPositions !! coin with
  | None =>
      let changes := begin_report header changes in
      let changes := changes +:+ "🆕 新开仓位: " +:+ coin +:+ nl in
      let changes := addPositionDetails changes current in
      (changes, true, modifiedPositions)
  | Some last =>
      let currentSzi := parse (Szi current) in
      let lastSzi := parse (Szi last) in
      let sziChangePercent := sziChangePercent currentSzi lastSzi in
      if (1 <=? sziChangePercent)%float then
        let changes := begin_report header changes in
        let changes :=
          if (PrimFloat.abs lastSzi <? PrimFloat.abs currentSzi)%float
          then changes +:+ "📈 仓位增加: " +:+ coin +:+ nl
          else changes +:+ "📉 仓位减少: " +:+ coin +:+ nl in
        let changes := changes +:+ "   从: " +:+ Sprintf_f 5 lastSzi +:+ nl in
        let changes := changes +:+ "   到: " +:+ Sprintf_f 5 currentSzi +:+ nl in
        let changes :=
          changes +:+ "   变化: " +:+ Sprintf_f 2 sziChangePercent +:+ "%" +:+ nl +:+ nl in
        (changes, newPositions, true)
      else (changes, newPositions, modifiedPositions)
  end.

(** Body of the second loop (lines 383-394); it carries [changes] and
    [removedPositions]. *)
Definition detect_closed (header : string) (currentPositions : gmap string Position)
    (acc : string * bool) (entry : string * Position) : string * bool :=
  let '(changes, removedPositions) := acc in
  let '(coin, last) := entry in
  match currentPositions !! coin with
  | None =>
      let changes := begin_report header changes in
      let changes := changes +:+ "❌ 已关闭仓位: " +:+ coin +:+ nl in
      let lastSzi := parse (Szi last) in
      let changes := changes +:+ "   仓位大小: " +:+ Sprintf_f 5 lastSzi +:+ nl +:+ nl in
      (changes, true)
  | Some _ => (changes, removedPositions)
  end.

(** Body of the summary loop of the account-value report (lines 414-432). *)
Definition summary_position (changes : string) (entry : string * Position) : string :=
  let '(coin, position) := entry in
  let szi := parse (Szi position) in
  let pnl := parse (UnrealizedPnl position) in
  let roi := parse (ReturnOnEquity position) in
  let direction := if (szi <? 0)%float then "空头" else "多头" in
  let szi := if (szi <? 0)%float then (- szi)%float else szi in
  let pnlEmoji := if (0 <=? pnl)%float then "🟢" else "🔴" in
  let changes := changes +:+ "🪙 " +:+ coin +:+ " (" +:+ direction +:+ "): "
                   +:+ Sprintf_f 5 szi +:+ nl in
  changes +:+ "   " +:+ pnlEmoji +:+ " 盈亏: $" +:+ Sprintf_f 2 pnl
    +:+ " (" +:+ Sprintf_f 2 (roi * 100)%float +:+ "%)" +:+ nl +:+ nl.

Definition accountValueChangePercent (currentAccountValue lastAccountValue : float) : float :=
  let accountValueChange := (currentAccountValue - lastAccountValue)%float in
  if (0 <? lastAccountValue)%float
  then (accountValueChange / lastAccountValue * 100)%float
  else 0%float.

(** The standalone account-value report (lines 398-433). *)
Definition account_value_report (wallet : WalletConfig)
    (currentPositions : gmap string Position) (currentAccountValue : float)
    (state : AccountState) (timeStamp : string)
    (rangeSummary : list (string * Position)) : string :=
  let accountValueChange := (currentAccountValue - LastAccountValue state)%float in
  let accountValueChangePercent :=
    accountValueChangePercent currentAccountValue (LastAccountValue state) in
  let changes := "🔄 HyperLiquid账户价值变化 - " +:+ Name wallet
                   +:+ " (" +:+ timeStamp +:+ ")" +:+ nl +:+ nl in
  let changes := changes +:+ "💼 账户地址: " +:+ shortenAddress (Address wallet) +:+ nl +:+ nl in
  let valueChangeEmoji := if (0 <=? accountValueChange)%float then "🟢" else "🔴" in
  let changes := changes +:+ valueChangeEmoji +:+ " 账户价值变化:" +:+ nl in
  let changes := changes +:+ "   从: $" +:+ Sprintf_f 2 (LastAccountValue state) +:+ nl in
  let changes := changes +:+ "   到: $" +:+ Sprintf_f 2 currentAccountValue +:+ nl in
  let changes := changes +:+ "   变化: $" +:+ Sprintf_f 2 accountValueChange
                   +:+ " (" +:+ Sprintf_f 2 accountValueChangePercent +:+ "%)" +:+ nl +:+ nl in
  if bool_decide (0 < size currentPositions) then
    let changes := changes +:+ "📊 当前持仓摘要:" +:+ nl +:+ nl in
    foldl summary_position changes rangeSummary
  else changes.

(** [detectPositionChanges] (lines 319-437), with the time stamp and the
    orders of its three [range] loops as arguments. *)
Definition detectPositionChanges (wallet : WalletConfig)
    (currentPositions : gmap string Position) (currentAccountValue : float)
    (state : AccountState) (timeStamp : string)
    (rangeCurrent rangeLast rangeSummary : list (string * Position)) : string :=
  let header := changes_header (Name wallet) (Address wallet) timeStamp in
  let changes := "" in
  let accountValueChangePercent :=
    accountValueChangePercent currentAccountValue (LastAccountValue state) in
  let significantAccountChange := (1 <=? PrimFloat.abs accountValueChangePercent)%float in
  let '(changes, newPositions, modifiedPositions) :=
    foldl (detect_current header (LastPositions state)) (changes, false, false) rangeCurrent in
  let '(changes, removedPositions) :=
    foldl (detect_closed header currentPositions) (changes, false) rangeLast in
  if significantAccountChange && negb newPositions && negb modifiedPositions
       && negb removedPositions
  then account_value_report wallet currentPositions currentAccountValue state
         timeStamp rangeSummary
  else changes.

(** The specification's Δacct%, in binary64 arithmetic:
    [(current − previous) / previous × 100], and 0 when the previous
    equity is not positive. *)
Definition delta_account_percent (current previous : float) : float :=
  if (previous <=? 0)%float then 0%float
  else ((current - previous) / previous * 100)%float.

(** The text of one event in a report of the single-tenant monitor: a
    closed position is reported with its last size. *)
Definition render_event (e : Event) : string :=
  match e with
  | Closed coin last =>
      "❌ 已关闭仓位: " +:+ coin +:+ nl
        +:+ "   仓位大小: " +:+ Sprintf_f 5 (parse (Szi last)) +:+ nl +:+ nl
  | _ => render_event e
  end.

Definition render_report (wallet : WalletConfig) (timeStamp : string)
    (events : list Event) : string :=
  match events with
  | [] => ""
  | _ => changes_header (Name wallet) (Address wallet) timeStamp
           +:+ concat_s (render_event <$> events)
  end.

End Engine.
End SingleTenant.
(** ** The running multi-tenant program

    The globals of [main.go] ([wallets], [accountStates], the SQL store)
    form a [World].  The functions below are state transformers over it.
    Everything outside the program answers through an [Env]: each call to
    the outside draws the answer indexed by the world's clock and advances
    the clock.  The lock [walletMutex] is not modelled: the functions run
    one at a time. *)

Record AssetPosition := {
  AssetPosition_Type : string;
  AssetPosition_Position : Position;
}.

(** The fields of [Response] that [fetchPositions] reads. *)
Record Response := {
  MarginSummary_AccountValue : string;
  AssetPositions : list AssetPosition;
}.

(** The SQL statements the program issues on the subscription and
    account-state tables. *)
Inductive Stmt :=
| InsertSubscription (chat_id address name : string)
| DeleteSubscription (chat_id address : string)
| InsertAccountState (address : string) (state : AccountState)
| DeleteAccountState (address : string).

(** The three tables ([initDB], lines 150-181); [subscriptions] is unique
    on [(chat_id, address)], [account_states] has [address] as its key. *)
Record Store := {
  subscriptions : gmap (string * string) string;
  account_states : gmap string AccountState;
  authorized_users : gset string;
}.

(** [INSERT OR REPLACE] and [DELETE ... WHERE]. *)
Definition exec_stmt (q : Stmt) (s : Store) : Store :=
  match q with
  | InsertSubscription chat_id address name =>
      {| subscriptions := <[(chat_id, address) := name]> (subscriptions s);
         account_states := account_states s;
         authorized_users := authorized_users s |}
  | DeleteSubscription chat_id address =>
      {| subscriptions := delete (chat_id, address) (subscriptions s);
         account_states := account_states s;
         authorized_users := authorized_users s |}
  | InsertAccountState address state =>
      {| subscriptions := subscriptions s;
         account_states := <[address := state]> (account_states s);
         authorized_users := authorized_users s |}
  | DeleteAccountState address =>
      {| subscriptions := subscriptions s;
         account_states := delete address (account_states s);
         authorized_users := authorized_users s |}
  end.

(** What the program does to the outside, in the order it does it, each
    with the answer it got. *)
Inductive IOEvent :=
| IoFetch (address : string) (answer : string + Response)
| IoSend (chatID message : string) (delivered : bool)
| IoExec (q : Stmt) (ok : bool)
| IoLog (line : string)
| IoPanic (why : string).

(** The addresses fetched, the messages handed to the transport (with
    their recipients) and the statements issued, in a stretch of trace. *)
Definition fetched (evs : list IOEvent) : list string :=
  omap (λ ev, match ev with IoFetch address _ => Some address | _ => None end) evs.

Definition sent (evs : list IOEvent) : list (string * string) :=
  omap (λ ev, match ev with IoSend chatID message _ => Some (chatID, message) | _ => None end)
    evs.

Definition executed (evs : list IOEvent) : list Stmt :=
  omap (λ ev, match ev with IoExec q _ => Some q | _ => None end) evs.

(** The answers of the outside.  An error is the text [%v] prints. *)
Record Env := {
  time_now : nat → string;
  http_post : nat → string → string + Response;
  bot_send : nat → string → string → option string;
  db_exec : nat → Stmt → option string;
  range_order : ∀ A : Type, nat → gmap string A → list (string * A);
}.

(** Every [range] loop visits each entry of its map exactly once. *)
Definition fair (E : Env) : Prop :=
  ∀ (A : Type) (n : nat) (m : gmap string A), ranges m (range_order E A n m).

Record World := {
  wallets : gmap string WalletConfig;
  accountStates : gmap string AccountState;
  store : Store;
  trace : list IOEvent;
  clock : nat;
}.

Definition IO (A : Type) : Type := World → A * World.

Definition ret {A} (x : A) : IO A := λ w, (x, w).

Definition bind {A B} (c : IO A) (k : A → IO B) : IO B :=
  λ w, match c w with (x, w') => k x w' end.

Notation "'let*' x := c 'in' k" := (bind c (λ x, k))
  (at level 10, x pattern, c at level 200, k at level 200).

Definition get_world : IO World := λ w, (w, w).

Definition set_wallets (ws : gmap string WalletConfig) : IO unit :=
  λ w, (tt, {| wallets := ws; accountStates := accountStates w; store := store w;
               trace := trace w; clock := clock w |}).

Definition set_accountStates (sts : gmap string AccountState) : IO unit :=
  λ w, (tt, {| wallets := wallets w; accountStates := sts; store := store w;
               trace := trace w; clock := clock w |}).

Definition set_store (s : Store) : IO unit :=
  λ w, (tt, {| wallets := wallets w; accountStates := accountStates w; store := s;
               trace := trace w; clock := clock w |}).

Definition record (ev : IOEvent) : IO unit :=
  λ w, (tt, {| wallets := wallets w; accountStates := accountStates w; store := store w;
               trace := trace w ++ [ev]; clock := clock w |}).

Definition tick : IO nat :=
  λ w, (clock w, {| wallets := wallets w; accountStates := accountStates w;
                    store := store w; trace := trace w; clock := S (clock w) |}).

Fixpoint for_each {A} (l : list A) (body : A → IO unit) : IO unit :=
  match l with
  | [] => ret tt
  | x :: l' => let* _ := body x in for_each l' body
  end.

(** A goroutine started by [go func() { ... }()]: the variables its
    closure captures.  It runs when the scheduler picks it. *)
Record Goroutine := {
  go_chatID : string;
  go_address : string;
  go_wallet : WalletConfig;
}.

Section Program.
Context `{GoRuntime} (E : Env).

Definition is_nil (err : option string) : bool :=
  match err with None => true | Some _ => false end.

Definition range_over {A} (m : gmap string A) : IO (list (string * A)) :=
  let* n := tick in ret (range_order E A n m).

Definition timeNow : IO string :=
  let* n := tick in ret (time_now E n).

Definition logPrintf (line : string) : IO unit := record (IoLog line).

(** [log.Printf(format, ..., err)] under [if err != nil]. *)
Definition log_if (err : option string) (line : string) : IO unit :=
  match err with
  | Some e => logPrintf (line +:+ e)
  | None => ret tt
  end.

(** [sendMessage] (lines 582-586). *)
Definition sendMessage (chatID message : string) : IO (option string) :=
  let* n := tick in
  let err := bot_send E n chatID message in
  let* _ := record (IoSend chatID message (is_nil err)) in
  ret err.

(** [db.Exec]: a statement that fails leaves the store as it was. *)
Definition dbExec (q : Stmt) : IO (option string) :=
  let* n := tick in
  let err := db_exec E n q in
  let* w := get_world in
  let* _ := if is_nil err then set_store (exec_stmt q (store w)) else ret tt in
  let* _ := record (IoExec q (is_nil err)) in
  ret err.

(** Lines 351-378. *)
Definition saveSubscriptionToDB (chatID address name : string) : IO (option string) :=
  dbExec (InsertSubscription chatID address name).

Definition deleteSubscriptionFromDB (chatID address : string) : IO (option string) :=
  dbExec (DeleteSubscription chatID address).

Definition saveAccountStateToDB (address : string) (state : AccountState) : IO (option string) :=
  dbExec (InsertAccountState address state).

(** The loop of [fetchPositions] that indexes the positions by coin
    (lines 665-668). *)
Definition index_positions (assetPositions : list AssetPosition) : gmap string Position :=
  foldl (λ positions pos,
           <[Coin (AssetPosition_Position pos) := AssetPosition_Position pos]> positions)
    ∅ assetPositions.

(** [fetchPositions] (lines 630-671): one request; on success the account
    value is parsed and the positions are indexed by coin. *)
Definition fetchPositions (address : string)
    : IO (string + gmap string Position * float) :=
  let* n := tick in
  let answer := http_post E n address in
  let* _ := record (IoFetch address answer) in
  match answer with
  | inl err => ret (inl err)
  | inr responseData =>
      let accountValue := parse (MarginSummary_AccountValue responseData) in
      let positions := index_positions (AssetPositions responseData) in
      ret (inr (positions, accountValue))
  end.

(** A call of [detectPositionChanges]: the time stamp and the orders of
    the two loops are drawn from the environment. *)
Definition call_detectPositionChanges (wallet : WalletConfig)
    (currentPositions : gmap string Position) (currentAccountValue : float)
    (state : AccountState) : IO string :=
  let* timeStamp := timeNow in
  let* rangeCurrent := range_over currentPositions in
  let* rangeLast := range_over (LastPositions state) in
  ret (detectPositionChanges wallet currentPositions currentAccountValue state
         timeStamp rangeCurrent rangeLast).

Definition call_generateInitialStatusMessage (wallet : WalletConfig)
    (positions : gmap string Position) (accountValue : float) : IO string :=
  let* timeStamp := timeNow in
  let* rangePositions := range_over positions in
  ret (generateInitialStatusMessage wallet positions accountValue timeStamp rangePositions).

(** The zero value of [WalletConfig], which [wallets[key]] yields for a
    missing key. *)
Definition zero_wallet : WalletConfig := {| Address := ""; Name := ""; ChatID := "" |}.

(** [hasSubscribers] (lines 475-483): the loop returns at the first
    match. *)
Definition hasSubscribers (address excludeChatID : string) : IO bool :=
  let* w := get_world in
  let* order := range_over (wallets w) in
  ret (existsb
         (λ entry : string * WalletConfig,
            let wallet := default zero_wallet (wallets w !! entry.1) in
            bool_decide (Address wallet = address ∧ ChatID wallet ≠ excludeChatID))
         order).

Definition wallet_key (chatID address : string) : string := chatID +:+ "_" +:+ address.

(** The goroutine of [subscribeWallet] (lines 446-469).  The assignment
    through [accountStates[address]] dereferences a nil pointer when the
    state is gone; the Go program panics there. *)
Definition subscribeWallet_goroutine (g : Goroutine) : IO unit :=
  let chatID := go_chatID g in
  let address := go_address g in
  let wallet := go_wallet g in
  let* fetched := fetchPositions address in
  match fetched with
  | inl err =>
      let* _ := logPrintf ("首次获取 " +:+ address +:+ " 持仓失败: " +:+ err) in
      let* _ := sendMessage chatID
                  ("获取地址 " +:+ shortenAddress address +:+ " 初始状态失败: " +:+ err) in
      ret tt
  | inr (currentPositions, currentAccountValue) =>
      let* message :=
        call_generateInitialStatusMessage wallet currentPositions currentAccountValue in
      let* err := sendMessage chatID message in
      let* _ := log_if err ("发送初始状态失败 " +:+ address +:+ ": ") in
      let* w := get_world in
      let* first :=
        if decide (size (wallets w) = 1) then ret true
        else let* others := hasSubscribers address chatID in ret (negb others) in
      if first : bool then
        let* w := get_world in
        match accountStates w !! address with
        | None => record (IoPanic "nil pointer dereference")
        | Some _ =>
            let state := {| LastPositions := currentPositions;
                            LastAccountValue := currentAccountValue |} in
            let* _ := set_accountStates (<[address := state]> (accountStates w)) in
            let* err := saveAccountStateToDB address state in
            log_if err ("保存账户状态失败 " +:+ address +:+ ": ")
        end
      else ret tt
  end.

(** [subscribeWallet] (lines 417-472); the goroutine it starts, if any, is
    returned. *)
Definition subscribeWallet (chatID address name : string) : IO (option Goroutine) :=
  let* w := get_world in
  let key := wallet_key chatID address in
  match wallets w !! key with
  | Some _ =>
      let* _ := sendMessage chatID ("地址 " +:+ shortenAddress address +:+ " 已订阅") in
      ret None
  | None =>
      let wallet := {| Address := address; Name := name; ChatID := chatID |} in
      let* _ := set_wallets (<[key := wallet]> (wallets w)) in
      let* err := saveSubscriptionToDB chatID address name in
      let* _ := log_if err "保存订阅到数据库失败: " in
      let* w := get_world in
      let* _ :=
        match accountStates w !! address with
        | None => set_accountStates (<[address := zero_state]> (accountStates w))
        | Some _ => ret tt
        end in
      let g := {| go_chatID := chatID; go_address := address; go_wallet := wallet |} in
      let* _ := sendMessage chatID
                  ("已订阅地址 " +:+ shortenAddress address +:+ " (" +:+ name +:+ ")") in
      ret (Some g)
  end.

(** [unsubscribeWallet] (lines 485-510). *)
Definition unsubscribeWallet (chatID address : string) : IO unit :=
  let* w := get_world in
  let key := wallet_key chatID address in
  match wallets w !! key with
  | None =>
      let* _ := sendMessage chatID ("地址 " +:+ shortenAddress address +:+ " 未被订阅") in
      ret tt
  | Some _ =>
      let* _ := set_wallets (delete key (wallets w)) in
      let* err := deleteSubscriptionFromDB chatID address in
      let* _ := log_if err "从数据库删除订阅失败: " in
      let* others := hasSubscribers address "" in
      let* _ :=
        if others then ret tt
        else
          let* w := get_world in
          let* _ := set_accountStates (delete address (accountStates w)) in
          let* err := dbExec (DeleteAccountState address) in
          log_if err ("删除账户状态失败 " +:+ address +:+ ": ") in
      let* _ := sendMessage chatID ("已取消订阅地址 " +:+ shortenAddress address) in
      ret tt
  end.

(** The inner loop of [monitorAllWallets] (lines 565-571), for one
    subscriber. *)
Definition notify_subscriber (address : string)
    (currentPositions : gmap string Position) (currentAccountValue : float)
    (state : AccountState) (wallet : WalletConfig) : IO unit :=
  let* changes :=
    call_detectPositionChanges wallet currentPositions currentAccountValue state in
  let* err := sendMessage (ChatID wallet) changes in
  log_if err ("发送变化通知失败 " +:+ address +:+ " (ChatID: " +:+ ChatID wallet +:+ "): ").

(** The body of the loop over the addresses (lines 545-579). *)
Definition monitor_address (entry : string * list WalletConfig) : IO unit :=
  let '(address, subscribers) := entry in
  let* fetched := fetchPositions address in
  match fetched with
  | inl err => logPrintf ("监控 " +:+ address +:+ " 失败: " +:+ err)
  | inr (currentPositions, currentAccountValue) =>
      let* w := get_world in
      let* state :=
        match accountStates w !! address with
        | Some state => ret state
        | None =>
            let* _ := set_accountStates (<[address := zero_state]> (accountStates w)) in
            ret zero_state
        end in
      match subscribers with
      | [] => record (IoPanic "index out of range")
      | first :: _ =>
          let* changes :=
            call_detectPositionChanges first currentPositions currentAccountValue state in
          if decide (changes = "") then ret tt
          else
            let* _ :=
              for_each subscribers
                (notify_subscriber address currentPositions currentAccountValue state) in
            let state := {| LastPositions := currentPositions;
                            LastAccountValue := currentAccountValue |} in
            let* w := get_world in
            let* _ := set_accountStates (<[address := state]> (accountStates w)) in
            let* err := saveAccountStateToDB address state in
            log_if err ("保存账户状态失败 " +:+ address +:+ ": ")
      end
  end.

(** The grouping of the subscriptions by address (lines 539-542). *)
Definition group_by_address (order : list (string * WalletConfig))
    : gmap string (list WalletConfig) :=
  foldl (λ addressSubscribers entry,
           let wallet : WalletConfig := entry.2 in
           <[Address wallet := default [] (addressSubscribers !! Address wallet) ++ [wallet]]>
             addressSubscribers)
    ∅ order.

(** [monitorAllWallets] (lines 530-580). *)
Definition monitorAllWallets : IO unit :=
  let* w := get_world in
  let* copyOrder := range_over (wallets w) in
  let walletsCopy : gmap string WalletConfig :=
    foldl (λ walletsCopy entry, <[entry.1 := entry.2]> walletsCopy) ∅ copyOrder in
  let* groupOrder := range_over walletsCopy in
  let addressSubscribers := group_by_address groupOrder in
  let* addressOrder := range_over addressSubscribers in
  for_each addressOrder monitor_address.

End Program.
(** ** The vocabulary of the statements *)

Definition no_events (events : list Event) : bool :=
  match events with [] => true | _ => false end.

(** The world after [n] more draws from the environment and the events
    [evs]. *)
Definition later (n : nat) (evs : list IOEvent) (w : World) : World :=
  {| wallets := wallets w; accountStates := accountStates w; store := store w;
     trace := trace w ++ evs; clock := n + clock w |}.

Section Vocabulary.
Context `{GoRuntime} (E : Env).

(** Someone else than [excludeChatID] subscribes to [address]. *)
Definition other_subscriber (ws : gmap string WalletConfig)
    (address excludeChatID : string) : Prop :=
  ∃ key wallet, ws !! key = Some wallet
                ∧ Address wallet = address ∧ ChatID wallet ≠ excludeChatID.

(** What a successful fetch hands to its caller. *)
Definition snapshot_of (responseData : Response) : gmap string Position * float :=
  (index_positions (AssetPositions responseData),
   parse (MarginSummary_AccountValue responseData)).

Definition state_of_snapshot (snapshot : gmap string Position * float) : AccountState :=
  {| LastPositions := snapshot.1; LastAccountValue := snapshot.2 |}.

(** The subscribers of an address in a registry. *)
Definition subscribers_of (ws : gmap string WalletConfig) (address : string)
    : list WalletConfig :=
  filter (λ wallet, Address wallet = address) (map_to_list ws).*2.

(** [W] is [w] after the events [evs], none of which changed the
    registry, the states or the store. *)
Definition talks (w W : World) (evs : list IOEvent) : Prop :=
  wallets W = wallets w ∧ accountStates W = accountStates w
  ∧ store W = store w ∧ trace W = trace w ++ evs.

(** [message] is a text that [detectPositionChanges] can build for
    [wallet] from the snapshot and the state. *)
Definition detect_text_of (wallet : WalletConfig)
    (snapshot : gmap string Position * float) (state : AccountState)
    (message : string) : Prop :=
  ∃ timeStamp rangeCurrent rangeLast,
    ranges snapshot.1 rangeCurrent ∧ ranges (LastPositions state) rangeLast
    ∧ message = detectPositionChanges wallet snapshot.1 snapshot.2 state
                  timeStamp rangeCurrent rangeLast.

(** The snapshot differs from the state by at least one event. *)
Definition changed (snapshot : gmap string Position * float) (state : AccountState) : Prop :=
  detect_events snapshot.1 state (map_to_list snapshot.1)
    (map_to_list (LastPositions state)) ≠ [].

(** Every subscriber of the group was handed one message, built from the
    snapshot and the state, and nothing else happened meanwhile. *)
Definition delivered_to_all (snapshot : gmap string Position * float)
    (state : AccountState) (subscribers : list WalletConfig)
    (sends : list IOEvent) : Prop :=
  Forall2 (λ wallet cm, cm.1 = ChatID wallet ∧ detect_text_of wallet snapshot state cm.2)
    subscribers (sent sends)
  ∧ executed sends = [] ∧ fetched sends = [].

(** What a poll cycle that leads from [w] to [w'] did for one group of
    subscribers: [segment] is the stretch of trace of the group's
    address.  It starts with the one fetch of the address, whose answer
    is the environment's.  When that fetch fails, or its snapshot does
    not differ from the state, nothing is sent and the state stays (an
    address without state gets the zero-valued one).  When the snapshot
    differs, every subscriber is handed a message built from that
    snapshot, then the snapshot becomes the state and the statement that
    stores it is issued: the durable row holds the snapshot exactly when
    the store of the environment executes the statement. *)
Definition poll_outcome (w w' : World) (group : string * list WalletConfig)
    (segment : list IOEvent) : Prop :=
  let address := group.1 in
  ∃ answer rest,
    segment = IoFetch address answer :: rest
    ∧ fetched rest = []
    ∧ (∃ n, answer = http_post E n address)
    ∧ match answer with
      | inl _ =>
          accountStates w' !! address = accountStates w !! address
          ∧ account_states (store w') !! address = account_states (store w) !! address
          ∧ sent rest = [] ∧ executed rest = []
      | inr responseData =>
          let snapshot := snapshot_of responseData in
          let state := default zero_state (accountStates w !! address) in
          let fetched_state := state_of_snapshot snapshot in
          (¬ changed snapshot state →
           accountStates w' !! address = Some state
           ∧ account_states (store w') !! address = account_states (store w) !! address
           ∧ rest = [])
          ∧ (changed snapshot state →
             accountStates w' !! address = Some fetched_state
             ∧ ∃ sends stored logs,
                 rest = sends ++ IoExec (InsertAccountState address fetched_state)
                                   (is_nil stored) :: logs
                 ∧ (∃ n, stored = db_exec E n (InsertAccountState address fetched_state))
                 ∧ delivered_to_all snapshot state group.2 sends
                 ∧ sent logs = [] ∧ executed logs = []
                 ∧ account_states (store w') !! address
                   = if is_nil stored then Some fetched_state
                     else account_states (store w) !! address)
      end.

(** Two positions with the same coin and leverage whose numeric texts
    are read as the same binary64 values (whatever errors the parser
    reported for them). *)
Definition same_numbers (p p' : Position) : Prop :=
  Coin p = Coin p'
  ∧ Leverage_Type p = Leverage_Type p'
  ∧ Leverage_Value p = Leverage_Value p'
  ∧ parse (Szi p) = parse (Szi p')
  ∧ parse (EntryPx p) = parse (EntryPx p')
  ∧ parse (PositionValue p) = parse (PositionValue p')
  ∧ parse (UnrealizedPnl p) = parse (UnrealizedPnl p')
  ∧ parse (ReturnOnEquity p) = parse (ReturnOnEquity p')
  ∧ parse (LiquidationPx p) = parse (LiquidationPx p')
  ∧ parse (MarginUsed p) = parse (MarginUsed p').

(** The values that [strconv.ParseFloat] returns together with an error,
    as its documentation gives them: 0 with [ErrSyntax], for a text that
    is not a well-formed number, and ±Inf with [ErrRange], for a
    well-formed number beyond the largest binary64 number. *)
Definition ParseFloat_errors : Prop :=
  ∀ s, match (ParseFloat s).2 with
       | Some ErrSyntax => (ParseFloat s).1 = 0%float
       | Some ErrRange => (ParseFloat s).1 = infinity ∨ (ParseFloat s).1 = neg_infinity
       | None => True
       end.

End Vocabulary.

(** ** Sample data for the closed instances of the claims *)
Module Sample.

Definition position (coin szi : string) : Position :=
  {| Coin := coin; Szi := szi;
     Leverage_Type := "cross"; Leverage_Value := 5; Leverage_RawUsd := "-1000.0";
     EntryPx := "100.5"; PositionValue := "2010.0"; UnrealizedPnl := "12.25";
     ReturnOnEquity := "0.031"; LiquidationPx := "55.1"; MarginUsed := "402.0";
     MaxLeverage := 50;
     CumFunding_AllTime := "1.5"; CumFunding_SinceOpen := "0.5";
     CumFunding_SinceChange := "0.1" |}.

Definition btc : Position := position "BTC" "0.5".
Definition eth : Position := position "ETH" "-3".

Definition alice : WalletConfig :=
  {| Address := "0x00112233445566778899aabbccddeeff00112233"; Name := "desk"; ChatID := "1001" |}.

Definition bob : WalletConfig :=
  {| Address := "0x00112233445566778899aabbccddeeff00112233"; Name := "fund"; ChatID := "1002" |}.

Definition solo : SingleTenant.WalletConfig :=
  {| SingleTenant.Address := "0x00112233445566778899aabbccddeeff00112233";
     SingleTenant.Name := "desk" |}.

Definition stamp : string := "2024-05-01 12:00:00".

Definition state_of (positions : gmap string Position) (value : float) : AccountState :=
  {| LastPositions := positions; LastAccountValue := value |}.

Definition two_positions : gmap string Position := {[ "BTC" := btc; "ETH" := eth ]}.

Definition btc_first : list (string * Position) := [("BTC", btc); ("ETH", eth)].
Definition eth_first : list (string * Position) := [("ETH", eth); ("BTC", btc)].

Definition size_100 : Position := position "BTC" "100".
Definition size_101 : Position := position "BTC" "101".

Definition account : string := Address alice.

Definition response_btc : Response :=
  {| MarginSummary_AccountValue := "1000.0";
     AssetPositions := [{| AssetPosition_Type := "oneWay"; AssetPosition_Position := btc |}] |}.

(** An outside where the exchange answers [response_btc], the store
    executes every statement, the loops follow the order of
    [map_to_list], and the transport answers [transport] to every send. *)
Definition outside (transport : option string) : Env :=
  {| time_now := λ _, stamp;
     http_post := λ _ _, inr response_btc;
     bot_send := λ _ _ _, transport;
     db_exec := λ _ _, None;
     range_order := λ A _ m, map_to_list m |}.

Definition empty_store : Store :=
  {| subscriptions := ∅; account_states := ∅; authorized_users := ∅ |}.

(** Alice subscribes to the account; its state is the zero-valued
    baseline. *)
Definition alice_alone : World :=
  {| wallets := {[ wallet_key "1001" account := alice ]};
     accountStates := {[ account := zero_state ]};
     store := empty_store; trace := []; clock := 0 |}.

(** Alice and Bob subscribe to the account. *)
Definition alice_and_bob : World :=
  {| wallets := {[ wallet_key "1001" account := alice; wallet_key "1002" account := bob ]};
     accountStates := {[ account := zero_state ]};
     store := empty_store; trace := []; clock := 0 |}.

(** Alice subscribes to the account, whose state holds the BTC position. *)
Definition alice_settled : World :=
  {| wallets := {[ wallet_key "1001" account := alice ]};
     accountStates := {[ account := state_of {[ "BTC" := btc ]} 1000 ]};
     store := {| subscriptions := {[ ("1001", account) := "desk" ]};
                 account_states := {[ account := state_of {[ "BTC" := btc ]} 1000 ]};
                 authorized_users := ∅ |};
     trace := []; clock := 0 |}.

End Sample.


(** ** Library functions of the command handler

    [regexp.MatchString], [strings.HasPrefix], [strings.SplitN] and
    [strconv.FormatInt], as far as [main.go] uses them (lines 204-281
    and 759-762). *)

(** The fragment of Go's regular expressions that the program uses:
    literal bytes, classes of byte ranges, concatenation, counted
    repetition, and the anchors [^] and [$], which without the flag [m]
    match at the two ends of the text only.  Go matches runes; the
    literals and classes here are ASCII, which no byte of a longer
    UTF-8 sequence matches, so matching byte by byte gives the same
    answers. *)
Module Regexp.

Inductive t :=
| BeginText
| EndText
| Lit (c : ascii)
| Class (bounds : list (ascii * ascii))
| Cat (r1 r2 : t)
| Repeat (n : nat) (r : t).

Definition in_class (bounds : list (ascii * ascii)) (c : ascii) : bool :=
  existsb (λ b : ascii * ascii,
             (Ascii.nat_of_ascii b.1 <=? Ascii.nat_of_ascii c)%nat
             && (Ascii.nat_of_ascii c <=? Ascii.nat_of_ascii b.2)%nat)
    bounds.

(** The matches of [r] that start at offset [pos], where [rest] is the
    text from there on: the offset and the text after each match. *)
Fixpoint run (r : t) (pos : nat) (rest : string) : list (nat * string) :=
  match r with
  | BeginText => if decide (pos = 0) then [(pos, rest)] else []
  | EndText => if decide (rest = "") then [(pos, rest)] else []
  | Lit c =>
      match rest with
      | String c' rest' => if decide (c' = c) then [(S pos, rest')] else []
      | EmptyString => []
      end
  | Class bounds =>
      match rest with
      | String c' rest' => if in_class bounds c' then [(S pos, rest')] else []
      | EmptyString => []
      end
  | Cat r1 r2 => run r1 pos rest ≫= (λ after, run r2 after.1 after.2)
  | Repeat n r =>
      Nat.iter n (λ ends, ends ≫= (λ after, run r after.1 after.2)) [(pos, rest)]
  end.

(** A match may start at any offset of the text. *)
Fixpoint search (r : t) (pos : nat) (rest : string) : bool :=
  match run r pos rest with
  | _ :: _ => true
  | [] =>
      match rest with
      | String _ rest' => search r (S pos) rest'
      | EmptyString => false
      end
  end.

Definition MatchString (r : t) (s : string) : bool := search r 0 s.

End Regexp.

(** [isValidHexadecimal] (lines 759-762): the expression
    [^0x[0-9a-fA-F]{40}$]. *)
Definition isValidHexadecimal (input : string) : bool :=
  let re :=
    Regexp.Cat Regexp.BeginText
      (Regexp.Cat (Regexp.Lit "0")
         (Regexp.Cat (Regexp.Lit "x")
            (Regexp.Cat
               (Regexp.Repeat 40
                  (Regexp.Class [("0", "9"); ("a", "f"); ("A", "F")]%char))
               Regexp.EndText))) in
  Regexp.MatchString re input.

(** [strings.HasPrefix(s, prefix)]. *)
Definition HasPrefix (s prefix : string) : bool := String.prefix prefix s.

(** [strings.Index(s, sep)]: the offset of the first [sep] in [s]. *)
Fixpoint Index (s sep : string) : option nat :=
  if String.prefix sep s then Some 0
  else
    match s with
    | String _ s' => S <$> Index s' sep
    | EmptyString => None
    end.

(** [strings.SplitN(s, sep, n)] for a non-empty [sep] and [n ≥ 0]: at
    most [n] pieces, the last one being the unsplit remainder. *)
Fixpoint SplitN (s sep : string) (n : nat) : list string :=
  match n with
  | 0 => []
  | 1 => [s]
  | S n' =>
      match Index s sep with
      | None => [s]
      | Some m =>
          substring 0 m s
            :: SplitN (substring (m + String.length sep)
                         (String.length s - (m + String.length sep)) s) sep n'
      end
  end.

(** [strconv.FormatInt(i, 10)]. *)
Definition FormatInt (i : Z) : string := NilZero.string_of_int (Z.to_int i).

(** ** The vocabulary of the statements on addresses and numbers *)

Definition is_hex_digit (c : ascii) : bool :=
  let n := Ascii.nat_of_ascii c in
  ((48 <=? n)%nat && (n <=? 57)%nat)
  || ((97 <=? n)%nat && (n <=? 102)%nat)
  || ((65 <=? n)%nat && (n <=? 70)%nat).

Fixpoint hex_digits (s : string) : bool :=
  match s with
  | String c s' => is_hex_digit c && hex_digits s'
  | EmptyString => true
  end.


(** [n] bytes of the class, from the front. *)
Fixpoint eat (bounds : list (ascii * ascii)) (n : nat) (s : string) : option string :=
  match n with
  | 0 => Some s
  | S n' =>
      match s with
      | String c s' => if Regexp.in_class bounds c then eat bounds n' s' else None
      | EmptyString => None
      end
  end.


(** A binary64 value that is a zero or a NaN. *)
Definition zero_or_nan (x : float) : Prop :=
  match Prim2SF x with
  | S754_zero _ | S754_nan => True
  | _ => False
  end.


(** ** What a computation keeps *)

(** The panics recorded in a stretch of trace. *)
Definition panics (evs : list IOEvent) : list string :=
  omap (λ ev, match ev with IoPanic why => Some why | _ => None end) evs.

(** A computation keeps the relation [R] when every world it starts
    from is related to the world it ends in. *)
Definition keeps (R : relation World) {A} (c : IO A) : Prop := ∀ w, R w (c w).2.

(** The trace was extended by events that satisfy [P]. *)
Definition only_events (P : IOEvent → Prop) (w w' : World) : Prop :=
  ∃ evs, trace w' = trace w ++ evs ∧ Forall P evs.

Definition no_panic (ev : IOEvent) : Prop :=
  match ev with IoPanic _ => False | _ => True end.

(** The answer recorded with a fetch is an answer of the exchange for
    the address fetched. *)
Definition answered (E : Env) (ev : IOEvent) : Prop :=
  match ev with
  | IoFetch address answer => ∃ n, answer = http_post E n address
  | _ => True
  end.

Definition same_registry (w w' : World) : Prop := wallets w' = wallets w.

(** No address lost its state. *)
Definition states_stay (w w' : World) : Prop :=
  ∀ address, is_Some (accountStates w !! address) → is_Some (accountStates w' !! address).


(** ** The command handler of the multi-tenant program

    [handleTelegramUpdates] and the functions it calls ([main.go], lines
    204-281, 380-415 and 512-528).  Besides the globals of the [World]
    the handler uses [authorizedUsers] and [config]; a [Bot] holds them
    with the world.  The two statements on the table [authorized_users]
    are answered by an oracle of their own, and each is recorded with
    its outcome. *)

Record Config := {
  TelegramToken : string;
  PollingInterval : Z;
  SuperAdminID : string;
}.

Inductive AdminStmt :=
| InsertAuthorizedUser (chat_id : string)
| DeleteAuthorizedUser (chat_id : string).

(** [INSERT OR IGNORE] and [DELETE ... WHERE]. *)
Definition exec_admin (q : AdminStmt) (s : Store) : Store :=
  match q with
  | InsertAuthorizedUser chat_id =>
      {| subscriptions := subscriptions s;
         account_states := account_states s;
         authorized_users := {[ chat_id ]} ∪ authorized_users s |}
  | DeleteAuthorizedUser chat_id =>
      {| subscriptions := subscriptions s;
         account_states := account_states s;
         authorized_users := authorized_users s ∖ {[ chat_id ]} |}
  end.

Record Bot := {
  world : World;
  authorizedUsers : gmap string bool;
  config : Config;
  admin_executed : list (AdminStmt * bool);
}.

Definition BotIO (A : Type) : Type := Bot → A * Bot.

Definition bot_ret {A} (x : A) : BotIO A := λ b, (x, b).

Definition bot_bind {A B} (c : BotIO A) (k : A → BotIO B) : BotIO B :=
  λ b, match c b with (x, b') => k x b' end.

Notation "'let+' x := c 'in' k" := (bot_bind c (λ x, k))
  (at level 10, x pattern, c at level 200, k at level 200).

(** A computation on the world, run in the bot. *)
Definition lift {A} (c : IO A) : BotIO A :=
  λ b, match c (world b) with
       | (x, w) => (x, {| world := w; authorizedUsers := authorizedUsers b;
                          config := config b; admin_executed := admin_executed b |})
       end.

Definition get_bot : BotIO Bot := λ b, (b, b).

Definition set_authorizedUsers (users : gmap string bool) : BotIO unit :=
  λ b, (tt, {| world := world b; authorizedUsers := users;
               config := config b; admin_executed := admin_executed b |}).

Definition record_admin (q : AdminStmt) (ok : bool) : BotIO unit :=
  λ b, (tt, {| world := world b; authorizedUsers := authorizedUsers b;
               config := config b; admin_executed := admin_executed b ++ [(q, ok)] |}).

(** An update of the chat transport; [Update_Message] is [None] for the
    nil pointer. *)
Record Message := {
  Chat_ID : Z;
  Text : string;
}.

Record Update := {
  Update_Message : option Message;
}.

Section Handler.
Context `{GoRuntime} (E : Env) (admin_db : nat → AdminStmt → option string).

(** [db.Exec] on the table [authorized_users]. *)
Definition adminExec (q : AdminStmt) : BotIO (option string) :=
  let+ n := lift tick in
  let err := admin_db n q in
  let+ w := lift get_world in
  let+ _ := if is_nil err then lift (set_store (exec_admin q (store w))) else bot_ret tt in
  let+ _ := record_admin q (is_nil err) in
  bot_ret err.

(** [authorizeUser] (lines 380-391). *)
Definition authorizeUser (chatID : string) : BotIO unit :=
  let+ b := get_bot in
  let+ _ := set_authorizedUsers (<[chatID := true]> (authorizedUsers b)) in
  let+ err := adminExec (InsertAuthorizedUser chatID) in
  let+ _ := lift (log_if err "保存授权用户到数据库失败: ") in
  let+ _ := lift (sendMessage E chatID "您已被超级管理员授权可以使用订阅功能！") in
  let+ _ := lift (sendMessage E (SuperAdminID (config b)) ("已授权用户: " +:+ chatID)) in
  bot_ret tt.

(** [deauthorizeUser] (lines 393-409). *)
Definition deauthorizeUser (chatID : string) : BotIO unit :=
  let+ b := get_bot in
  if decide (chatID = SuperAdminID (config b)) then
    let+ _ := lift (sendMessage E chatID "不能取消超级管理员的授权！") in
    bot_ret tt
  else
    let+ _ := set_authorizedUsers (delete chatID (authorizedUsers b)) in
    let+ err := adminExec (DeleteAuthorizedUser chatID) in
    let+ _ := lift (log_if err "从数据库删除授权用户失败: ") in
    let+ _ := lift (sendMessage E chatID "您的授权已被超级管理员取消！") in
    let+ _ := lift (sendMessage E (SuperAdminID (config b)) ("已取消用户授权: " +:+ chatID)) in
    bot_ret tt.

(** [isAuthorized] (lines 411-415): a missing key reads as [false]. *)
Definition isAuthorized (chatID : string) : BotIO bool :=
  let+ b := get_bot in
  bot_ret (default false (authorizedUsers b !! chatID)).

(** Body of the loop of [listSubscriptions] (lines 518-523); the loop
    carries [message] and [count]. *)
Definition list_entry (chatID : string) (acc : string * Z)
    (entry : string * WalletConfig) : string * Z :=
  let '(message, count) := acc in
  let '(key, wallet) := entry in
  if HasPrefix key (chatID +:+ "_") then
    let count := (count + 1)%Z in
    (message +:+ Sprintf_d count +:+ ". " +:+ Address wallet +:+ " - " +:+ Name wallet +:+ nl,
     count)
  else (message, count).

(** [listSubscriptions] (lines 512-528). *)
Definition listSubscriptions (chatID : string) : IO unit :=
  let* w := get_world in
  let* order := range_over E (wallets w) in
  let message := "📋 您的订阅列表:" +:+ nl +:+ nl in
  let count := 0%Z in
  let '(message, count) := foldl (list_entry chatID) (message, count) order in
  let message := if (count =? 0)%Z then "您尚未订阅任何地址。" else message in
  let* _ := sendMessage E chatID message in
  ret tt.

Definition help_message : string :=
  "欢迎使用 Position Monitor 监控机器人!" +:+ nl +:+ nl
    +:+ "命令:" +:+ nl
    +:+ "/myid - 获取您的Chat ID" +:+ nl
    +:+ "/subscribe <地址> [名称] - 订阅一个地址（需要授权）" +:+ nl
    +:+ "/unsubscribe <地址> - 取消订阅" +:+ nl
    +:+ "/list - 查看已订阅地址" +:+ nl +:+ nl
    +:+ "超级管理员命令:" +:+ nl
    +:+ "/authorize <chat_id> - 授权用户" +:+ nl
    +:+ "/deauthorize <chat_id> - 取消授权".

(** [sendMessage] whose result the handler drops. *)
Definition reply (chatID message : string) : BotIO (option Goroutine) :=
  let+ _ := lift (sendMessage E chatID message) in
  bot_ret None.

(** The body of the loop of [handleTelegramUpdates] (lines 210-280), for
    one update of the channel.  The cases of the [switch] are tried in
    order; the goroutine that [subscribeWallet] starts, if any, is
    returned.  The pieces [parts[1]] and [parts[2]] are read after the
    tests on [len(parts)], so the indices are in range. *)
Definition handle_update (update : Update) : BotIO (option Goroutine) :=
  match Update_Message update with
  | None => bot_ret None
  | Some message =>
      let chatID := FormatInt (Chat_ID message) in
      let msgText := Text message in
      let+ b := get_bot in
      if bool_decide (msgText = "/myid") then
        reply chatID ("您的Chat ID是: " +:+ chatID)
      else if HasPrefix msgText "/authorize"
              && bool_decide (chatID = SuperAdminID (config b)) then
        let parts := SplitN msgText " " 2 in
        if (length parts <? 2)%nat then reply chatID "用法: /authorize <chat_id>"
        else
          let targetChatID := nth 1 parts "" in
          let+ _ := authorizeUser targetChatID in
          bot_ret None
      else if HasPrefix msgText "/deauthorize"
              && bool_decide (chatID = SuperAdminID (config b)) then
        let parts := SplitN msgText " " 2 in
        if (length parts <? 2)%nat then reply chatID "用法: /deauthorize <chat_id>"
        else
          let targetChatID := nth 1 parts "" in
          let+ _ := deauthorizeUser targetChatID in
          bot_ret None
      else if HasPrefix msgText "/subscribe" then
        let+ authorized := isAuthorized chatID in
        if negb authorized then
          reply chatID "您没有权限订阅。请联系超级管理员 @imliyi 授权。"
        else
          let parts := SplitN msgText " " 3 in
          if (length parts <? 2)%nat then reply chatID "用法: /subscribe <地址> [名称]"
          else
            let address := nth 1 parts "" in
            if negb (isValidHexadecimal address) then reply chatID "无效的地址格式。"
            else
              let name := if (length parts =? 3)%nat then nth 2 parts "" else "未命名账户" in
              lift (subscribeWallet E chatID address name)
      else if bool_decide (msgText = "/list") then
        let+ _ := lift (listSubscriptions chatID) in
        bot_ret None
      else if HasPrefix msgText "/unsubscribe" then
        let parts := SplitN msgText " " 2 in
        if (length parts <? 2)%nat then reply chatID "用法: /unsubscribe <地址>"
        else if negb (isValidHexadecimal (nth 1 parts "")) then reply chatID "无效的地址格式。"
        else
          let+ _ := lift (unsubscribeWallet E chatID (nth 1 parts "")) in
          bot_ret None
      else if bool_decide (msgText = "/start") || bool_decide (msgText = "/help") then
        reply chatID help_message
      else bot_ret None
  end.

(** The running program: the handler takes the updates of the channel
    one by one, the goroutines it started run when the scheduler picks
    them, and [main] runs a poll cycle after every sleep (lines
    136-141).  Each of these is one step; the pool holds the goroutines
    that have not run yet. *)
Inductive step : Bot * list Goroutine → Bot * list Goroutine → Prop :=
| step_update (update : Update) (b : Bot) (pool : list Goroutine) :
    step (b, pool)
      ((handle_update update b).2,
       pool ++ match (handle_update update b).1 with Some g => [g] | None => [] end)
| step_goroutine (g : Goroutine) (b : Bot) (pool1 pool2 : list Goroutine) :
    step (b, pool1 ++ g :: pool2)
      ((lift (subscribeWallet_goroutine E g) b).2, pool1 ++ pool2)
| step_poll (b : Bot) (pool : list Goroutine) :
    step (b, pool) ((lift (monitorAllWallets E) b).2, pool).

End Handler.

(** ** The vocabulary of the statements on the handler *)

(** A chat id as the handler forms it: the decimal text of an integer. *)
Definition decimal (s : string) : Prop := ∃ i : Z, s = FormatInt i.

(** Every subscription of the registry sits under the key of its
    recipient and address, its address has the accepted format and its
    recipient is a chat id. *)
Definition registry_ok (ws : gmap string WalletConfig) : Prop :=
  ∀ key wallet, ws !! key = Some wallet →
    key = wallet_key (ChatID wallet) (Address wallet)
    ∧ isValidHexadecimal (Address wallet) = true
    ∧ decimal (ChatID wallet).

(** Every subscribed address has a state. *)
Definition states_ok (w : World) : Prop :=
  ∀ key wallet, wallets w !! key = Some wallet →
    is_Some (accountStates w !! Address wallet).

(** The lines of a subscription list, numbered from [count + 1]. *)
Fixpoint subscription_lines `{GoRuntime} (count : Z) (mine : list WalletConfig)
    : list string :=
  match mine with
  | [] => []
  | wallet :: rest =>
      (Sprintf_d (count + 1) +:+ ". " +:+ Address wallet +:+ " - " +:+ Name wallet +:+ nl)
        :: subscription_lines (count + 1) rest
  end.


(** ** The running single-tenant program

    [main], [initialStatus], [monitorAddress], [sendTelegramMessage]
    and [generateInitialStatusMessage] of the second source file (lines
    98-262 and 468-491).  The program has one global, [accountStates];
    it runs on a [World] of which it uses the account states, the trace
    and the clock.  [fetchPositions] is declared there with the same
    text as in [main.go]; the definition above is used for it. *)
Module SingleProgram.

Record Config := {
  TelegramToken : string;
  ChatID : string;
  PollingInterval : Z;
  Addresses : list SingleTenant.WalletConfig;
}.

(** The answer of [http.PostForm] to a message for a chat: an error, or
    the status code and the body of the response. *)
Definition Transport : Type := nat → string → string → string → string + Z * string.

Section Program.
Context `{GoRuntime} (E : Env) (post_form : Transport).

(** [sendTelegramMessage] (lines 468-491): a response whose status is
    not 200 is an error that quotes its body. *)
Definition sendTelegramMessage (token chatID message : string) : IO (option string) :=
  let* n := tick in
  let err :=
    match post_form n token chatID message with
    | inl err => Some err
    | inr (status, body) =>
        if (status =? 200)%Z then None else Some ("telegram API错误: " +:+ body)
    end in
  let* _ := record (IoSend chatID message (is_nil err)) in
  ret err.

(** Body of the loop of [generateInitialStatusMessage] (lines 218-254). *)
Definition initial_position (message : string) (entry : string * Position) : string :=
  let position := entry.2 in
  let szi := parse (Szi position) in
  let entryPx := parse (EntryPx position) in
  let posValue := parse (PositionValue position) in
  let unrealizedPnl := parse (UnrealizedPnl position) in
  let roi := parse (ReturnOnEquity position) in
  let liquidationPx := parse (LiquidationPx position) in
  let marginUsed := parse (MarginUsed position) in
  let direction := if (szi <? 0)%float then "空头" else "多头" in
  let szi := if (szi <? 0)%float then (- szi)%float else szi in
  let message := message +:+ "🪙 " +:+ Coin position +:+ " (" +:+ direction +:+ ")" +:+ nl in
  let message := message +:+ "📈 仓位大小: " +:+ Sprintf_f 5 szi
                   +:+ " ($" +:+ Sprintf_f 2 posValue +:+ ")" +:+ nl in
  let message := message +:+ "🏷️ 入场价格: $" +:+ Sprintf_f 2 entryPx +:+ nl in
  let message := message +:+ "📊 杠杆: " +:+ Sprintf_d (Leverage_Value position)
                   +:+ "x (" +:+ Leverage_Type position +:+ ")" +:+ nl in
  let pnlEmoji := if (0 <=? unrealizedPnl)%float then "🟢" else "🔴" in
  let message := message +:+ pnlEmoji +:+ " 盈亏: $" +:+ Sprintf_f 2 unrealizedPnl
                   +:+ " (" +:+ Sprintf_f 2 (roi * 100)%float +:+ "%)" +:+ nl in
  let message := message +:+ "⚠️ 强平价格: $" +:+ Sprintf_f 2 liquidationPx +:+ nl in
  let message := message +:+ "💸 已用保证金: $" +:+ Sprintf_f 2 marginUsed +:+ nl in
  let fundingAllTime := parse (CumFunding_AllTime position) in
  let fundingSinceOpen := parse (CumFunding_SinceOpen position) in
  message +:+ "💰 资金费用: $" +:+ Sprintf_f 2 fundingAllTime
    +:+ " (开仓后: $" +:+ Sprintf_f 2 fundingSinceOpen +:+ ")" +:+ nl +:+ nl.

(** [generateInitialStatusMessage] (lines 202-262), with the time stamp
    and the order of its [range] loop as arguments. *)
Definition generateInitialStatusMessage (wallet : SingleTenant.WalletConfig)
    (positions : gmap string Position) (accountValue : float)
    (timeStamp : string) (rangePositions : list (string * Position)) : string :=
  let message := "🔄 HyperLiquid初始持仓状态 - " +:+ SingleTenant.Name wallet
                   +:+ " (" +:+ timeStamp +:+ ")" +:+ nl +:+ nl in
  let withdrawable := 0%float in
  let message := message +:+ "💼 账户地址: "
                   +:+ shortenAddress (SingleTenant.Address wallet) +:+ nl in
  let message := message +:+ "💰 账户价值: $" +:+ Sprintf_f 2 accountValue +:+ nl in
  let message := message +:+ "💵 可提取金额: $" +:+ Sprintf_f 2 withdrawable +:+ nl +:+ nl in
  let message :=
    if bool_decide (0 < size positions) then
      let message := message +:+ "📊 当前持仓:" +:+ nl +:+ nl in
      foldl initial_position message rangePositions
    else message +:+ "没有找到开放的持仓。" in
  message +:+ nl +:+ "🔔 持仓监控已启动，将在仓位变化时发送通知。".

Definition call_generateInitialStatusMessage (wallet : SingleTenant.WalletConfig)
    (positions : gmap string Position) (accountValue : float) : IO string :=
  let* timeStamp := timeNow E in
  let* rangePositions := range_over E positions in
  ret (generateInitialStatusMessage wallet positions accountValue timeStamp rangePositions).

(** A call of [detectPositionChanges]: the time stamp and the orders of
    the loops are drawn from the environment (the order of the summary
    loop also when that loop does not run). *)
Definition call_detectPositionChanges (wallet : SingleTenant.WalletConfig)
    (currentPositions : gmap string Position) (currentAccountValue : float)
    (state : AccountState) : IO string :=
  let* timeStamp := timeNow E in
  let* rangeCurrent := range_over E currentPositions in
  let* rangeLast := range_over E (LastPositions state) in
  let* rangeSummary := range_over E currentPositions in
  ret (SingleTenant.detectPositionChanges wallet currentPositions currentAccountValue
         state timeStamp rangeCurrent rangeLast rangeSummary).

(** The text [账户 name (address) ] that starts every line of the log. *)
Definition account_label (wallet : SingleTenant.WalletConfig) : string :=
  "账户 " +:+ SingleTenant.Name wallet +:+ " (" +:+ SingleTenant.Address wallet +:+ ") ".

(** [initialStatus] (lines 152-172).  The assignments through
    [accountStates[wallet.Address]] dereference a nil pointer when the
    address has no state; the Go program panics there. *)
Definition initialStatus (wallet : SingleTenant.WalletConfig)
    (telegramToken chatID : string) : IO unit :=
  let address := SingleTenant.Address wallet in
  let* fetched := fetchPositions E address in
  match fetched with
  | inl err => logPrintf (account_label wallet +:+ "首次获取持仓信息失败: " +:+ err)
  | inr (currentPositions, currentAccountValue) =>
      let* initialMessage :=
        call_generateInitialStatusMessage wallet currentPositions currentAccountValue in
      let* err := sendTelegramMessage telegramToken chatID initialMessage in
      let* _ :=
        match err with
        | Some e => logPrintf (account_label wallet +:+ "发送初始状态消息失败: " +:+ e)
        | None => logPrintf (account_label wallet +:+ "初始持仓状态已发送")
        end in
      let* w := get_world in
      match accountStates w !! address with
      | None => record (IoPanic "nil pointer dereference")
      | Some _ =>
          set_accountStates
            (<[address := {| LastPositions := currentPositions;
                             LastAccountValue := currentAccountValue |}]> (accountStates w))
      end
  end.

(** [monitorAddress] (lines 175-199); [detectPositionChanges] reads
    through the state, so a nil state panics there. *)
Definition monitorAddress (wallet : SingleTenant.WalletConfig)
    (telegramToken chatID : string) : IO unit :=
  let address := SingleTenant.Address wallet in
  let* fetched := fetchPositions E address in
  match fetched with
  | inl err => logPrintf (account_label wallet +:+ "获取持仓信息失败: " +:+ err)
  | inr (currentPositions, currentAccountValue) =>
      let* w := get_world in
      match accountStates w !! address with
      | None => record (IoPanic "nil pointer dereference")
      | Some state =>
          let* changes :=
            call_detectPositionChanges wallet currentPositions currentAccountValue state in
          if decide (changes = "") then ret tt
          else
            let* _ := logPrintf (account_label wallet +:+ "检测到持仓变化，发送通知") in
            let* err := sendTelegramMessage telegramToken chatID changes in
            match err with
            | Some e => logPrintf (account_label wallet +:+ "发送Telegram消息时出错: " +:+ e)
            | None =>
                let* _ := logPrintf (account_label wallet +:+ "持仓变化通知已发送") in
                let* w := get_world in
                set_accountStates
                  (<[address := {| LastPositions := currentPositions;
                                   LastAccountValue := currentAccountValue |}]>
                     (accountStates w))
            end
      end
  end.

(** [main] up to its endless loop (lines 105-119): the states of the
    configured addresses are created, then the initial status of each
    is sent. *)
Definition main_start (config : Config) : IO unit :=
  let* _ := set_accountStates
              (foldl (λ states wallet, <[SingleTenant.Address wallet := zero_state]> states)
                 ∅ (Addresses config)) in
  let* _ := logPrintf ("开始HyperLiquid多账户持仓监控，间隔: "
                       +:+ Sprintf_d (PollingInterval config)
                       +:+ "秒，监控账户数: "
                       +:+ Sprintf_d (Z.of_nat (length (Addresses config)))) in
  for_each (Addresses config)
    (λ wallet, initialStatus wallet (TelegramToken config) (ChatID config)).

(** One round of the endless loop of [main] (lines 125-127), after the
    sleep. *)
Definition main_cycle (config : Config) : IO unit :=
  for_each (Addresses config)
    (λ wallet, monitorAddress wallet (TelegramToken config) (ChatID config)).

(** [main] after its start and [n] rounds of its loop. *)
Fixpoint main_rounds (config : Config) (n : nat) : IO unit :=
  match n with
  | 0 => main_start config
  | S n' => let* _ := main_rounds config n' in main_cycle config
  end.

End Program.

(** [message] is a text that [detectPositionChanges] can build for
    [wallet] from the snapshot and the state. *)
Definition detect_text_of `{GoRuntime} (wallet : SingleTenant.WalletConfig)
    (snapshot : gmap string Position * float) (state : AccountState)
    (message : string) : Prop :=
  ∃ timeStamp rangeCurrent rangeLast rangeSummary,
    ranges snapshot.1 rangeCurrent ∧ ranges (LastPositions state) rangeLast
    ∧ ranges snapshot.1 rangeSummary
    ∧ message = SingleTenant.detectPositionChanges wallet snapshot.1 snapshot.2 state
                  timeStamp rangeCurrent rangeLast rangeSummary.

End SingleProgram.

(** Every configured address has a state. *)
Definition covered (config : SingleProgram.Config) (w : World) : Prop :=
  ∀ wallet, wallet ∈ SingleProgram.Addresses config →
    is_Some (accountStates w !! SingleTenant.Address wallet).

(** Starting from a world where every configured address has a state,
    the computation keeps it so and does not panic. *)
Definition runs_safely (config : SingleProgram.Config) (w w' : World) : Prop :=
  covered config w → covered config w' ∧ only_events no_panic w w'.


(** ** Sample data for the closed instances of the further properties *)
Module Scenario.
Import Sample.

(** A store that executes every statement on the authorizations. *)
Definition admin_store : nat → AdminStmt → option string := λ _ _, None.

Definition settings : Config :=
  {| TelegramToken := "token"; PollingInterval := 30; SuperAdminID := "1000" |}.

(** A bot on the world [w] in which the super admin and Alice are
    authorized. *)
Definition bot_of (w : World) : Bot :=
  {| world := w; authorizedUsers := {[ "1000" := true; "1001" := true ]};
     config := settings; admin_executed := [] |}.

Definition update_of (chat : Z) (text : string) : Update :=
  {| Update_Message := Some {| Chat_ID := chat; Text := text |} |}.

Definition other_account : string := "0x8899aabbccddeeff00112233445566778899aabb".

Definition nobody : World :=
  {| wallets := ∅; accountStates := ∅; store := empty_store; trace := []; clock := 0 |}.

(** The configuration of the single-tenant program, for one account. *)
Definition single_settings : SingleProgram.Config :=
  {| SingleProgram.TelegramToken := "token"; SingleProgram.ChatID := "1001";
     SingleProgram.PollingInterval := 30; SingleProgram.Addresses := [solo] |}.

(** A transport that accepts every message, and one that answers every
    message with the status 403. *)
Definition accepts : SingleProgram.Transport := λ _ _ _ _, inr (200%Z, "ok").
Definition refuses : SingleProgram.Transport := λ _ _ _ _, inr (403%Z, "forbidden").

End Scenario.

(** * Facts *)

(** Sample values of the model. *)
Example ParseFloat_decimal :
  Go.ParseFloat "0.5" = (0.5%float, None)
  ∧ Go.ParseFloat "-3" = ((-3)%float, None)
  ∧ Go.ParseFloat "1E2" = (100%float, None)
  ∧ Go.ParseFloat "0.1" = (0x1.999999999999ap-4%float, None)
  ∧ Go.ParseFloat "1e-400" = (0%float, None)
  ∧ Go.ParseFloat "NaN" = (nan, None)
  ∧ Go.ParseFloat "-Infinity" = (neg_infinity, None).
Proof. repeat split; vm_compute; reflexivity. Qed.

Example Sprintf_fixed :
  Go.Sprintf_f 5 0.5 = "0.50000"
  ∧ Go.Sprintf_f 2 0.125 = "0.12"
  ∧ Go.Sprintf_f 2 0.375 = "0.38"
  ∧ Go.Sprintf_f 2 (-1234.5) = "-1234.50"
  ∧ Go.Sprintf_f 2 infinity = "+Inf"
  ∧ Go.Sprintf_f 2 nan = "NaN"
  ∧ Go.Sprintf_d (-12) = "-12".
Proof. repeat split; vm_compute; reflexivity. Qed.

(** ** Strings *)

Lemma app_assoc_s (a b c : string) : (a +:+ b) +:+ c = a +:+ b +:+ c.
Proof. induction a as [|x a IH]; [done|]. exact (f_equal (String x) IH). Qed.

Lemma app_nil_r_s (a : string) : a +:+ "" = a.
Proof. induction a as [|x a IH]; [done|]. exact (f_equal (String x) IH). Qed.

Lemma app_eq_nil_s (a b : string) : a +:+ b = "" → a = "".
Proof. by destruct a. Qed.

Lemma concat_s_app (l1 l2 : list string) :
  concat_s (l1 ++ l2) = concat_s l1 +:+ concat_s l2.
Proof.
  induction l1 as [|b l1 IH]; [done|].
  change (b +:+ concat_s (l1 ++ l2) = (b +:+ concat_s l1) +:+ concat_s l2).
  by rewrite IH, app_assoc_s.
Qed.

(** ** Reports are built block by block *)

Section Emit.
Variable header : string.
Hypothesis header_nonempty : header ≠ "".

Lemma begin_report_nonempty changes : begin_report header changes ≠ "".
Proof. unfold begin_report. by case_decide. Qed.

Lemma begin_report_begun changes rest :
  begin_report header (begin_report header changes +:+ rest)
  = begin_report header changes +:+ rest.
Proof.
  unfold begin_report at 1. case_decide as E; [|done].
  apply app_eq_nil_s in E. by apply begin_report_nonempty in E.
Qed.

Lemma emit_emit changes (b1 b2 : list string) :
  emit header (emit header changes b1) b2 = emit header changes (b1 ++ b2).
Proof.
  destruct b1 as [|x b1]; [done|].
  destruct b2 as [|y b2]; [by rewrite app_nil_r|].
  change (emit header changes ((x :: b1) ++ y :: b2))
    with (begin_report header changes +:+ concat_s ((x :: b1) ++ y :: b2)).
  unfold emit. by rewrite begin_report_begun, app_assoc_s, concat_s_app.
Qed.

Lemma foldl_emit {A} (step : string → A → string) (blocks : A → list string) :
  (∀ changes x, step changes x = emit header changes (blocks x)) →
  ∀ l changes, foldl step changes l = emit header changes (l ≫= blocks).
Proof.
  intros Hstep l. induction l as [|x l IH]; intros changes; [done|].
  cbn [foldl]. by rewrite IH, Hstep, emit_emit.
Qed.

End Emit.

Lemma bind_fmap_list {A B C} (f : A → list B) (g : B → C) (l : list A) :
  l ≫= (λ x, g <$> f x) = g <$> (l ≫= f).
Proof.
  induction l as [|x l IH]; [done|].
  cbn [mbind list_bind]. by rewrite fmap_app, <- IH.
Qed.

Section EngineFacts.
Context `{GoRuntime}.

Lemma changes_header_nonempty name address timeStamp :
  changes_header name address timeStamp ≠ "".
Proof.
  unfold changes_header. intros E.
  apply app_eq_nil_s in E. by apply app_eq_nil_s in E.
Qed.

Lemma addPositionDetails_app (a b : string) (position : Position) :
  addPositionDetails (a +:+ b) position = a +:+ addPositionDetails b position.
Proof. unfold addPositionDetails. by rewrite !app_assoc_s. Qed.

Lemma detect_current_emit header lastPositions changes entry :
  detect_current header lastPositions changes entry
  = emit header changes (render_event <$> diff_current lastPositions entry).
Proof.
  destruct entry as [coin current]. unfold detect_current, diff_current.
  destruct (lastPositions !! coin) as [last|].
  - destruct (1 <=? _)%float; [|done].
    cbn [fmap list_fmap emit concat_s foldr render_event].
    destruct (_ <? _)%float; by rewrite !app_assoc_s, app_nil_r_s.
  - cbn [fmap list_fmap emit concat_s foldr render_event].
    by rewrite addPositionDetails_app, app_nil_r_s.
Qed.

Lemma detect_closed_emit header currentPositions changes entry :
  detect_closed header currentPositions changes entry
  = emit header changes (render_event <$> diff_closed currentPositions entry).
Proof.
  destruct entry as [coin last]. unfold detect_closed, diff_closed.
  destruct (currentPositions !! coin); [done|].
  cbn [fmap list_fmap emit concat_s foldr render_event].
  by rewrite app_nil_r_s.
Qed.

(** The text built by [detectPositionChanges] is the rendering of the
    events of the two loops. *)
Lemma detectPositionChanges_render wallet currentPositions currentAccountValue state
    timeStamp rangeCurrent rangeLast :
  detectPositionChanges wallet currentPositions currentAccountValue state timeStamp
    rangeCurrent rangeLast
  = render_report wallet timeStamp
      (detect_events currentPositions state rangeCurrent rangeLast).
Proof.
  unfold detectPositionChanges, detect_events.
  set (header := changes_header _ _ _).
  assert (Hh : header ≠ "") by apply changes_header_nonempty.
  rewrite (foldl_emit header Hh (detect_closed header currentPositions)
             (λ e, render_event <$> diff_closed currentPositions e))
    by (intros; apply detect_closed_emit).
  rewrite (foldl_emit header Hh (detect_current header (LastPositions state))
             (λ e, render_event <$> diff_current (LastPositions state) e))
    by (intros; apply detect_current_emit).
  rewrite (emit_emit header Hh), !bind_fmap_list, <- fmap_app.
  destruct (_ ++ _) as [|e evs]; [done|].
  unfold emit, render_report, begin_report. cbn [fmap list_fmap].
  by rewrite decide_True.
Qed.

Lemma render_report_nil wallet timeStamp events :
  render_report wallet timeStamp events = "" ↔ events = [].
Proof.
  destruct events as [|e events]; [done|]. split; [|done].
  unfold render_report. intros E. apply app_eq_nil_s in E.
  by apply changes_header_nonempty in E.
Qed.

End EngineFacts.
(** ** Binary64 facts *)

Lemma Prim2SF_eq (x y : float) : Prim2SF x = Prim2SF y → x = y.
Proof.
  intros E. rewrite <- (SF2Prim_Prim2SF x), <- (SF2Prim_Prim2SF y). by rewrite E.
Qed.

Lemma SFabs_binary_round_aux sg m e l :
  SFabs (binary_round_aux prec emax sg m e l) = binary_round_aux prec emax false m e l.
Proof.
  unfold binary_round_aux.
  destruct (shr_fexp prec emax m e l) as [mrs' e'].
  destruct (shr_fexp prec emax _ e' loc_Exact) as [mrs'' e''].
  destruct (shr_m mrs''); [done| |done].
  by destruct (_ <=? _)%Z.
Qed.

Lemma SFabs_div (x y : spec_float) :
  SFabs (SF64div x y) = SF64div (SFabs x) (SFabs y).
Proof.
  unfold SF64div, SFdiv.
  destruct x as [sx|sx| |sx mx ex], y as [sy|sy| |sy my ey]; try done.
  cbn [SFabs]. destruct (SFdiv_core_binary _ _ _ _ _ _) as [[mz ez] lz].
  cbn [xorb]. apply SFabs_binary_round_aux.
Qed.

(** The magnitude of a quotient is the quotient of the magnitudes, bit
    for bit. *)
Lemma abs_div (x y : float) : PrimFloat.abs (x / y) = (PrimFloat.abs x / PrimFloat.abs y)%float.
Proof.
  apply Prim2SF_eq. by rewrite abs_spec, !div_spec, !abs_spec, SFabs_div.
Qed.

Lemma not_lt_le_nan (p : float) :
  (0 <? p)%float = false → (p <=? 0)%float = false → Prim2SF p = S754_nan.
Proof.
  rewrite ltb_spec, leb_spec.
  change (Prim2SF 0%float) with (S754_zero false).
  destruct (Prim2SF p) as [sg|sg| |sg m e]; try done; by destruct sg.
Qed.

Lemma lt_not_le (p : float) : (0 <? p)%float = true → (p <=? 0)%float = false.
Proof.
  rewrite ltb_spec, leb_spec.
  change (Prim2SF 0%float) with (S754_zero false).
  destruct (Prim2SF p) as [sg|sg| |sg m e]; try done; by destruct sg.
Qed.

Lemma nan_percent_insignificant (c p : float) :
  Prim2SF p = S754_nan → (1 <=? PrimFloat.abs ((c - p) / p * 100))%float = false.
Proof.
  intros Hp. rewrite leb_spec, abs_spec, mul_spec, div_spec, sub_spec, Hp.
  unfold SF64sub, SFsub. by destruct (Prim2SF c).
Qed.

(** ** Range orders and the events of a snapshot pair *)

Lemma ranges_lookup {A} (m : gmap string A) order k v :
  ranges m order → (k, v) ∈ order ↔ m !! k = Some v.
Proof. unfold ranges. intros ->. apply elem_of_map_to_list. Qed.

Lemma ranges_NoDup {A} (m : gmap string A) order : ranges m order → NoDup order.*1.
Proof. unfold ranges. intros ->. apply NoDup_fst_map_to_list. Qed.

Lemma ranges_empty {A} (order : list (string * A)) : ranges ∅ order → order = [].
Proof. unfold ranges. rewrite map_to_list_empty. apply Permutation_nil_r. Qed.

Lemma ranges_length {A} (m : gmap string A) order : ranges m order → length order = size m.
Proof. unfold ranges. intros ->. by rewrite length_map_to_list. Qed.

Lemma ranges_map_to_list {A} (m : gmap string A) : ranges m (map_to_list m).
Proof. unfold ranges. reflexivity. Qed.

Section Keyed.
Context {A : Type} (f : string * A → list Event).
Hypothesis f_coin : ∀ entry e, e ∈ f entry → event_coin e = entry.1.

Lemma filter_coin_own coin v : filter (λ e, event_coin e = coin) (f (coin, v)) = f (coin, v).
Proof.
  assert (Hall : ∀ e, e ∈ f (coin, v) → event_coin e = coin)
    by (intros e He; by apply f_coin in He).
  induction (f (coin, v)) as [|e l IH]; [done|].
  rewrite filter_cons_True by (apply Hall; left).
  f_equal. apply IH. intros e' He'. apply Hall. by right.
Qed.

Lemma filter_coin_other coin entry :
  entry.1 ≠ coin → filter (λ e, event_coin e = coin) (f entry) = [].
Proof.
  intros Hne.
  assert (Hall : ∀ e, e ∈ f entry → event_coin e ≠ coin)
    by (intros e He; by rewrite (f_coin _ _ He)).
  induction (f entry) as [|e l IH]; [done|].
  rewrite filter_cons_False by (apply Hall; left).
  apply IH. intros e' He'. apply Hall. by right.
Qed.

Lemma filter_coin_bind_notin coin (order : list (string * A)) :
  coin ∉ order.*1 → filter (λ e, event_coin e = coin) (order ≫= f) = [].
Proof.
  induction order as [|entry order IH]; [done|].
  rewrite fmap_cons, not_elem_of_cons. intros [Hne Hnot].
  cbn [mbind list_bind]. rewrite filter_app, IH by done.
  by rewrite filter_coin_other.
Qed.

Lemma filter_coin_bind_in coin v (order : list (string * A)) :
  NoDup order.*1 → (coin, v) ∈ order →
  filter (λ e, event_coin e = coin) (order ≫= f) = f (coin, v).
Proof.
  induction order as [|entry order IH]; [by intros _ ?%elem_of_nil|].
  rewrite fmap_cons, NoDup_cons. intros [Hnot Hnd] Hin.
  cbn [mbind list_bind]. rewrite filter_app.
  apply elem_of_cons in Hin as [<-|Hin].
  - rewrite filter_coin_own, filter_coin_bind_notin by done. apply app_nil_r.
  - rewrite filter_coin_other, IH; [done..|].
    intros <-. apply Hnot. apply list_elem_of_fmap. by exists (entry.1, v).
Qed.

End Keyed.

Section EventFacts.
Context `{GoRuntime}.

Lemma diff_current_coin lastPositions entry e :
  e ∈ diff_current lastPositions entry → event_coin e = entry.1.
Proof.
  destruct entry as [coin current]. unfold diff_current.
  destruct (lastPositions !! coin).
  - destruct (1 <=? _)%float; [|by intros ?%elem_of_nil].
    by intros ->%list_elem_of_singleton.
  - by intros ->%list_elem_of_singleton.
Qed.

Lemma diff_closed_coin currentPositions entry e :
  e ∈ diff_closed currentPositions entry → event_coin e = entry.1.
Proof.
  destruct entry as [coin last]. unfold diff_closed.
  destruct (currentPositions !! coin); [by intros ?%elem_of_nil|].
  by intros ->%list_elem_of_singleton.
Qed.

(** The code's Δ% is the specification's. *)
Lemma sziChangePercent_delta (currentSzi lastSzi : float) :
  sziChangePercent currentSzi lastSzi = delta_percent currentSzi lastSzi.
Proof.
  unfold sziChangePercent, delta_percent.
  destruct (lastSzi =? 0)%float; [done|]. cbn [negb]. by rewrite abs_div.
Qed.

(** Two admissible pairs of orders give the same events, up to their
    order. *)
Lemma detect_events_Permutation currentPositions state r1 r2 r1' r2' :
  ranges currentPositions r1 → ranges (LastPositions state) r2 →
  ranges currentPositions r1' → ranges (LastPositions state) r2' →
  detect_events currentPositions state r1 r2
  ≡ₚ detect_events currentPositions state r1' r2'.
Proof.
  unfold ranges, detect_events. intros -> -> -> ->. done.
Qed.

(** Against a state without positions every entry is reported as
    opened, and nothing else is reported. *)
Lemma detect_events_fresh currentPositions state rangeCurrent rangeLast :
  LastPositions state = ∅ →
  ranges (LastPositions state) rangeLast →
  detect_events currentPositions state rangeCurrent rangeLast
  = (λ entry, Opened entry.1 entry.2) <$> rangeCurrent.
Proof.
  intros Hempty Hl. unfold detect_events. rewrite Hempty in Hl |- *.
  rewrite (ranges_empty _ Hl), app_nil_r.
  induction rangeCurrent as [|[coin current] l IH]; [done|].
  cbn [mbind list_bind fmap list_fmap]. rewrite IH.
  unfold diff_current. by rewrite lookup_empty.
Qed.

(** The events that concern one instrument. *)
Lemma detect_events_of_coin currentPositions state rangeCurrent rangeLast coin :
  ranges currentPositions rangeCurrent → ranges (LastPositions state) rangeLast →
  filter (λ e, event_coin e = coin)
    (detect_events currentPositions state rangeCurrent rangeLast)
  = match currentPositions !! coin, LastPositions state !! coin with
    | Some current, _ => diff_current (LastPositions state) (coin, current)
    | None, Some last => [Closed coin last]
    | None, None => []
    end.
Proof.
  intros Hc Hl. unfold detect_events. rewrite filter_app.
  destruct (currentPositions !! coin) as [current|] eqn:Ecur.
  - rewrite (filter_coin_bind_in _ (diff_current_coin _) coin current)
      by (by eapply ranges_NoDup || by apply (ranges_lookup _ _ _ _ Hc)).
    destruct (decide (coin ∈ rangeLast.*1)) as [Hin|Hnot].
    + apply list_elem_of_fmap in Hin as [[coin' last] [-> Hin]].
      rewrite (filter_coin_bind_in _ (diff_closed_coin _) _ last)
        by (by eapply ranges_NoDup || done).
      cbn [fst] in Ecur |- *. unfold diff_closed. rewrite Ecur. apply app_nil_r.
    + rewrite (filter_coin_bind_notin _ (diff_closed_coin _)) by done.
      apply app_nil_r.
  - rewrite (filter_coin_bind_notin _ (diff_current_coin _)).
    2:{ intros [[coin' current] [-> Hin]]%list_elem_of_fmap.
        apply (ranges_lookup _ _ _ _ Hc) in Hin. cbn [fst] in *. congruence. }
    destruct (LastPositions state !! coin) as [last|] eqn:Elast.
    + rewrite (filter_coin_bind_in _ (diff_closed_coin _) _ last)
        by (by eapply ranges_NoDup || by apply (ranges_lookup _ _ _ _ Hl)).
      unfold diff_closed. by rewrite Ecur.
    + rewrite (filter_coin_bind_notin _ (diff_closed_coin _)); [done|].
      intros [[coin' last] [-> Hin]]%list_elem_of_fmap.
      apply (ranges_lookup _ _ _ _ Hl) in Hin. cbn [fst] in *. congruence.
Qed.

End EventFacts.
(** ** The single-tenant report *)

Lemma foldl_append {A} (step : string → A → string) (block : A → string) :
  (∀ changes x, step changes x = changes +:+ block x) →
  ∀ l changes, foldl step changes l = changes +:+ concat_s (block <$> l).
Proof.
  intros Hstep l. induction l as [|x l IH]; intros changes.
  - by rewrite app_nil_r_s.
  - cbn [foldl fmap list_fmap concat_s foldr]. by rewrite IH, Hstep, app_assoc_s.
Qed.

Lemma no_events_true events : no_events events = true ↔ events = [].
Proof. by destruct events. Qed.

Section SingleTenantFacts.
Context `{GoRuntime}.

Lemma single_detect_current_step header lastPositions changes newPositions modifiedPositions entry :
  SingleTenant.detect_current header lastPositions
    (changes, newPositions, modifiedPositions) entry
  = (emit header changes (SingleTenant.render_event <$> diff_current lastPositions entry),
     newPositions || existsb is_opened (diff_current lastPositions entry),
     modifiedPositions || existsb is_resized (diff_current lastPositions entry)).
Proof.
  destruct entry as [coin current]. unfold SingleTenant.detect_current, diff_current.
  destruct (lastPositions !! coin) as [last|].
  - destruct (1 <=? _)%float.
    + cbn [fmap list_fmap emit concat_s foldr SingleTenant.render_event render_event
           existsb is_opened is_resized].
      rewrite !orb_false_r, orb_true_r.
      destruct (_ <? _)%float; by rewrite !app_assoc_s, app_nil_r_s.
    + cbn. by rewrite !orb_false_r.
  - cbn [fmap list_fmap emit concat_s foldr SingleTenant.render_event render_event
         existsb is_opened is_resized].
    by rewrite !orb_false_r, orb_true_r, addPositionDetails_app, app_nil_r_s.
Qed.

Lemma single_detect_closed_step header currentPositions changes removedPositions entry :
  SingleTenant.detect_closed header currentPositions (changes, removedPositions) entry
  = (emit header changes (SingleTenant.render_event <$> diff_closed currentPositions entry),
     removedPositions || existsb is_closed (diff_closed currentPositions entry)).
Proof.
  destruct entry as [coin last]. unfold SingleTenant.detect_closed, diff_closed.
  destruct (currentPositions !! coin).
  - cbn. by rewrite orb_false_r.
  - cbn [fmap list_fmap emit concat_s foldr SingleTenant.render_event existsb is_closed].
    by rewrite orb_true_r, !app_assoc_s, app_nil_r_s.
Qed.

Lemma single_loop_current header (Hh : header ≠ "") lastPositions l :
  ∀ changes newPositions modifiedPositions,
  foldl (SingleTenant.detect_current header lastPositions)
    (changes, newPositions, modifiedPositions) l
  = (emit header changes (SingleTenant.render_event <$> (l ≫= diff_current lastPositions)),
     newPositions || existsb is_opened (l ≫= diff_current lastPositions),
     modifiedPositions || existsb is_resized (l ≫= diff_current lastPositions)).
Proof.
  induction l as [|entry l IH]; intros changes n m.
  - cbn. by rewrite !orb_false_r.
  - cbn [foldl mbind list_bind].
    rewrite single_detect_current_step, IH, (emit_emit header Hh), fmap_app.
    by rewrite !existsb_app, !orb_assoc.
Qed.

Lemma single_loop_closed header (Hh : header ≠ "") currentPositions l :
  ∀ changes removedPositions,
  foldl (SingleTenant.detect_closed header currentPositions) (changes, removedPositions) l
  = (emit header changes (SingleTenant.render_event <$> (l ≫= diff_closed currentPositions)),
     removedPositions || existsb is_closed (l ≫= diff_closed currentPositions)).
Proof.
  induction l as [|entry l IH]; intros changes r.
  - cbn. by rewrite orb_false_r.
  - cbn [foldl mbind list_bind].
    rewrite single_detect_closed_step, IH, (emit_emit header Hh), fmap_app.
    by rewrite existsb_app, orb_assoc.
Qed.

Lemma diff_current_kind lastPositions l e :
  e ∈ l ≫= diff_current lastPositions → is_opened e || is_resized e = true.
Proof.
  intros [[coin current] [He _]]%list_elem_of_bind. revert He. unfold diff_current.
  destruct (lastPositions !! coin).
  - destruct (1 <=? _)%float; [|by intros ?%elem_of_nil].
    by intros ->%list_elem_of_singleton.
  - by intros ->%list_elem_of_singleton.
Qed.

Lemma diff_closed_kind currentPositions l e :
  e ∈ l ≫= diff_closed currentPositions → is_closed e = true.
Proof.
  intros [[coin last] [He _]]%list_elem_of_bind. revert He. unfold diff_closed.
  destruct (currentPositions !! coin); [by intros ?%elem_of_nil|].
  by intros ->%list_elem_of_singleton.
Qed.

(** The three flags of the code are all unset exactly when there is no
    event. *)
Lemma flags_no_events currentPositions state rangeCurrent rangeLast :
  let ev1 := rangeCurrent ≫= diff_current (LastPositions state) in
  let ev2 := rangeLast ≫= diff_closed currentPositions in
  negb (existsb is_opened ev1) && negb (existsb is_resized ev1) && negb (existsb is_closed ev2)
  = no_events (detect_events currentPositions state rangeCurrent rangeLast).
Proof.
  intros ev1 ev2. unfold detect_events. fold ev1 ev2.
  assert (H1 : ∀ e, e ∈ ev1 → is_opened e || is_resized e = true)
    by apply diff_current_kind.
  assert (H2 : ∀ e, e ∈ ev2 → is_closed e = true) by apply diff_closed_kind.
  destruct ev1 as [|e ev1].
  - destruct ev2 as [|e ev2]; [done|].
    cbn. by rewrite (H2 e) by left.
  - specialize (H1 e (list_elem_of_here _ _)). cbn.
    destruct (is_opened e), (is_resized e); cbn in *; try done.
    by rewrite andb_false_r.
Qed.

(** The text built by the single-tenant [detectPositionChanges]: the
    account-value report when the change of equity is significant and no
    event fired, the rendering of the events otherwise. *)
Lemma single_detectPositionChanges_text wallet currentPositions currentAccountValue state
    timeStamp rangeCurrent rangeLast rangeSummary :
  let events := detect_events currentPositions state rangeCurrent rangeLast in
  SingleTenant.detectPositionChanges wallet currentPositions currentAccountValue state
    timeStamp rangeCurrent rangeLast rangeSummary
  = if (1 <=? PrimFloat.abs (SingleTenant.accountValueChangePercent currentAccountValue
                               (LastAccountValue state)))%float
       && no_events events
    then SingleTenant.account_value_report wallet currentPositions currentAccountValue
           state timeStamp rangeSummary
    else SingleTenant.render_report wallet timeStamp events.
Proof.
  intros events. unfold SingleTenant.detectPositionChanges.
  set (header := changes_header _ _ _).
  assert (Hh : header ≠ "") by apply changes_header_nonempty.
  rewrite (single_loop_current header Hh), (single_loop_closed header Hh).
  rewrite (emit_emit header Hh), <- fmap_app. cbn [orb].
  rewrite <- !andb_assoc, (andb_assoc (negb (existsb is_opened _))).
  rewrite (flags_no_events currentPositions state rangeCurrent rangeLast).
  fold (detect_events currentPositions state rangeCurrent rangeLast). fold events.
  destruct (1 <=? _)%float, events as [|e evs]; try done.
  all: unfold emit, SingleTenant.render_report, begin_report; cbn [fmap list_fmap andb no_events].
  all: by rewrite decide_True.
Qed.

(** The code's test on the change of equity is the specification's. *)
Lemma significant_account_change (current previous : float) :
  (1 <=? PrimFloat.abs (SingleTenant.accountValueChangePercent current previous))%float
  = (1 <=? PrimFloat.abs (SingleTenant.delta_account_percent current previous))%float.
Proof.
  unfold SingleTenant.accountValueChangePercent, SingleTenant.delta_account_percent.
  destruct (0 <? previous)%float eqn:Hlt.
  - by rewrite (lt_not_le _ Hlt).
  - destruct (previous <=? 0)%float eqn:Hle; [done|].
    by rewrite (nan_percent_insignificant _ _ (not_lt_le_nan _ Hlt Hle)).
Qed.

Lemma summary_position_append changes entry :
  SingleTenant.summary_position changes entry
  = changes +:+ SingleTenant.summary_position "" entry.
Proof.
  destruct entry as [coin position]. unfold SingleTenant.summary_position.
  by rewrite !app_assoc_s.
Qed.

(** The reports are told apart by the byte that follows
    [🔄 HyperLiquid]. *)
Lemma account_value_report_byte wallet currentPositions currentAccountValue state
    timeStamp rangeSummary :
  String.get 16 (SingleTenant.account_value_report wallet currentPositions
                   currentAccountValue state timeStamp rangeSummary)
  = Some "232"%char.
Proof.
  unfold SingleTenant.account_value_report.
  assert (Hpre : ∀ rest, String.get 16 ("🔄 HyperLiquid账户价值变化 - " +:+ rest) = Some "232"%char)
    by done.
  case_bool_decide.
  - rewrite (foldl_append _ _ summary_position_append), !app_assoc_s. apply Hpre.
  - rewrite !app_assoc_s. apply Hpre.
Qed.

Lemma single_render_report_byte wallet timeStamp events :
  String.get 16 (SingleTenant.render_report wallet timeStamp events) ≠ Some "232"%char.
Proof.
  destruct events as [|e evs]; [done|].
  unfold SingleTenant.render_report, changes_header. rewrite !app_assoc_s.
  assert (Hpre : ∀ rest, String.get 16 ("🔄 HyperLiquid持仓变化 - " +:+ rest) = Some "230"%char)
    by done.
  by rewrite Hpre.
Qed.

End SingleTenantFacts.
(** ** The running program *)

(** Computes the fields of the worlds in the goal. *)
Ltac simpl_world :=
  cbn [is_nil fst snd wallets accountStates store trace clock exec_stmt
       subscriptions account_states authorized_users later Nat.add negb].

(** Unfolds the plumbing of [IO] and computes the worlds. *)
Ltac run_io :=
  unfold saveSubscriptionToDB, deleteSubscriptionFromDB, saveAccountStateToDB,
    dbExec, sendMessage, fetchPositions, call_generateInitialStatusMessage,
    call_detectPositionChanges, range_over, timeNow, log_if, logPrintf,
    bind, get_world, tick, record, set_wallets, set_store, set_accountStates, ret;
  simpl_world.

Lemma Forall2_impl_in {A B} (P Q : A → B → Prop) (l : list A) (k : list B) :
  Forall2 P l k → (∀ x y, x ∈ l → P x y → Q x y) → Forall2 Q l k.
Proof.
  induction 1 as [|x y l k Hxy _ IH]; intros Himp; constructor.
  - apply Himp; [left|done].
  - apply IH. intros x' y' Hin. apply Himp. by right.
Qed.

Lemma sent_app (evs1 evs2 : list IOEvent) : sent (evs1 ++ evs2) = sent evs1 ++ sent evs2.
Proof. apply omap_app. Qed.

Lemma fetched_app (evs1 evs2 : list IOEvent) :
  fetched (evs1 ++ evs2) = fetched evs1 ++ fetched evs2.
Proof. apply omap_app. Qed.

Section ProgramFacts.
Context `{GoRuntime} (E : Env).

Lemma hasSubscribers_run address excludeChatID w :
  fair E →
  ∃ others : bool,
    hasSubscribers E address excludeChatID w = (others, later 1 [] w)
    ∧ (others = true ↔ other_subscriber (wallets w) address excludeChatID).
Proof.
  intros Hfair. eexists. split.
  { unfold hasSubscribers, bind, get_world, range_over, tick, ret, later. cbn.
    by rewrite app_nil_r. }
  specialize (Hfair _ (clock w) (wallets w)).
  rewrite existsb_exists. split.
  - intros [[key wallet] [Hin Hb]]. apply list_elem_of_In in Hin.
    apply (ranges_lookup _ _ _ _ Hfair) in Hin.
    cbn [fst] in Hb. rewrite Hin in Hb. cbn [default from_option] in Hb.
    apply bool_decide_eq_true in Hb. by exists key, wallet.
  - intros (key & wallet & Hlook & Haddr & Hchat).
    exists (key, wallet). split.
    + apply list_elem_of_In. by apply (ranges_lookup _ _ _ _ Hfair).
    + cbn [fst]. rewrite Hlook. cbn [default from_option].
      by apply bool_decide_eq_true.
Qed.

Lemma subscribeWallet_existing chatID address name w :
  is_Some (wallets w !! wallet_key chatID address) →
  let message := "地址 " +:+ shortenAddress address +:+ " 已订阅" in
  subscribeWallet E chatID address name w
  = (None, later 1 [IoSend chatID message (is_nil (bot_send E (clock w) chatID message))] w).
Proof.
  intros [wallet Hw]. unfold subscribeWallet. run_io. by rewrite Hw.
Qed.


Lemma fetchPositions_run address w :
  fetchPositions E address w
  = (match http_post E (clock w) address with
     | inl err => inl err
     | inr responseData => inr (snapshot_of responseData)
     end,
     later 1 [IoFetch address (http_post E (clock w) address)] w).
Proof.
  unfold fetchPositions, bind, tick, record, ret, later. cbn.
  by destruct (http_post E (clock w) address).
Qed.

Lemma subscribeWallet_new chatID address name w :
  wallets w !! wallet_key chatID address = None →
  let wallet := {| Address := address; Name := name; ChatID := chatID |} in
  let r := subscribeWallet E chatID address name w in
  r.1 = Some {| go_chatID := chatID; go_address := address; go_wallet := wallet |}
  ∧ wallets r.2 = <[wallet_key chatID address := wallet]> (wallets w)
  ∧ accountStates r.2
    = match accountStates w !! address with
      | None => <[address := zero_state]> (accountStates w)
      | Some _ => accountStates w
      end
  ∧ account_states (store r.2) = account_states (store w)
  ∧ clock r.2 = 2 + clock w.
Proof.
  intros Hw wallet r. unfold r, subscribeWallet. run_io. rewrite Hw.
  destruct (db_exec E (clock w) _) as [e|]; cbn;
    destruct (accountStates w !! address); cbn; done.
Qed.


(** Runs the call of [hasSubscribers] that the goal is stuck on. *)
Ltac run_hasSubscribers Hfair others Hothers :=
  match goal with
  | |- context [hasSubscribers ?E ?a ?x ?W] =>
      let Hrun := fresh "Hrun" in
      destruct (hasSubscribers_run a x W Hfair) as (others & Hrun & Hothers);
      rewrite Hrun; clear Hrun;
      cbn [fst snd wallets accountStates store trace clock later] in Hothers;
      simpl_world
  end.

Lemma unsubscribeWallet_existing chatID address w wallet :
  fair E →
  wallets w !! wallet_key chatID address = Some wallet →
  let registry := delete (wallet_key chatID address) (wallets w) in
  let w1 := (unsubscribeWallet E chatID address w).2 in
  wallets w1 = registry
  ∧ subscriptions (store w1)
    = (if is_nil (db_exec E (clock w) (DeleteSubscription chatID address))
       then delete (chatID, address) (subscriptions (store w))
       else subscriptions (store w))
  ∧ (¬ other_subscriber registry address "" →
     accountStates w1 = delete address (accountStates w)
     ∧ account_states (store w1)
       = (if is_nil (db_exec E (2 + clock w) (DeleteAccountState address))
          then delete address (account_states (store w))
          else account_states (store w)))
  ∧ (other_subscriber registry address "" →
     accountStates w1 = accountStates w
     ∧ account_states (store w1) = account_states (store w)).
Proof.
  intros Hfair Hw registry w1. unfold w1, unsubscribeWallet. run_io. rewrite Hw.
  destruct (db_exec E (clock w) (DeleteSubscription chatID address)) as [e|];
    simpl_world.
  all: run_hasSubscribers Hfair others Hothers.
  all: destruct others; simpl_world.
  all: try (destruct (db_exec E (S (S (clock w))) (DeleteAccountState address)) as [e'|];
    simpl_world).
  all: split; [done|]; split; [done|]; split; intros Hcase.
  all: try done.
  all: try (exfalso; apply Hcase; by apply Hothers).
  all: apply Hothers in Hcase; done.
Qed.


(** The goroutine of a subscription that is not the only one on its
    address leaves the registry, the states and the store as they are. *)
Lemma goroutine_not_first g w :
  fair E →
  other_subscriber (wallets w) (go_address g) (go_chatID g) →
  size (wallets w) ≠ 1 →
  let w' := (subscribeWallet_goroutine E g w).2 in
  wallets w' = wallets w ∧ accountStates w' = accountStates w ∧ store w' = store w.
Proof.
  intros Hfair Hother Hsize w'. unfold w', subscribeWallet_goroutine. run_io.
  destruct (http_post E (clock w) (go_address g)) as [err|responseData]; simpl_world;
    [done|].
  unfold snapshot_of. simpl_world.
  destruct (bot_send E _ _ _) as [e|]; simpl_world.
  all: rewrite decide_False by done.
  all: run_hasSubscribers Hfair others Hothers.
  all: destruct others; simpl_world; [done|].
  all: apply Hothers in Hother; done.
Qed.



Lemma detect_text_empty wallet snapshot state message :
  detect_text_of wallet snapshot state message →
  message = "" ↔ ¬ changed snapshot state.
Proof.
  intros (ts & r1 & r2 & H1 & H2 & ->). unfold changed.
  rewrite detectPositionChanges_render, render_report_nil.
  pose proof (detect_events_Permutation snapshot.1 state r1 r2 _ _ H1 H2
                (ranges_map_to_list _) (ranges_map_to_list _)) as Hperm.
  split.
  - intros Hnil Hne. rewrite Hnil in Hperm. symmetry in Hperm.
    by apply Permutation_nil_r in Hperm.
  - intros Hno. destruct (detect_events _ _ (map_to_list _) _) eqn:Hev.
    + by apply Permutation_nil_r in Hperm.
    + by destruct Hno.
Qed.

Lemma changed_dec snapshot state : changed snapshot state ∨ ¬ changed snapshot state.
Proof. unfold changed. destruct (detect_events _ _ _ _); [right|left]; naive_solver. Qed.

Lemma talks_trans w1 w2 w3 evs1 evs2 :
  talks w1 w2 evs1 → talks w2 w3 evs2 → talks w1 w3 (evs1 ++ evs2).
Proof.
  intros (Ha & Hb & Hc & Hd) (Ha' & Hb' & Hc' & Hd'). unfold talks.
  rewrite Ha', Hb', Hc', Hd', Hd, app_assoc. done.
Qed.

Lemma notify_subscriber_run address snapshot state wallet w :
  fair E →
  ∃ W evs message,
    notify_subscriber E address snapshot.1 snapshot.2 state wallet w = (tt, W)
    ∧ talks w W evs
    ∧ sent evs = [(ChatID wallet, message)]
    ∧ detect_text_of wallet snapshot state message
    ∧ fetched evs = [] ∧ executed evs = [].
Proof.
  intros Hfair. unfold notify_subscriber. run_io.
  set (message := detectPositionChanges _ _ _ _ _ _ _).
  assert (Htext : detect_text_of wallet snapshot state message).
  { eexists _, _, _. split; [apply Hfair|]. split; [apply Hfair|]. done. }
  destruct (bot_send E _ _ _) as [e|]; simpl_world.
  - eexists _, [IoSend (ChatID wallet) message false; IoLog _], message.
    split; [done|]. unfold talks. simpl_world. by rewrite <- app_assoc.
  - eexists _, [IoSend (ChatID wallet) message true], message.
    split; [done|]. unfold talks. simpl_world. done.
Qed.

Lemma notify_all_run address snapshot state subscribers :
  fair E →
  ∀ w, ∃ W evs,
    for_each subscribers (notify_subscriber E address snapshot.1 snapshot.2 state) w = (tt, W)
    ∧ talks w W evs
    ∧ Forall2 (λ wallet cm, cm.1 = ChatID wallet ∧ detect_text_of wallet snapshot state cm.2)
        subscribers (sent evs)
    ∧ fetched evs = [] ∧ executed evs = [].
Proof.
  intros Hfair. induction subscribers as [|wallet subscribers IH]; intros w.
  - exists w, []. unfold talks. rewrite app_nil_r. repeat split; constructor.
  - cbn [for_each]. unfold bind.
    destruct (notify_subscriber_run address snapshot state wallet w Hfair)
      as (W1 & evs1 & message & -> & Htalk1 & Hsent1 & Htext & Hf1 & Hx1).
    destruct (IH W1) as (W & evs & -> & Htalk & Hall & Hf & Hx).
    exists W, (evs1 ++ evs). split; [done|].
    split; [by eapply talks_trans|].
    unfold sent, fetched, executed in *. rewrite !omap_app, Hsent1, Hf1, Hx1, Hf, Hx.
    repeat split; [|done..]. by constructor.
Qed.


(** One address of a poll cycle. *)
Lemma monitor_address_run address subscribers w :
  fair E →
  subscribers ≠ [] →
  ∃ W rest,
    monitor_address E (address, subscribers) w = (tt, W)
    ∧ wallets W = wallets w
    ∧ trace W = trace w ++ IoFetch address (http_post E (clock w) address) :: rest
    ∧ fetched rest = []
    ∧ match http_post E (clock w) address with
      | inl _ =>
          accountStates W = accountStates w ∧ store W = store w
          ∧ sent rest = [] ∧ executed rest = []
      | inr responseData =>
          let snapshot := snapshot_of responseData in
          let state := default zero_state (accountStates w !! address) in
          let fetched_state := state_of_snapshot snapshot in
          (¬ changed snapshot state →
           accountStates W = <[address := state]> (accountStates w)
           ∧ store W = store w ∧ rest = [])
          ∧ (changed snapshot state →
             accountStates W = <[address := fetched_state]> (accountStates w)
             ∧ ∃ sends answer logs,
                 rest = sends ++ IoExec (InsertAccountState address fetched_state)
                                   (is_nil answer) :: logs
                 ∧ Forall2 (λ wallet cm, cm.1 = ChatID wallet
                                         ∧ detect_text_of wallet snapshot state cm.2)
                     subscribers (sent sends)
                 ∧ executed sends = []
                 ∧ sent logs = [] ∧ executed logs = []
                 ∧ store W = (if is_nil answer
                              then exec_stmt (InsertAccountState address fetched_state) (store w)
                              else store w)
                 ∧ ∃ n, answer = db_exec E n (InsertAccountState address fetched_state))
      end.
Proof.
  intros Hfair Hsubs. unfold monitor_address, bind. rewrite fetchPositions_run.
  destruct (http_post E (clock w) address) as [err|responseData].
  { eexists _, [IoLog _]. split; [done|]. simpl_world. rewrite <- app_assoc. done. }
  set (snapshot := snapshot_of responseData).
  set (state := default zero_state (accountStates w !! address)).
  destruct snapshot as [currentPositions currentAccountValue] eqn:Hsnap.
  destruct subscribers as [|first subscribers]; [done|].
  (* the state the detection runs against *)
  set (w1 := later 1 [IoFetch address (inr responseData)] w).
  assert (Hstate : ∃ w2,
    (match accountStates w1 !! address with
     | Some state => ret state
     | None => λ w, match set_accountStates (<[address:=zero_state]> (accountStates w1)) w with
                    | (_, w') => ret zero_state w'
                    end
     end) w1 = (state, w2)
    ∧ wallets w2 = wallets w ∧ store w2 = store w
    ∧ accountStates w2 = <[address := state]> (accountStates w)
    ∧ trace w2 = trace w ++ [IoFetch address (inr responseData)]).
  { unfold w1, state. simpl_world. destruct (accountStates w !! address) as [st|] eqn:Hst.
    - eexists. split; [done|]. simpl_world. by rewrite insert_id.
    - eexists. split; [done|]. done. }
  destruct Hstate as (w2 & Hrun & Hw2 & Hs2 & Ha2 & Ht2).
  unfold get_world. rewrite Hrun. clear Hrun.
  unfold call_detectPositionChanges. run_io.
  set (message := detectPositionChanges _ _ _ _ _ _ _).
  assert (Htext : detect_text_of first (currentPositions, currentAccountValue) state message).
  { eexists _, _, _. split; [apply Hfair|]. split; [apply Hfair|]. done. }
  pose proof (detect_text_empty _ _ _ _ Htext) as Hempty.
  destruct (decide (message = "")) as [Hnil|Hsome].
  { eexists _, []. split; [done|]. simpl_world.
    rewrite Hw2, Ht2, Ha2, Hs2.
    split; [done|]. split; [done|]. split; [done|]. split; [done|].
    intros Hch. by apply Hempty in Hnil. }
  match goal with
  | |- context [for_each _ _ ?W0] =>
      destruct (notify_all_run address (currentPositions, currentAccountValue) state
                  (first :: subscribers) Hfair W0)
        as (W1 & sends & Hloop & (Hw1 & Ha1 & Hs1 & Ht1) & Hall & Hf1 & Hx1)
  end.
  cbn [fst snd] in Hloop. rewrite Hloop. clear Hloop. cbn [wallets accountStates store trace clock] in Hw1, Ha1, Hs1, Ht1.
  run_io.
  set (fetched_state := {| LastPositions := currentPositions;
                           LastAccountValue := currentAccountValue |}).
  assert (Hrest : ∀ answer logs W,
    wallets W = wallets w →
    accountStates W = <[address := fetched_state]> (accountStates W1) →
    trace W = (trace W1 ++ [IoExec (InsertAccountState address fetched_state) (is_nil answer)])
              ++ logs →
    sent logs = [] → executed logs = [] → fetched logs = [] →
    store W = (if is_nil answer
               then exec_stmt (InsertAccountState address fetched_state) (store w)
               else store w) →
    (∃ n, answer = db_exec E n (InsertAccountState address fetched_state)) →
    wallets W = wallets w
    ∧ trace W = trace w ++ IoFetch address (inr responseData)
                  :: (sends ++ IoExec (InsertAccountState address fetched_state)
                                 (is_nil answer) :: logs)
    ∧ fetched (sends ++ IoExec (InsertAccountState address fetched_state)
                          (is_nil answer) :: logs) = []
    ∧ (¬ changed (currentPositions, currentAccountValue) state →
       accountStates W = <[address := state]> (accountStates w)
       ∧ store W = store w
       ∧ sends ++ IoExec (InsertAccountState address fetched_state) (is_nil answer) :: logs
         = [])
    ∧ (changed (currentPositions, currentAccountValue) state →
       accountStates W = <[address := fetched_state]> (accountStates w)
       ∧ ∃ sends' answer' logs',
           sends ++ IoExec (InsertAccountState address fetched_state) (is_nil answer) :: logs
           = sends' ++ IoExec (InsertAccountState address fetched_state) (is_nil answer')
                         :: logs'
           ∧ Forall2 (λ wallet cm, cm.1 = ChatID wallet
                                   ∧ detect_text_of wallet
                                       (currentPositions, currentAccountValue) state cm.2)
               (first :: subscribers) (sent sends')
           ∧ executed sends' = []
           ∧ sent logs' = [] ∧ executed logs' = []
           ∧ store W = (if is_nil answer'
                        then exec_stmt (InsertAccountState address fetched_state) (store w)
                        else store w)
           ∧ ∃ n, answer' = db_exec E n (InsertAccountState address fetched_state))).
  { intros answer logs W HW HA HT Hsl Hxl Hfl HS Hdb.
    split; [done|]. split.
    { rewrite HT, Ht1, Ht2, <- !app_assoc. done. }
    split.
    { unfold fetched in *. rewrite omap_app, Hf1. cbn. done. }
    split.
    { intros Hno. exfalso. apply Hsome. by apply Hempty. }
    intros _. split.
    { rewrite HA, Ha1, Ha2. apply insert_insert_eq. }
    by exists sends, answer, logs. }
  destruct (db_exec E _ _) as [e|] eqn:Hdb; simpl_world.
  - eexists _, _. split; [done|].
    apply (Hrest (Some e) [IoLog (("保存账户状态失败 " +:+ address +:+ ": ") +:+ e)]);
      simpl_world; rewrite ?Hw1, ?Hw2, ?Hs1, ?Hs2; try done.
    eexists. symmetry. exact Hdb.
  - eexists _, _. split; [done|].
    apply (Hrest None []); simpl_world; rewrite ?Hw1, ?Hw2, ?Hs1, ?Hs2, ?app_nil_r;
      try done.
    eexists. symmetry. exact Hdb.
Qed.


(** [poll_outcome] looks at the worlds only at the address of the
    group. *)
Lemma poll_outcome_ext w1 w1' w2 w2' group segment :
  accountStates w1 !! group.1 = accountStates w2 !! group.1 →
  account_states (store w1) !! group.1 = account_states (store w2) !! group.1 →
  accountStates w1' !! group.1 = accountStates w2' !! group.1 →
  account_states (store w1') !! group.1 = account_states (store w2') !! group.1 →
  poll_outcome E w1 w1' group segment → poll_outcome E w2 w2' group segment.
Proof.
  intros Ha Hs Ha' Hs' (answer & rest & Hseg & Hf & Hpost & Hcases).
  exists answer, rest. split; [done|]. split; [done|]. split; [done|].
  destruct answer; rewrite <- ?Ha, <- ?Hs, <- ?Ha', <- ?Hs'; done.
Qed.

Lemma monitor_address_outcome group w :
  fair E →
  group.2 ≠ [] →
  ∃ W segment,
    monitor_address E group w = (tt, W)
    ∧ wallets W = wallets w
    ∧ trace W = trace w ++ segment
    ∧ poll_outcome E w W group segment
    ∧ ∀ a, a ≠ group.1 →
        accountStates W !! a = accountStates w !! a
        ∧ account_states (store W) !! a = account_states (store w) !! a.
Proof.
  intros Hfair Hsubs. destruct group as [address subscribers].
  destruct (monitor_address_run address subscribers w Hfair Hsubs)
    as (W & rest & Hrun & Hw & Ht & Hf & Hcases).
  exists W, (IoFetch address (http_post E (clock w) address) :: rest).
  split; [done|]. split; [done|]. split; [done|].
  cbn [fst snd] in *.
  destruct (http_post E (clock w) address) as [err|responseData] eqn:Hpost.
  - destruct Hcases as (Ha & Hs & Hsent & Hx). split.
    + exists (inl err), rest. cbn [fst]. rewrite Ha, Hs.
      split; [done|]. split; [done|]. split; [by eexists|]. done.
    + intros a _. by rewrite Ha, Hs.
  - cbv zeta in Hcases. destruct Hcases as [Hsame Hdiff].
    set (snapshot := snapshot_of responseData) in *.
    set (state := default zero_state (accountStates w !! address)) in *.
    destruct (changed_dec snapshot state) as [Hch|Hno].
    + destruct (Hdiff Hch)
        as (Ha & sends & answer & logs & Hrest & Hall & Hx & Hsl & Hxl & Hs & Hdb).
      assert (Hfs : fetched sends = []).
      { rewrite Hrest, fetched_app in Hf. by apply app_eq_nil in Hf as [Hf _]. }
      split.
      * exists (inr responseData), rest. cbn [fst snd]. cbv zeta.
        split; [done|]. split; [done|]. split; [by eexists|]. split; [done|].
        intros _. rewrite Ha, lookup_insert_eq. split; [done|].
        exists sends, answer, logs. split; [done|]. split; [done|]. split; [done|].
        split; [done|]. split; [done|].
        rewrite Hs. destruct (is_nil answer); [|done].
        cbn [exec_stmt account_states]. by rewrite lookup_insert_eq.
      * intros a Hne. rewrite Ha, Hs, lookup_insert_ne by done.
        destruct (is_nil answer); [|done].
        cbn [exec_stmt account_states]. by rewrite lookup_insert_ne.
    + destruct (Hsame Hno) as (Ha & Hs & Hrest). split.
      * exists (inr responseData), rest. cbn [fst snd]. cbv zeta.
        split; [done|]. split; [done|]. split; [by eexists|]. split; [|done].
        intros _. by rewrite Ha, Hs, lookup_insert_eq.
      * intros a Hne. by rewrite Ha, Hs, lookup_insert_ne.
Qed.

Lemma for_each_monitor_run groups :
  fair E →
  (∀ group, group ∈ groups → group.2 ≠ []) →
  NoDup groups.*1 →
  ∀ w, ∃ W segments,
    for_each groups (monitor_address E) w = (tt, W)
    ∧ wallets W = wallets w
    ∧ trace W = trace w ++ concat segments
    ∧ Forall2 (poll_outcome E w W) groups segments
    ∧ ∀ a, a ∉ groups.*1 →
        accountStates W !! a = accountStates w !! a
        ∧ account_states (store W) !! a = account_states (store w) !! a.
Proof.
  intros Hfair. induction groups as [|group groups IH]; intros Hsubs Hnd w.
  - exists w, []. cbn. rewrite app_nil_r. repeat split. constructor.
  - cbn [for_each]. unfold bind.
    rewrite fmap_cons in Hnd. apply NoDup_cons in Hnd as [Hnot Hnd].
    destruct (monitor_address_outcome group w Hfair)
      as (W1 & seg & -> & Hw1 & Ht1 & Hout & Hframe1).
    { apply Hsubs. left. }
    destruct (IH (λ g Hg, Hsubs g (list_elem_of_further _ _ _ Hg)) Hnd W1)
      as (W & segs & -> & Hw & Ht & Houts & Hframe).
    exists W, (seg :: segs). split; [done|]. split; [congruence|].
    split; [cbn [concat]; by rewrite Ht, Ht1, app_assoc|].
    split.
    + constructor.
      * destruct (Hframe group.1 Hnot) as [Ha Hs].
        by apply (poll_outcome_ext w W1 w W).
      * eapply Forall2_impl_in; [exact Houts|].
        intros g s Hg Hgs.
        assert (Hne : g.1 ≠ group.1).
        { intros Heq. apply Hnot. rewrite <- Heq. apply list_elem_of_fmap. by exists g. }
        destruct (Hframe1 g.1 Hne) as [Ha Hs].
        by apply (poll_outcome_ext W1 W w W).
    + intros a Ha. rewrite fmap_cons, not_elem_of_cons in Ha. destruct Ha as [Hne Hnot'].
      destruct (Hframe a Hnot') as [-> ->]. by apply Hframe1.
Qed.


End ProgramFacts.

(** ** Grouping the registry by address *)

Lemma foldl_snoc {A B} (f : A → B → A) (a : A) (l : list B) (x : B) :
  foldl f a (l ++ [x]) = f (foldl f a l) x.
Proof. by rewrite foldl_app. Qed.

Lemma group_by_address_lookup (order : list (string * WalletConfig)) (a : string) :
  group_by_address order !! a
  = match filter (λ wallet, Address wallet = a) order.*2 with
    | [] => None
    | subscribers => Some subscribers
    end.
Proof.
  induction order as [|entry order IH] using rev_ind; [done|].
  unfold group_by_address in *. rewrite foldl_snoc.
  rewrite fmap_app, filter_app. cbn [fmap list_fmap].
  destruct (decide (Address entry.2 = a)) as [<-|Hne].
  - rewrite lookup_insert_eq, IH, filter_cons_True by done.
    by destruct (filter _ _).
  - rewrite lookup_insert_ne, IH, filter_cons_False, filter_nil, app_nil_r by done.
    done.
Qed.

Lemma copy_of_map {A} (m : gmap string A) (order : list (string * A)) :
  ranges m order →
  foldl (λ copy entry, <[entry.1 := entry.2]> copy) (∅ : gmap string A) order = m.
Proof.
  intros Hr. pose proof (ranges_NoDup _ _ Hr) as Hnd.
  assert (Hlook : ∀ k v,
    foldl (λ copy entry, <[entry.1 := entry.2]> copy) (∅ : gmap string A) order !! k
    = Some v ↔ (k, v) ∈ order).
  { clear Hr. induction order as [|entry order IH] using rev_ind; intros k v.
    - cbn. rewrite lookup_empty. split; [done|by intros ?%elem_of_nil].
    - rewrite fmap_app in Hnd. apply NoDup_app in Hnd as (Hnd & Hnot & _).
      rewrite foldl_snoc, elem_of_app, list_elem_of_singleton.
      destruct (decide (entry.1 = k)) as [<-|Hne].
      + rewrite lookup_insert_eq. split.
        * intros [= <-]. right. by destruct entry.
        * intros [Hin|Heq]; [|destruct entry; cbn in *; congruence].
          exfalso. apply (Hnot entry.1).
          -- apply list_elem_of_fmap. by exists (entry.1, v).
          -- cbn. left.
      + rewrite lookup_insert_ne, (IH Hnd) by done. split; [by left|].
        intros [Hin|Heq]; [done|]. destruct Hne. by rewrite <- Heq. }
  apply map_eq. intros k. apply option_eq. intros v.
  by rewrite Hlook, (ranges_lookup _ _ _ _ Hr).
Qed.

Lemma groups_of_registry (ws : gmap string WalletConfig) order groups :
  ranges ws order →
  ranges (group_by_address order) groups →
  NoDup groups.*1
  ∧ (∀ address, address ∈ groups.*1
       ↔ ∃ key wallet, ws !! key = Some wallet ∧ Address wallet = address)
  ∧ (∀ group, group ∈ groups →
       group.2 ≠ [] ∧ group.2 ≡ₚ subscribers_of ws group.1).
Proof.
  intros Ho Hg. split; [by eapply ranges_NoDup|].
  assert (Hperm : ∀ a, filter (λ wallet, Address wallet = a) order.*2
                       ≡ₚ subscribers_of ws a).
  { intros a. unfold subscribers_of. unfold ranges in Ho. by rewrite Ho. }
  assert (Hgroup : ∀ a subs, (a, subs) ∈ groups
    ↔ subs ≠ [] ∧ subs = filter (λ wallet, Address wallet = a) order.*2).
  { intros a subs. rewrite (ranges_lookup _ _ _ _ Hg), group_by_address_lookup.
    destruct (filter _ _) as [|x l]; [split; [done|by intros [? ->]]|].
    split; [by intros [= <-]|by intros [_ ->]]. }
  split.
  - intros a. split.
    + intros [[a' subs] [-> Hin]]%list_elem_of_fmap. cbn [fst].
      apply Hgroup in Hin as [Hne ->].
      destruct (filter _ _) as [|wallet l] eqn:Hf; [done|].
      assert (Hw : wallet ∈ filter (λ wallet, Address wallet = a') order.*2)
        by (rewrite Hf; left).
      apply list_elem_of_filter in Hw as [Haddr Hw].
      apply list_elem_of_fmap in Hw as [[key wallet'] [-> Hw]].
      apply (ranges_lookup _ _ _ _ Ho) in Hw. by exists key, wallet'.
    + intros (key & wallet & Hlook & Haddr).
      apply list_elem_of_fmap.
      exists (a, filter (λ wallet, Address wallet = a) order.*2). split; [done|].
      apply Hgroup. split; [|done].
      assert (Hw : wallet ∈ filter (λ wallet, Address wallet = a) order.*2).
      { apply list_elem_of_filter. split; [done|].
        apply list_elem_of_fmap. exists (key, wallet). split; [done|].
        by apply (ranges_lookup _ _ _ _ Ho). }
      intros Hnil. rewrite Hnil in Hw. by apply elem_of_nil in Hw.
  - intros [a subs] Hin. apply Hgroup in Hin as [Hne ->]. cbn [fst snd].
    split; [done|apply Hperm].
Qed.

Section CycleFacts.
Context `{GoRuntime} (E : Env).

(** A whole poll cycle. *)
Lemma monitorAllWallets_run w :
  fair E →
  ∃ groups W segments,
    monitorAllWallets E w = (tt, W)
    ∧ wallets W = wallets w
    ∧ trace W = trace w ++ concat segments
    ∧ Forall2 (poll_outcome E w W) groups segments
    ∧ NoDup groups.*1
    ∧ (∀ address, address ∈ groups.*1
         ↔ ∃ key wallet, wallets w !! key = Some wallet ∧ Address wallet = address)
    ∧ (∀ group, group ∈ groups →
         group.2 ≠ [] ∧ group.2 ≡ₚ subscribers_of (wallets w) group.1).
Proof.
  intros Hfair. unfold monitorAllWallets. run_io.
  rewrite (copy_of_map (wallets w)) by apply Hfair.
  set (order := range_order E WalletConfig (S (clock w)) (wallets w)).
  set (groups := range_order E (list WalletConfig) (S (S (clock w))) (group_by_address order)).
  destruct (groups_of_registry (wallets w) order groups) as (Hnd & Hdom & Hsubs);
    [apply Hfair..|].
  match goal with
  | |- context [for_each groups _ ?W0] =>
      destruct (for_each_monitor_run E groups Hfair (λ g Hg, proj1 (Hsubs g Hg)) Hnd W0)
        as (W & segments & Hrun & Hw & Ht & Houts & _)
  end.
  exists groups, W, segments. split; [done|]. split; [done|]. split; [done|].
  split; [|done].
  eapply Forall2_impl; [exact Houts|]. intros group segment.
  by apply poll_outcome_ext.
Qed.

End CycleFacts.
(** * The claims on change detection *)

(** C3. When the previous state of an address has no position (the
    zero-valued baseline of a new address), detection against any current
    snapshot reports exactly one Opened event per instrument of the
    snapshot, in the order of the loop, and no Resized or Closed event;
    the text built by the code is the rendering of these events, and it is
    not empty when the snapshot is not. *)
Theorem first_cycle_reports_all_opened `{GoRuntime} (wallet : WalletConfig)
    (currentPositions : gmap string Position) (currentAccountValue : float)
    (state : AccountState) (timeStamp : string)
    (rangeCurrent rangeLast : list (string * Position)) :
  LastPositions state = ∅ →
  ranges currentPositions rangeCurrent →
  ranges (LastPositions state) rangeLast →
  let events := detect_events currentPositions state rangeCurrent rangeLast in
  detectPositionChanges wallet currentPositions currentAccountValue state timeStamp
    rangeCurrent rangeLast = render_report wallet timeStamp events
  ∧ events = (λ entry, Opened entry.1 entry.2) <$> rangeCurrent
  ∧ length events = size currentPositions
  ∧ (∀ coin current, currentPositions !! coin = Some current →
       filter (λ e, event_coin e = coin) events = [Opened coin current])
  ∧ (∀ e, e ∈ events →
       ∃ coin current, e = Opened coin current ∧ currentPositions !! coin = Some current)
  ∧ (currentPositions ≠ ∅ →
       detectPositionChanges wallet currentPositions currentAccountValue state timeStamp
         rangeCurrent rangeLast ≠ "").
Proof.
  intros Hempty Hc Hl events.
  assert (Hev : events = (λ entry, Opened entry.1 entry.2) <$> rangeCurrent)
    by (by apply detect_events_fresh).
  split; [apply detectPositionChanges_render|].
  split; [done|].
  split; [by rewrite Hev, length_fmap, (ranges_length _ _ Hc)|].
  split.
  { intros coin current Hcoin. unfold events.
    rewrite (detect_events_of_coin _ _ _ _ coin Hc Hl), Hcoin.
    unfold diff_current. by rewrite Hempty, lookup_empty. }
  split.
  { intros e. rewrite Hev. intros [[coin current] [-> Hin]]%list_elem_of_fmap.
    exists coin, current. split; [done|]. by apply (ranges_lookup _ _ _ _ Hc). }
  intros Hne. rewrite detectPositionChanges_render, render_report_nil. fold events.
  rewrite Hev. intros Hnil%fmap_nil_inv. subst rangeCurrent.
  apply Hne, map_to_list_empty_iff. unfold ranges in Hc.
  symmetry in Hc. by apply Permutation_nil_r in Hc.
Qed.

(** C2. For an instrument present in the previous state and in the
    current snapshot, a Resized event is reported exactly when the
    binary64 value Δ% = |current − previous| / |previous| × 100 (0 when the
    previous size parses to 0) is at least 1.0; a Δ% of exactly 1.0 is
    reported; the event carries the two sizes and Δ%, it is the only event
    for the instrument, and its direction is "increased" exactly when
    |current| > |previous|. *)
Theorem resized_iff_delta_percent `{GoRuntime} (wallet : WalletConfig)
    (currentPositions : gmap string Position) (currentAccountValue : float)
    (state : AccountState) (timeStamp : string)
    (rangeCurrent rangeLast : list (string * Position))
    (coin : string) (current last : Position) :
  ranges currentPositions rangeCurrent →
  ranges (LastPositions state) rangeLast →
  currentPositions !! coin = Some current →
  LastPositions state !! coin = Some last →
  let currentSzi := parse (Szi current) in
  let lastSzi := parse (Szi last) in
  let pct := delta_percent currentSzi lastSzi in
  let increased := (PrimFloat.abs lastSzi <? PrimFloat.abs currentSzi)%float in
  let events := detect_events currentPositions state rangeCurrent rangeLast in
  detectPositionChanges wallet currentPositions currentAccountValue state timeStamp
    rangeCurrent rangeLast = render_report wallet timeStamp events
  ∧ filter (λ e, event_coin e = coin) events
    = (if (1 <=? pct)%float then [Resized coin increased lastSzi currentSzi pct] else [])
  ∧ ((∃ e, e ∈ events ∧ event_coin e = coin ∧ is_resized e = true)
     ↔ (1 <=? pct)%float = true)
  ∧ (pct = 1%float → Resized coin increased lastSzi currentSzi 1%float ∈ events)
  ∧ render_event (Resized coin increased lastSzi currentSzi pct)
    = (if increased then "📈 仓位增加: " else "📉 仓位减少: ") +:+ coin +:+ nl
        +:+ "   从: " +:+ Sprintf_f 5 lastSzi +:+ nl
        +:+ "   到: " +:+ Sprintf_f 5 currentSzi +:+ nl
        +:+ "   变化: " +:+ Sprintf_f 2 pct +:+ "%" +:+ nl +:+ nl.
Proof.
  intros Hc Hl Hcur Hlast currentSzi lastSzi pct increased events.
  assert (Hfilter : filter (λ e, event_coin e = coin) events
    = (if (1 <=? pct)%float then [Resized coin increased lastSzi currentSzi pct] else [])).
  { unfold events. rewrite (detect_events_of_coin _ _ _ _ coin Hc Hl), Hcur.
    unfold diff_current. by rewrite Hlast, sziChangePercent_delta. }
  split; [apply detectPositionChanges_render|].
  split; [done|].
  split.
  { split.
    - intros (e & Hin & Hcoin & Hres).
      assert (He : e ∈ filter (λ e, event_coin e = coin) events)
        by (by apply list_elem_of_filter).
      rewrite Hfilter in He. destruct (1 <=? pct)%float; [done|].
      by apply elem_of_nil in He.
    - intros Hge. rewrite Hge in Hfilter.
      exists (Resized coin increased lastSzi currentSzi pct).
      assert (He : Resized coin increased lastSzi currentSzi pct
                   ∈ filter (λ e, event_coin e = coin) events)
        by (rewrite Hfilter; left).
      apply list_elem_of_filter in He as [_ He]. done. }
  split; [|done].
  intros Hone. rewrite Hone in Hfilter. change (1 <=? 1)%float with true in Hfilter.
  assert (He : Resized coin increased lastSzi currentSzi 1%float
               ∈ filter (λ e, event_coin e = coin) events)
    by (rewrite Hfilter; left).
  by apply list_elem_of_filter in He as [_ He].
Qed.

(** C1, as amended.  For one pair of a previous state and a current
    snapshot, any two runs of detection (whatever orders their loops take)
    report the same events with the same sizes and percentages, up to the
    order of the events; the text is the rendering of the events in the
    order in which the loops met them, so two runs that meet the events
    in the same order (at the same time stamp) build the same text, and
    one text is empty exactly when the other is.  The same holds for the
    single-tenant variant, whose account-value report also lists the
    positions in the order of its summary loop. *)
Theorem detection_same_events_any_order `{GoRuntime} (wallet : WalletConfig)
    (wallet1 : SingleTenant.WalletConfig)
    (currentPositions : gmap string Position) (currentAccountValue : float)
    (state : AccountState) (timeStamp : string)
    (r1 r2 r3 r1' r2' r3' : list (string * Position)) :
  ranges currentPositions r1 → ranges (LastPositions state) r2 →
  ranges currentPositions r1' → ranges (LastPositions state) r2' →
  let events := detect_events currentPositions state r1 r2 in
  let events' := detect_events currentPositions state r1' r2' in
  let text := detectPositionChanges wallet currentPositions currentAccountValue state
                timeStamp r1 r2 in
  let text' := detectPositionChanges wallet currentPositions currentAccountValue state
                 timeStamp r1' r2' in
  events ≡ₚ events'
  ∧ text = render_report wallet timeStamp events
  ∧ text' = render_report wallet timeStamp events'
  ∧ (events = events' → text = text')
  ∧ (text = "" ↔ text' = "")
  ∧ (events = events' → r3 = r3' →
     SingleTenant.detectPositionChanges wallet1 currentPositions currentAccountValue state
       timeStamp r1 r2 r3
     = SingleTenant.detectPositionChanges wallet1 currentPositions currentAccountValue state
         timeStamp r1' r2' r3').
Proof.
  intros H1 H2 H1' H2' events events' text text'.
  assert (Hperm : events ≡ₚ events') by (by apply detect_events_Permutation).
  split; [done|].
  split; [apply detectPositionChanges_render|].
  split; [apply detectPositionChanges_render|].
  split.
  { intros Heq. unfold text, text'. rewrite !detectPositionChanges_render.
    fold events events'. by rewrite Heq. }
  split.
  { unfold text, text'. rewrite !detectPositionChanges_render, !render_report_nil.
    fold events events'. split; intros Hnil; rewrite Hnil in Hperm.
    - symmetry in Hperm. by apply Permutation_nil_r in Hperm.
    - by apply Permutation_nil_r in Hperm. }
  intros Heq ->. rewrite !single_detectPositionChanges_text.
  fold events events'. by rewrite Heq.
Qed.

(** C5. In the single-tenant variant the standalone account-value report
    is produced exactly when |Δacct%| ≥ 1.0, for the binary64 value
    Δacct% = (current − previous) / previous × 100 (0 when the previous
    equity is not positive), and no Opened, Resized or Closed event fired;
    when an event fired the text is the rendering of the events alone, and
    when nothing fired and the change is below 1.0 the text is empty. *)
Theorem account_value_report_iff `{GoRuntime} (wallet : SingleTenant.WalletConfig)
    (currentPositions : gmap string Position) (currentAccountValue : float)
    (state : AccountState) (timeStamp : string)
    (rangeCurrent rangeLast rangeSummary : list (string * Position)) :
  let events := detect_events currentPositions state rangeCurrent rangeLast in
  let pct := SingleTenant.delta_account_percent currentAccountValue (LastAccountValue state) in
  let text := SingleTenant.detectPositionChanges wallet currentPositions
                currentAccountValue state timeStamp rangeCurrent rangeLast rangeSummary in
  let report := SingleTenant.account_value_report wallet currentPositions
                  currentAccountValue state timeStamp rangeSummary in
  (text = report ↔ (1 <=? PrimFloat.abs pct)%float = true ∧ events = [])
  ∧ (events ≠ [] → text = SingleTenant.render_report wallet timeStamp events)
  ∧ (events = [] → (1 <=? PrimFloat.abs pct)%float = false → text = "").
Proof.
  intros events pct text report.
  assert (Htext : text = if (1 <=? PrimFloat.abs pct)%float && no_events events
                         then report
                         else SingleTenant.render_report wallet timeStamp events).
  { unfold text, pct. rewrite single_detectPositionChanges_text.
    by rewrite significant_account_change. }
  split; [|split].
  - split.
    + intros Heq. destruct (1 <=? _)%float, (no_events events) eqn:Hev;
        cbn [andb] in Htext.
      * by apply no_events_true in Hev.
      * exfalso. apply (single_render_report_byte wallet timeStamp events).
        rewrite <- Htext, Heq. apply account_value_report_byte.
      * exfalso. apply (single_render_report_byte wallet timeStamp events).
        rewrite <- Htext, Heq. apply account_value_report_byte.
      * exfalso. apply (single_render_report_byte wallet timeStamp events).
        rewrite <- Htext, Heq. apply account_value_report_byte.
    + intros [Hsig Hnil]. by rewrite Htext, Hsig, Hnil.
  - intros Hne. rewrite Htext. destruct events; [done|].
    by rewrite andb_false_r.
  - intros Hnil Hsig. by rewrite Htext, Hsig, Hnil.
Qed.

(** ** Closed instances, on the executable model of the library *)

Section Instances.
Import Sample.
Local Existing Instance go_runtime.

(** Both orders are orders of a loop over [two_positions]. *)
Lemma ranges_btc_first : ranges two_positions btc_first.
Proof. unfold ranges. vm_compute. apply perm_swap. Qed.

Lemma ranges_eth_first : ranges two_positions eth_first.
Proof. unfold ranges. vm_compute. reflexivity. Qed.

(** C1, as stated, fails: the same wallet, previous state and snapshot,
    at the same time stamp, give two different texts when the first loop
    of the second run takes another order than that of the first run. *)
Lemma detection_order_counterexample :
  ranges two_positions btc_first ∧ ranges two_positions eth_first
  ∧ ranges (LastPositions zero_state) []
  ∧ detectPositionChanges alice two_positions 1000 zero_state stamp btc_first []
    ≠ detectPositionChanges alice two_positions 1000 zero_state stamp eth_first [].
Proof.
  split; [apply ranges_btc_first|]. split; [apply ranges_eth_first|].
  split; [unfold ranges; reflexivity|].
  vm_compute. discriminate.
Qed.

(** The two runs of the counterexample report the same two events. *)
Lemma detection_same_events_any_order_witness :
  ranges two_positions btc_first ∧ ranges two_positions eth_first
  ∧ detect_events two_positions zero_state btc_first []
    ≡ₚ detect_events two_positions zero_state eth_first [].
Proof.
  assert (H1 : ranges two_positions btc_first) by (unfold ranges; vm_compute; apply perm_swap).
  assert (H2 : ranges two_positions eth_first) by (unfold ranges; vm_compute; reflexivity).
  assert (H3 : ranges (LastPositions zero_state) []) by (unfold ranges; reflexivity).
  split; [exact H1|]. split; [exact H2|].
  exact (proj1 (detection_same_events_any_order alice solo two_positions 1000 zero_state
                  stamp btc_first [] [] eth_first [] [] H1 H3 H2 H3)).
Defined.

(** Against the zero-valued baseline the two positions are reported as
    opened, in the order of the loop. *)
Lemma first_cycle_reports_all_opened_witness :
  LastPositions zero_state = ∅
  ∧ ranges two_positions eth_first
  ∧ detect_events two_positions zero_state eth_first [] = [Opened "ETH" eth; Opened "BTC" btc].
Proof.
  assert (H1 : LastPositions zero_state = ∅) by reflexivity.
  assert (H2 : ranges two_positions eth_first) by (unfold ranges; vm_compute; reflexivity).
  assert (H3 : ranges (LastPositions zero_state) []) by (unfold ranges; reflexivity).
  split; [exact H1|]. split; [exact H2|].
  exact (proj1 (proj2 (first_cycle_reports_all_opened alice two_positions 1000 zero_state
                         stamp eth_first [] H1 H2 H3))).
Defined.

(** A size going from 100 to 101: Δ% is exactly 1.0 and the increase is
    reported. *)
Lemma resized_iff_delta_percent_witness :
  delta_percent (parse "101") (parse "100") = 1%float
  ∧ filter (λ e, event_coin e = "BTC")
      (detect_events {[ "BTC" := size_101 ]} (state_of {[ "BTC" := size_100 ]} 1000)
         [("BTC", size_101)] [("BTC", size_100)])
    = [Resized "BTC" true 100 101 1].
Proof.
  assert (H1 : ranges ({[ "BTC" := size_101 ]} : gmap string Position) [("BTC", size_101)])
    by (unfold ranges; vm_compute; reflexivity).
  assert (H2 : ranges (LastPositions (state_of {[ "BTC" := size_100 ]} 1000)) [("BTC", size_100)])
    by (unfold ranges; vm_compute; reflexivity).
  assert (H3 : ({[ "BTC" := size_101 ]} : gmap string Position) !! "BTC" = Some size_101)
    by (vm_compute; reflexivity).
  assert (H4 : LastPositions (state_of {[ "BTC" := size_100 ]} 1000) !! "BTC" = Some size_100)
    by (vm_compute; reflexivity).
  split; [vm_compute; reflexivity|].
  exact (proj1 (proj2 (resized_iff_delta_percent alice _ 1000 _ stamp _ _ "BTC" _ _
                         H1 H2 H3 H4))).
Defined.

(** A change of 0.99999% (100000 to 100999.99) is not reported. *)
Example resize_below_threshold :
  detectPositionChanges alice {[ "BTC" := position "BTC" "100999.99" ]} 1000
    (state_of {[ "BTC" := position "BTC" "100000" ]} 1000) stamp
    [("BTC", position "BTC" "100999.99")] [("BTC", position "BTC" "100000")] = "".
Proof. vm_compute. reflexivity. Qed.

(** A short position growing from -10 to -10.2 is labelled increased
    (Δ% is 1.9999999999999927). *)
Example short_grows_increased :
  detect_events {[ "BTC" := position "BTC" "-10.2" ]}
    (state_of {[ "BTC" := position "BTC" "-10" ]} 1000)
    [("BTC", position "BTC" "-10.2")] [("BTC", position "BTC" "-10")]
  = [Resized "BTC" true (-10) (-0x1.4666666666666p+3) 0x1.fffffffffffdfp+0].
Proof. vm_compute. reflexivity. Qed.

(** The percentage is computed on the binary64 values: the sizes written
    10 and 10.1 give a Δ% just below 1.0 (0.99999999999999634), and no
    event. *)
Example resize_10_to_10_1 :
  delta_percent (parse "10.1") (parse "10") = 0x1.fffffffffffdfp-1%float
  ∧ detect_events {[ "BTC" := position "BTC" "10.1" ]}
      (state_of {[ "BTC" := position "BTC" "10" ]} 1000)
      [("BTC", position "BTC" "10.1")] [("BTC", position "BTC" "10")] = [].
Proof. split; vm_compute; reflexivity. Qed.

(** The equity goes from 1000 to 1020 and no position changes: the
    single-tenant monitor sends the account-value report; when a position
    closes in the same cycle it sends the position report alone. *)
Example account_value_report_alone :
  SingleTenant.detectPositionChanges solo {[ "BTC" := btc ]} 1020
    (state_of {[ "BTC" := btc ]} 1000) stamp [("BTC", btc)] [("BTC", btc)] [("BTC", btc)]
  = SingleTenant.account_value_report solo {[ "BTC" := btc ]} 1020
      (state_of {[ "BTC" := btc ]} 1000) stamp [("BTC", btc)].
Proof. vm_compute. reflexivity. Qed.

Example position_report_takes_precedence :
  SingleTenant.detectPositionChanges solo {[ "BTC" := btc ]} 1020
    (state_of two_positions 1000) stamp [("BTC", btc)] eth_first [("BTC", btc)]
  = SingleTenant.render_report solo stamp [Closed "ETH" eth].
Proof. vm_compute. reflexivity. Qed.

End Instances.

(** * The claims on subscriptions *)

Lemma size_two_keys {A} (m : gmap string A) k1 k2 :
  k1 ≠ k2 → is_Some (m !! k1) → is_Some (m !! k2) → size m ≠ 1.
Proof.
  intros Hne H1 H2 Hsize.
  pose proof (map_size_delete_Some k1 m H1) as Hdel. rewrite Hsize in Hdel.
  apply map_size_empty_inv in Hdel.
  destruct H2 as [v Hv]. rewrite <- (lookup_delete_ne m k1 k2), Hdel in Hv by done.
  by rewrite lookup_empty in Hv.
Qed.

(** C10. Subscribing when the registry already holds an entry under the
    key of (recipient, address) starts no goroutine and leaves the
    registry, the account states and the store as they are; its only
    effect is the "already subscribed" notice to the recipient. *)
Theorem subscribe_existing_is_noop `{GoRuntime} (E : Env)
    (chatID address name : string) (w : World) :
  is_Some (wallets w !! wallet_key chatID address) →
  let r := subscribeWallet E chatID address name w in
  let notice := "地址 " +:+ shortenAddress address +:+ " 已订阅" in
  r.1 = None
  ∧ wallets r.2 = wallets w
  ∧ accountStates r.2 = accountStates w
  ∧ store r.2 = store w
  ∧ ∃ delivered, trace r.2 = trace w ++ [IoSend chatID notice delivered].
Proof.
  intros Hw r notice. unfold r. rewrite subscribeWallet_existing by done.
  repeat split. by eexists.
Qed.



(** * The claims on the poll cycle *)

(** C4. A poll cycle goes through the addresses of the registry, each
    with the group of all its subscribers, and leaves one stretch of
    trace per address.  For each address whose fetch succeeded: when the
    snapshot differs from the state, every subscriber of the group is
    handed a message, whatever the transport answers; after these sends
    the snapshot is the state of the address in memory and the statement
    storing it is issued to the store of the environment, whose answer
    decides the durable row: the snapshot when the statement is
    executed, the row as it was when it fails.  When the snapshot does
    not differ, the state of the address stays (the zero-valued one for
    an address that had none), the durable row stays, and nothing is
    sent.  So with a store that executes every statement, every address
    whose snapshot differed has that snapshot as its durable row after
    the cycle. *)
Theorem poll_cycle_updates_state `{GoRuntime} (E : Env) (w : World) :
  fair E →
  let w' := (monitorAllWallets E w).2 in
  ∃ groups segments,
    trace w' = trace w ++ concat segments
    ∧ wallets w' = wallets w
    ∧ (∀ address, address ∈ groups.*1
         ↔ ∃ key wallet, wallets w !! key = Some wallet ∧ Address wallet = address)
    ∧ (∀ group, group ∈ groups →
         group.2 ≠ [] ∧ group.2 ≡ₚ subscribers_of (wallets w) group.1)
    ∧ Forall2 (poll_outcome E w w') groups segments
    ∧ ((∀ n q, db_exec E n q = None) →
       Forall2
         (λ group segment,
            ∀ responseData rest,
              segment = IoFetch group.1 (inr responseData) :: rest →
              changed (snapshot_of responseData)
                (default zero_state (accountStates w !! group.1)) →
              accountStates w' !! group.1
              = Some (state_of_snapshot (snapshot_of responseData))
              ∧ account_states (store w') !! group.1
                = Some (state_of_snapshot (snapshot_of responseData))
              ∧ (sent rest).*1 = ChatID <$> group.2)
         groups segments).
Proof.
  intros Hfair w'.
  destruct (monitorAllWallets_run E w Hfair)
    as (groups & W & segments & Hrun & Hw & Ht & Houts & _ & Hdom & Hsubs).
  unfold w'. rewrite Hrun. exists groups, segments.
  split; [done|]. split; [done|]. split; [done|]. split; [done|]. split; [done|].
  intros Hstore. eapply Forall2_impl; [exact Houts|].
  intros group segment (answer & rest' & Hseg & _ & _ & Hcases) responseData rest Heq Hch.
  rewrite Hseg in Heq. injection Heq as -> ->.
  cbv zeta in Hcases. destruct Hcases as [_ Hdiff].
  destruct (Hdiff Hch)
    as (Ha & sends & stored & logs & -> & [n ->] & (Hall & _ & _) & Hsl & _ & Hrow).
  rewrite Hstore in Hrow. split; [done|]. split; [done|].
  rewrite sent_app. change (sent (IoExec _ _ :: logs)) with (sent logs).
  rewrite Hsl, app_nil_r. clear -Hall.
  induction Hall as [|wallet cm subscribers cms [Hchat _] _ IH]; [done|].
  cbn [fmap list_fmap]. by rewrite Hchat, IH.
Qed.


(** * The claim on numeric fields *)

(** The model of the library returns these values with its errors. *)
Lemma go_runtime_ParseFloat_errors : @ParseFloat_errors go_runtime.
Proof.
  intros s. cbn [ParseFloat go_runtime]. unfold Go.ParseFloat.
  destruct (Go.special s); [done|].
  destruct (Go.read_sign s) as [neg body].
  destruct (Go.read_decimal body) as [[m e]|]; [|done].
  destruct (Go.round_decimal neg m e) as [sg|[]| |sg mm ee]; cbn [fst snd]; try done.
  - right. reflexivity.
  - left. reflexivity.
Qed.

Lemma abs_ltb_zero (l : float) : (PrimFloat.abs l <? 0)%float = false.
Proof.
  rewrite ltb_spec, abs_spec.
  destruct (Prim2SF l) as [sg|sg| |sg m e]; reflexivity.
Qed.

(** A size [l] with [0 < |l| < +Inf] is a finite number other than zero. *)
Lemma ordinary_size (l : float) :
  (0 <? PrimFloat.abs l)%float = true → (PrimFloat.abs l <? infinity)%float = true →
  ∃ sg m e, Prim2SF l = S754_finite sg m e.
Proof.
  rewrite !ltb_spec, abs_spec.
  destruct (Prim2SF l) as [sg|sg| |sg m e]; try discriminate; eauto.
Qed.

(** From such a size to an infinite one the change is +Inf percent. *)
Lemma infinite_change `{GoRuntime} (x l : float) :
  x = infinity ∨ x = neg_infinity →
  (0 <? PrimFloat.abs l)%float = true → (PrimFloat.abs l <? infinity)%float = true →
  sziChangePercent x l = infinity
  ∧ (PrimFloat.abs l <? PrimFloat.abs x)%float = true.
Proof.
  intros Hx Hpos Hfin.
  destruct (ordinary_size l Hpos Hfin) as (sg & m & e & Hl).
  assert (Habs : PrimFloat.abs x = infinity) by (destruct Hx as [-> | ->]; reflexivity).
  split; [|by rewrite Habs].
  unfold sziChangePercent.
  assert (Hnz : (l =? 0)%float = false)
    by (rewrite FloatAxioms.eqb_spec, Hl; destruct sg; reflexivity).
  rewrite Hnz. cbn [negb].
  apply Prim2SF_eq.
  rewrite mul_spec, abs_spec, div_spec, sub_spec, Hl.
  destruct Hx as [-> | ->]; destruct sg; reflexivity.
Qed.

(** C9, as amended.  Every numeric text is used through the binary64
    value that [ParseFloat] returns for it, and the error returned with
    that value is never looked at.  With the values that the library
    documents for its errors: a text that is not a well-formed number is
    used as 0, and a well-formed number out of range is used as +Inf or
    -Inf, not as 0.  Two positions whose texts are read as the same
    values are rendered alike and detected alike, as the current
    position or as the last one, in both programs, and two responses
    whose account values are read alike give the same snapshot.  At the
    point of use in the detection: a current size that is not a number
    is compared as the size 0 (a decrease, when the change is reported),
    and a current size out of range, against a last size that is finite
    and not zero, is reported as an increase by +Inf percent.  (The
    functions return texts and events only: there is no error to
    propagate.) *)
Theorem numeric_text_used_through_its_value `{GoRuntime} :
  ParseFloat_errors →
  (∀ s, (ParseFloat s).2 = Some ErrSyntax → parse s = 0%float)
  ∧ (∀ s, (ParseFloat s).2 = Some ErrRange → parse s = infinity ∨ parse s = neg_infinity)
  ∧ (∀ p p', same_numbers p p' →
       (∀ message, addPositionDetails message p = addPositionDetails message p')
       ∧ (∀ message key,
            initial_position message (key, p) = initial_position message (key, p'))
       ∧ (∀ changes coin,
            SingleTenant.summary_position changes (coin, p)
            = SingleTenant.summary_position changes (coin, p'))
       ∧ (∀ header lastPositions changes coin,
            detect_current header lastPositions changes (coin, p)
            = detect_current header lastPositions changes (coin, p'))
       ∧ (∀ header lastPositions changes coin current,
            detect_current header (<[coin := p]> lastPositions) changes (coin, current)
            = detect_current header (<[coin := p']> lastPositions) changes (coin, current))
       ∧ (∀ header currentPositions acc coin,
            SingleTenant.detect_closed header currentPositions acc (coin, p)
            = SingleTenant.detect_closed header currentPositions acc (coin, p'))
       ∧ (∀ r r', AssetPositions r = AssetPositions r' →
            parse (MarginSummary_AccountValue r) = parse (MarginSummary_AccountValue r') →
            snapshot_of r = snapshot_of r'))
  ∧ (∀ header lastPositions changes coin current last,
       lastPositions !! coin = Some last →
       (ParseFloat (Szi current)).2 = Some ErrSyntax →
       let lastSzi := parse (Szi last) in
       let events :=
         if (1 <=? sziChangePercent 0 lastSzi)%float
         then [Resized coin false lastSzi 0 (sziChangePercent 0 lastSzi)] else [] in
       diff_current lastPositions (coin, current) = events
       ∧ detect_current header lastPositions changes (coin, current)
         = emit header changes (render_event <$> events))
  ∧ (∀ header lastPositions changes coin current last,
       lastPositions !! coin = Some last →
       (ParseFloat (Szi current)).2 = Some ErrRange →
       let lastSzi := parse (Szi last) in
       (0 <? PrimFloat.abs lastSzi)%float = true →
       (PrimFloat.abs lastSzi <? infinity)%float = true →
       let events := [Resized coin true lastSzi (parse (Szi current)) infinity] in
       diff_current lastPositions (coin, current) = events
       ∧ detect_current header lastPositions changes (coin, current)
         = emit header changes (render_event <$> events)).
Proof.
  intros Herrors.
  assert (Hsyntax : ∀ s, (ParseFloat s).2 = Some ErrSyntax → parse s = 0%float).
  { intros s Hs. specialize (Herrors s). by rewrite Hs in Herrors. }
  assert (Hrange : ∀ s, (ParseFloat s).2 = Some ErrRange →
                        parse s = infinity ∨ parse s = neg_infinity).
  { intros s Hs. specialize (Herrors s). by rewrite Hs in Herrors. }
  split; [done|]. split; [done|]. split.
  { intros p p' (Hcoin & Hlt & Hlv & Hszi & Hentry & Hvalue & Hpnl & Hroe & Hliq & Hmargin).
    assert (Hdetails : ∀ message,
              addPositionDetails message p = addPositionDetails message p').
    { intros message. unfold addPositionDetails.
      by rewrite Hcoin, Hlv, Hszi, Hentry, Hvalue, Hpnl, Hroe, Hliq. }
    split; [done|].
    split.
    { intros message key. unfold initial_position. cbn [snd].
      by rewrite Hcoin, Hlt, Hlv, Hszi, Hentry, Hvalue, Hpnl, Hroe, Hliq, Hmargin. }
    split.
    { intros changes coin. unfold SingleTenant.summary_position.
      by rewrite Hszi, Hpnl, Hroe. }
    split.
    { intros header lastPositions changes coin. unfold detect_current.
      destruct (lastPositions !! coin); [by rewrite Hszi|apply Hdetails]. }
    split.
    { intros header lastPositions changes coin current. unfold detect_current.
      by rewrite !lookup_insert_eq, Hszi. }
    split.
    { intros header currentPositions [changes removed] coin.
      unfold SingleTenant.detect_closed. by rewrite Hszi. }
    intros r r' Hpos Hvalue'. unfold snapshot_of. by rewrite Hpos, Hvalue'. }
  split.
  - intros header lastPositions changes coin current last Hlast Hs lastSzi events.
    assert (Hevents : diff_current lastPositions (coin, current) = events).
    { unfold diff_current, events, lastSzi. rewrite Hlast, (Hsyntax _ Hs).
      destruct (1 <=? _)%float; [|done].
      change (PrimFloat.abs 0) with 0%float. by rewrite abs_ltb_zero. }
    split; [done|]. by rewrite detect_current_emit, Hevents.
  - intros header lastPositions changes coin current last Hlast Hs lastSzi Hpos Hfin events.
    destruct (infinite_change (parse (Szi current)) lastSzi (Hrange _ Hs) Hpos Hfin)
      as [Hpct Hmore].
    assert (Hevents : diff_current lastPositions (coin, current) = events).
    { unfold diff_current, events. rewrite Hlast. fold lastSzi.
      rewrite Hpct, Hmore. done. }
    split; [done|]. by rewrite detect_current_emit, Hevents.
Qed.

(** ** Closed instances of the claims on the running program *)

Section WorldInstances.
Import Sample.
Local Existing Instance go_runtime.

(** A cycle over the registry of Alice and Bob while the transport
    refuses every message. *)
Lemma poll_cycle_updates_state_witness :
  fair (outside (Some "blocked"))
  ∧ ∃ (groups : list (string * list WalletConfig)) (segments : list (list IOEvent)),
      trace (monitorAllWallets (outside (Some "blocked")) alice_and_bob).2
      = trace alice_and_bob ++ concat segments
      ∧ wallets (monitorAllWallets (outside (Some "blocked")) alice_and_bob).2
        = wallets alice_and_bob
      ∧ (∀ address, address ∈ groups.*1
           ↔ ∃ key wallet, wallets alice_and_bob !! key = Some wallet
                           ∧ Address wallet = address)
      ∧ (∀ group, group ∈ groups →
           group.2 ≠ [] ∧ group.2 ≡ₚ subscribers_of (wallets alice_and_bob) group.1)
      ∧ Forall2 (poll_outcome (outside (Some "blocked")) alice_and_bob
                   (monitorAllWallets (outside (Some "blocked")) alice_and_bob).2)
          groups segments
      ∧ ((∀ n q, db_exec (outside (Some "blocked")) n q = None) →
         Forall2
           (λ group segment,
              ∀ responseData rest,
                segment = IoFetch group.1 (inr responseData) :: rest →
                changed (snapshot_of responseData)
                  (default zero_state (accountStates alice_and_bob !! group.1)) →
                accountStates (monitorAllWallets (outside (Some "blocked")) alice_and_bob).2
                  !! group.1
                = Some (state_of_snapshot (snapshot_of responseData))
                ∧ account_states
                    (store (monitorAllWallets (outside (Some "blocked")) alice_and_bob).2)
                    !! group.1
                  = Some (state_of_snapshot (snapshot_of responseData))
                ∧ (sent rest).*1 = ChatID <$> group.2)
           groups segments).
Proof.
  assert (Hfair : fair (outside (Some "blocked")))
    by (intros A n m; unfold ranges; reflexivity).
  split; [exact Hfair|].
  exact (poll_cycle_updates_state (outside (Some "blocked")) alice_and_bob Hfair).
Defined.

(** The transport refuses every message: both subscribers are tried, and
    the snapshot is stored in memory and in the store all the same. *)
Example blocked_delivery_still_stores :
  let w' := (monitorAllWallets (outside (Some "blocked")) alice_and_bob).2 in
  (sent (trace w')).*1 = ["1001"; "1002"]
  ∧ accountStates w' !! account = Some (state_of {[ "BTC" := btc ]} 1000)
  ∧ account_states (store w') !! account = Some (state_of {[ "BTC" := btc ]} 1000)
  ∧ fetched (trace w') = [account].
Proof. vm_compute. repeat split. Qed.


(** Alice subscribes again to the account she already follows. *)
Lemma subscribe_existing_is_noop_witness :
  is_Some (wallets alice_alone !! wallet_key "1001" account)
  ∧ wallets (subscribeWallet (outside None) "1001" account "again" alice_alone).2
    = wallets alice_alone.
Proof.
  assert (Hkey : is_Some (wallets alice_alone !! wallet_key "1001" account))
    by (exists alice; vm_compute; reflexivity).
  split; [exact Hkey|].
  exact (proj1 (proj2 (subscribe_existing_is_noop (outside None) "1001" account "again"
                         alice_alone Hkey))).
Defined.


(** Bob's subscribe and the goroutine it starts, run at once: the state
    of the account is still the settled one. *)
Example second_subscriber_run :
  let r := subscribeWallet (outside None) "1002" account "fund" alice_settled in
  ∃ g, r.1 = Some g
       ∧ accountStates (subscribeWallet_goroutine (outside None) g r.2).2 !! account
         = Some (state_of {[ "BTC" := btc ]} 1000).
Proof. eexists. split; vm_compute; reflexivity. Qed.



(** ** Closed instances of the claim on numeric fields *)

(** On the model of the library, a text that is not a number is read as
    zero, with a syntax error. *)
Example malformed_text_reads_zero :
  ParseFloat "12,5" = (0%float, Some ErrSyntax) ∧ ParseFloat "0" = (0%float, None).
Proof. split; vm_compute; reflexivity. Qed.

(** A number beyond the binary64 range is read as an infinity, with a
    range error. *)
Example out_of_range_text_reads_infinity :
  ParseFloat "1e999" = (infinity, Some ErrRange)
  ∧ ParseFloat "-1e999" = (neg_infinity, Some ErrRange).
Proof. split; vm_compute; reflexivity. Qed.

(** On the model of the library: a malformed size is read as zero, and
    the size 1e999 against a last size of 100 is reported as an increase
    by +Inf percent. *)
Lemma numeric_text_used_through_its_value_witness :
  ParseFloat_errors
  ∧ parse "12,5" = 0%float
  ∧ diff_current {[ "BTC" := position "BTC" "100" ]} ("BTC", position "BTC" "1e999")
    = [Resized "BTC" true (parse "100") (parse "1e999") infinity].
Proof.
  split; [exact go_runtime_ParseFloat_errors|].
  destruct (numeric_text_used_through_its_value go_runtime_ParseFloat_errors)
    as (Hsyntax & _ & _ & _ & Hrange).
  split; [apply Hsyntax; vm_compute; reflexivity|].
  apply (Hrange "" {[ "BTC" := position "BTC" "100" ]} "" "BTC"
           (position "BTC" "1e999") (position "BTC" "100"));
    vm_compute; reflexivity.
Defined.

(** C9, as stated, fails.  The size text 1e999 fails to parse (range
    error), and it is not used as zero: the position is rendered with the
    size +Inf, and against a last size of 100 the change is reported as
    an increase by +Inf percent, where a size of zero would be reported
    as a decrease by 100 percent. *)
Lemma out_of_range_size_counterexample :
  let failing := position "BTC" "1e999" in
  let zero := position "BTC" "0" in
  let last := state_of {[ "BTC" := position "BTC" "100" ]} 1000 in
  (ParseFloat (Szi failing)).2 = Some ErrRange
  ∧ addPositionDetails "" failing ≠ addPositionDetails "" zero
  ∧ detect_events {[ "BTC" := failing ]} last [("BTC", failing)] [("BTC", position "BTC" "100")]
    = [Resized "BTC" true 100 infinity infinity]
  ∧ detect_events {[ "BTC" := zero ]} last [("BTC", zero)] [("BTC", position "BTC" "100")]
    = [Resized "BTC" false 100 0 100]
  ∧ detectPositionChanges alice {[ "BTC" := failing ]} 1000 last stamp
      [("BTC", failing)] [("BTC", position "BTC" "100")]
    ≠ detectPositionChanges alice {[ "BTC" := zero ]} 1000 last stamp
        [("BTC", zero)] [("BTC", position "BTC" "100")].
Proof.
  cbv zeta. split; [vm_compute; reflexivity|].
  split; [vm_compute; discriminate|].
  split; [vm_compute; reflexivity|].
  split; [vm_compute; reflexivity|].
  vm_compute. discriminate.
Qed.

End WorldInstances.

(** ** Byte strings *)

Lemma length_app_s (a b : string) :
  String.length (a +:+ b) = String.length a + String.length b.
Proof. induction a as [|x a IH]; [done|]. exact (f_equal S IH). Qed.

Lemma substring_0_app (p r : string) :
  substring 0 (String.length p) (p +:+ r) = p.
Proof. induction p as [|x p IH]; [by destruct r|]. exact (f_equal (String x) IH). Qed.

Lemma substring_skip (p r : string) (k m : nat) :
  substring (String.length p + k) m (p +:+ r) = substring k m r.
Proof. induction p as [|x p IH]; [done|]. exact IH. Qed.

Lemma substring_all (s : string) : substring 0 (String.length s) s = s.
Proof. induction s as [|x s IH]; [done|]. exact (f_equal (String x) IH). Qed.

Lemma length_substring (s : string) (n m : nat) :
  (n + m ≤ String.length s)%nat → String.length (substring n m s) = m.
Proof.
  revert n m. induction s as [|x s IH]; intros n m Hle.
  - cbn in Hle. assert (n = 0) as -> by lia. assert (m = 0) as -> by lia. done.
  - destruct n as [|n].
    + destruct m as [|m]; [done|]. cbn. rewrite IH; [done|]. cbn in Hle. lia.
    + cbn. apply IH. cbn in Hle. lia.
Qed.

Lemma substring_split (s : string) (n : nat) :
  (n ≤ String.length s)%nat →
  s = substring 0 n s +:+ substring n (String.length s - n) s.
Proof.
  revert n. induction s as [|x s IH]; intros n Hle.
  - cbn in Hle. by assert (n = 0) as -> by lia.
  - destruct n as [|n].
    + by rewrite Nat.sub_0_r, substring_all.
    + change (String x s
              = String x (substring 0 n s +:+ substring n (String.length s - n) s)).
      rewrite <- IH; [done|]. cbn in Hle. lia.
Qed.

Lemma substring_substring (s : string) (n k m : nat) :
  (n + k + m ≤ String.length s)%nat →
  substring k m (substring n (String.length s - n) s) = substring (n + k) m s.
Proof.
  intros Hle.
  rewrite (substring_split s n) at 3 by lia.
  rewrite <- (length_substring s 0 n) at 3 by lia.
  by rewrite substring_skip.
Qed.

Lemma app_inj_length (a b a' b' : string) :
  String.length b = String.length b' → a +:+ b = a' +:+ b' → a = a' ∧ b = b'.
Proof.
  intros Hlen. revert a'. induction a as [|x a IH]; intros a' Heq.
  - destruct a' as [|x' a']; [done|]. exfalso.
    apply (f_equal String.length) in Heq.
    change (String.length b = S (String.length (a' +:+ b'))) in Heq.
    rewrite length_app_s in Heq. lia.
  - destruct a' as [|x' a'].
    + exfalso. apply (f_equal String.length) in Heq.
      change (S (String.length (a +:+ b)) = String.length b') in Heq.
      rewrite length_app_s in Heq. lia.
    + change (String x (a +:+ b) = String x' (a' +:+ b')) in Heq.
      injection Heq as -> Heq. destruct (IH _ Heq) as [-> ->]. done.
Qed.

(** ** Addresses *)

Lemma shortenAddress_cases (address : string) :
  ((String.length address ≤ 10)%nat → shortenAddress address = address)
  ∧ ((10 < String.length address)%nat →
     ∃ first middle last,
       address = first +:+ middle +:+ last
       ∧ String.length first = 6 ∧ String.length last = 4
       ∧ shortenAddress address = first +:+ "..." +:+ last
       ∧ String.length (shortenAddress address) = 13).
Proof.
  unfold shortenAddress. split; intros Hlen.
  - by rewrite (proj2 (Nat.leb_le _ _)).
  - rewrite (proj2 (Nat.leb_gt _ _)) by done.
    set (n := String.length address) in *.
    exists (substring 0 6 address), (substring 6 (n - 10) address),
      (substring (n - 4) 4 address).
    assert (H6 : String.length (substring 0 6 address) = 6)
      by (apply length_substring; lia).
    assert (H4 : String.length (substring (n - 4) 4 address) = 4)
      by (apply length_substring; lia).
    split; [|split; [done|split; [done|split; [done|]]]].
    + rewrite (substring_split address 6) at 1 by lia. f_equal. fold n.
      set (rest := substring 6 (n - 6) address).
      assert (Hrest : String.length rest = n - 6) by (apply length_substring; lia).
      rewrite (substring_split rest (n - 10)) at 1 by lia.
      rewrite Hrest. unfold rest.
      rewrite !(substring_substring address 6) by lia.
      by replace (n - 6 - (n - 10)) with 4 by lia;
         replace (6 + (n - 10)) with (n - 4) by lia.
    + by rewrite !length_app_s, H6, H4.
Qed.

(** X1. [shortenAddress] returns an address of at most 10 bytes as it is;
    a longer one is cut to its first 6 bytes, three dots and its last 4
    bytes, 13 bytes in all (the two slices are always in range). *)
Theorem shortenAddress_shape (address : string) :
  ((String.length address ≤ 10)%nat → shortenAddress address = address)
  ∧ ((10 < String.length address)%nat →
     ∃ first middle last,
       address = first +:+ middle +:+ last
       ∧ String.length first = 6 ∧ String.length last = 4
       ∧ shortenAddress address = first +:+ "..." +:+ last
       ∧ String.length (shortenAddress address) = 13).
Proof. apply shortenAddress_cases. Qed.

(** X2. Shortening is idempotent: a shortened address is shown as it is
    when it is shortened again. *)
Theorem shortenAddress_idempotent (address : string) :
  shortenAddress (shortenAddress address) = shortenAddress address.
Proof.
  destruct (shortenAddress_cases address) as [Hshort Hlong].
  destruct (le_lt_dec (String.length address) 10) as [Hle|Hgt].
  - by rewrite !Hshort.
  - destruct (Hlong Hgt) as (first & middle & last & _ & H6 & H4 & -> & H13).
    unfold shortenAddress at 1.
    rewrite !length_app_s, H6, H4. cbn [String.length Nat.add Nat.leb Nat.sub].
    rewrite <- H6 at 1. rewrite substring_0_app. do 2 f_equal.
    rewrite <- app_assoc_s.
    assert (H9 : String.length (first +:+ "...") = 9) by (by rewrite length_app_s, H6).
    rewrite <- H9, <- (Nat.add_0_r (String.length _)), substring_skip.
    rewrite <- H4. apply substring_all.
Qed.

(** ** The address format *)

Lemma eat_snoc bounds n s :
  eat bounds (S n) s = eat bounds n s ≫= eat bounds 1.
Proof.
  revert s. induction n as [|n IH]; intros s; [by destruct s as [|c s]|].
  destruct s as [|c s]; [done|].
  change (eat bounds (S (S n)) (String c s))
    with (if Regexp.in_class bounds c then eat bounds (S n) s else None).
  change (eat bounds (S n) (String c s))
    with (if Regexp.in_class bounds c then eat bounds n s else None).
  destruct (Regexp.in_class bounds c); [apply IH|done].
Qed.

Lemma run_repeat_class bounds n pos rest :
  Regexp.run (Regexp.Repeat n (Regexp.Class bounds)) pos rest
  = match eat bounds n rest with
    | Some rest' => [(n + pos, rest')]
    | None => []
    end.
Proof.
  induction n as [|n IH]; [done|].
  change (Regexp.run (Regexp.Repeat (S n) (Regexp.Class bounds)) pos rest)
    with (Regexp.run (Regexp.Repeat n (Regexp.Class bounds)) pos rest
            ≫= (λ after, Regexp.run (Regexp.Class bounds) after.1 after.2)).
  rewrite IH, eat_snoc. destruct (eat bounds n rest) as [rest'|]; [|done].
  cbn [mbind option_bind list_bind fst snd]. rewrite app_nil_r.
  destruct rest' as [|c rest']; [done|]. cbn [Regexp.run eat].
  by destruct (Regexp.in_class bounds c).
Qed.

Lemma eat_all bounds n s :
  eat bounds n s = Some ""
  ↔ String.length s = n
    ∧ ∀ c, c ∈ list_ascii_of_string s → Regexp.in_class bounds c = true.
Proof.
  revert s. induction n as [|n IH]; intros s.
  - destruct s as [|c s]; cbn.
    + split; [|done]. intros _. split; [done|]. by intros c ?%elem_of_nil.
    + split; [done|]. by intros [? _].
  - destruct s as [|c s]; [cbn; split; [done|by intros [? _]]|].
    cbn [eat String.length list_ascii_of_string].
    destruct (Regexp.in_class bounds c) eqn:Hc.
    + rewrite IH. split.
      * intros [<- Hall]. split; [done|]. by intros c' [->|?]%elem_of_cons; [|apply Hall].
      * intros [[= <-] Hall]. split; [done|]. intros c' Hin. apply Hall. by right.
    + split; [done|]. intros [_ Hall]. rewrite Hall in Hc; [done|left].
Qed.

Lemma run_cat_single r1 r2 pos rest after :
  Regexp.run r1 pos rest = [after] →
  Regexp.run (Regexp.Cat r1 r2) pos rest = Regexp.run r2 after.1 after.2.
Proof.
  intros Hrun. change (Regexp.run (Regexp.Cat r1 r2) pos rest)
    with (Regexp.run r1 pos rest ≫= (λ after, Regexp.run r2 after.1 after.2)).
  rewrite Hrun. cbn [mbind list_bind]. apply app_nil_r.
Qed.

Lemma run_cat_nil r1 r2 pos rest :
  Regexp.run r1 pos rest = [] → Regexp.run (Regexp.Cat r1 r2) pos rest = [].
Proof.
  intros Hrun. change (Regexp.run (Regexp.Cat r1 r2) pos rest)
    with (Regexp.run r1 pos rest ≫= (λ after, Regexp.run r2 after.1 after.2)).
  by rewrite Hrun.
Qed.

Lemma run_lit c pos c' rest :
  Regexp.run (Regexp.Lit c) pos (String c' rest)
  = if decide (c' = c) then [(S pos, rest)] else [].
Proof. done. Qed.

Lemma search_cons r pos c rest :
  Regexp.search r pos (String c rest)
  = match Regexp.run r pos (String c rest) with
    | _ :: _ => true
    | [] => Regexp.search r (S pos) rest
    end.
Proof. done. Qed.

Lemma search_not_at_start r pos rest :
  pos ≠ 0 → Regexp.search (Regexp.Cat Regexp.BeginText r) pos rest = false.
Proof.
  revert pos. induction rest as [|c rest IH]; intros pos Hpos.
  - cbn [Regexp.search]. rewrite run_cat_nil; [done|]. cbn. by rewrite decide_False.
  - rewrite search_cons, run_cat_nil; [by apply IH|]. cbn. by rewrite decide_False.
Qed.

Lemma in_class_hex (c : ascii) :
  Regexp.in_class [("0", "9"); ("a", "f"); ("A", "F")]%char c = is_hex_digit c.
Proof.
  unfold Regexp.in_class, is_hex_digit. cbn [existsb fst snd].
  change (Ascii.nat_of_ascii "0") with 48. change (Ascii.nat_of_ascii "9") with 57.
  change (Ascii.nat_of_ascii "a") with 97. change (Ascii.nat_of_ascii "f") with 102.
  change (Ascii.nat_of_ascii "A") with 65. change (Ascii.nat_of_ascii "F") with 70.
  by rewrite orb_false_r, orb_assoc.
Qed.

Lemma hex_digits_all (s : string) :
  hex_digits s = true ↔ ∀ c, c ∈ list_ascii_of_string s → is_hex_digit c = true.
Proof.
  induction s as [|c s IH]; cbn [hex_digits list_ascii_of_string].
  - split; [|done]. by intros _ c ?%elem_of_nil.
  - rewrite andb_true_iff, IH. split.
    + by intros [Hc Hall] c' [->|?]%elem_of_cons; [|apply Hall].
    + intros Hall. split; [apply Hall; left|]. intros c' Hin. apply Hall. by right.
Qed.

Lemma isValidHexadecimal_spec (input : string) :
  isValidHexadecimal input = true
  ↔ ∃ digits, input = "0x" +:+ digits
              ∧ String.length digits = 40 ∧ hex_digits digits = true.
Proof.
  unfold isValidHexadecimal, Regexp.MatchString.
  set (bounds := [("0", "9"); ("a", "f"); ("A", "F")]%char).
  set (tail := Regexp.Cat (Regexp.Repeat 40 _) _).
  set (re := Regexp.Cat Regexp.BeginText _).
  assert (Hbegin : ∀ rest, Regexp.run Regexp.BeginText 0 rest = [(0, rest)]) by done.
  assert (Htail : ∀ pos digits,
    Regexp.run tail pos digits
    = match eat bounds 40 digits with
      | Some "" => [(40 + pos, "")]
      | _ => []
      end).
  { intros pos digits. unfold tail.
    destruct (eat bounds 40 digits) as [rest|] eqn:Heat.
    - rewrite (run_cat_single _ _ _ _ (40 + pos, rest))
        by (by rewrite run_repeat_class, Heat).
      by destruct rest.
    - apply run_cat_nil. by rewrite run_repeat_class, Heat. }
  assert (Hhex : ∀ digits,
    eat bounds 40 digits = Some ""
    ↔ String.length digits = 40 ∧ hex_digits digits = true).
  { intros digits. rewrite eat_all, hex_digits_all.
    split; intros [Hlen Hall]; (split; [done|]); intros c Hc.
    - rewrite <- in_class_hex. by apply Hall.
    - unfold bounds. rewrite in_class_hex. by apply Hall. }
  assert (Hrun : ∀ c0 c1 digits,
    Regexp.run re 0 (String c0 (String c1 digits))
    = if decide (c0 = "0"%char ∧ c1 = "x"%char) then Regexp.run tail 2 digits else []).
  { intros c0 c1 digits. unfold re.
    rewrite (run_cat_single _ _ _ _ _ (Hbegin _)). cbn [fst snd].
    destruct (decide (c0 = "0"%char)) as [->|H0].
    2:{ rewrite decide_False by (by intros [? _]).
        apply run_cat_nil. by rewrite run_lit, decide_False. }
    rewrite (run_cat_single _ _ _ _ (1, String c1 digits)) by done. cbn [fst snd].
    destruct (decide (c1 = "x"%char)) as [->|H1].
    2:{ rewrite decide_False by (by intros [_ ?]).
        apply run_cat_nil. by rewrite run_lit, decide_False. }
    rewrite (run_cat_single _ _ _ _ (2, digits)) by done.
    by rewrite decide_True. }
  split.
  - intros Hm. destruct input as [|c0 [|c1 digits]].
    + by cbn in Hm.
    + exfalso. revert Hm. rewrite search_cons. unfold re at 1.
      rewrite (run_cat_single _ _ _ _ _ (Hbegin _)). cbn [fst snd].
      destruct (decide (c0 = "0"%char)) as [->|H0].
      * rewrite (run_cat_single _ _ _ _ (1, "")) by done.
        rewrite run_cat_nil by done. by cbn.
      * rewrite run_cat_nil by (by rewrite run_lit, decide_False). by cbn.
    + revert Hm. rewrite search_cons, Hrun, Htail.
      destruct (decide _) as [[-> ->]|Hno].
      * destruct (eat bounds 40 digits) as [[|c rest]|] eqn:Heat.
        -- intros _. exists digits. split; [done|]. by apply Hhex.
        -- unfold re. by rewrite search_not_at_start.
        -- unfold re. by rewrite search_not_at_start.
      * unfold re. by rewrite search_not_at_start.
  - intros (digits & -> & Hd). apply Hhex in Hd.
    change ("0x" +:+ digits) with (String "0" (String "x" digits)).
    rewrite search_cons, Hrun, Htail, Hd. by rewrite decide_True.
Qed.

(** X3. [isValidHexadecimal] accepts exactly the texts made of [0x]
    followed by 40 hexadecimal digits (of either case): 42 bytes, with
    nothing before or after. *)
Theorem isValidHexadecimal_iff (input : string) :
  isValidHexadecimal input = true
  ↔ ∃ digits, input = "0x" +:+ digits
              ∧ String.length digits = 40 ∧ hex_digits digits = true.
Proof. apply isValidHexadecimal_spec. Qed.

Lemma isValidHexadecimal_length (address : string) :
  isValidHexadecimal address = true → String.length address = 42.
Proof.
  intros (digits & -> & Hlen & _)%isValidHexadecimal_spec.
  rewrite length_app_s, Hlen. done.
Qed.

(** X4. The key under which a subscription is registered determines the
    recipient and the address, for addresses of the accepted format: two
    subscriptions with the same key are the same subscription. *)
Theorem wallet_key_injective (chatID address chatID' address' : string) :
  isValidHexadecimal address = true →
  isValidHexadecimal address' = true →
  wallet_key chatID address = wallet_key chatID' address' →
  chatID = chatID' ∧ address = address'.
Proof.
  intros Hv Hv' Heq. unfold wallet_key in Heq.
  rewrite <- !app_assoc_s in Heq.
  apply app_inj_length in Heq as [Heq ->].
  2:{ apply isValidHexadecimal_length in Hv, Hv'. congruence. }
  by apply app_inj_length in Heq as [-> _].
Qed.

(** ** Indexing the positions of a response *)

(** X5. [fetchPositions] indexes the positions of the response by coin:
    when the response lists a coin several times the last entry is the
    one kept, and every position of the index sits under its own coin. *)
Theorem index_positions_last_wins (assetPositions : list AssetPosition) (coin : string) :
  index_positions assetPositions !! coin
  = last (filter (λ position, Coin position = coin)
            (AssetPosition_Position <$> assetPositions))
  ∧ ∀ position, index_positions assetPositions !! coin = Some position →
      Coin position = coin
      ∧ position ∈ AssetPosition_Position <$> assetPositions.
Proof.
  assert (Hlast : index_positions assetPositions !! coin
    = last (filter (λ position, Coin position = coin)
              (AssetPosition_Position <$> assetPositions))).
  { unfold index_positions.
    induction assetPositions as [|pos l IH] using rev_ind; [done|].
    rewrite foldl_snoc, fmap_app, filter_app. cbn [fmap list_fmap].
    destruct (decide (Coin (AssetPosition_Position pos) = coin)) as [Hc|Hc].
    - rewrite filter_cons_True by done. rewrite filter_nil, last_snoc, <- Hc.
      apply lookup_insert_eq.
    - rewrite filter_cons_False by done. rewrite filter_nil, app_nil_r.
      by rewrite lookup_insert_ne. }
  split; [done|]. intros position. rewrite Hlast. intros Hl.
  apply last_Some_elem_of, list_elem_of_filter in Hl. done.
Qed.

(** ** A snapshot compared with itself *)

Lemma sub_diag_zero_or_nan (x : float) : zero_or_nan (x - x).
Proof.
  unfold zero_or_nan. rewrite sub_spec. unfold SF64sub, SFsub.
  destruct (Prim2SF x) as [[]|[]| |s m e]; try done.
  by rewrite Z.sub_diag.
Qed.

Lemma div_zero_or_nan (z y : float) : zero_or_nan z → zero_or_nan (z / y).
Proof.
  unfold zero_or_nan. rewrite div_spec. unfold SF64div, SFdiv.
  by destruct (Prim2SF z), (Prim2SF y).
Qed.

Lemma abs_zero_or_nan (z : float) : zero_or_nan z → zero_or_nan (PrimFloat.abs z).
Proof. unfold zero_or_nan. rewrite abs_spec. by destruct (Prim2SF z). Qed.

Lemma mul_100_zero_or_nan (z : float) : zero_or_nan z → zero_or_nan (z * 100).
Proof.
  unfold zero_or_nan. rewrite mul_spec. unfold SF64mul, SFmul.
  by destruct (Prim2SF z).
Qed.

Lemma zero_or_nan_below_1 (z : float) : zero_or_nan z → (1 <=? z)%float = false.
Proof.
  unfold zero_or_nan. rewrite leb_spec. unfold SFleb, SFcompare.
  by destruct (Prim2SF z).
Qed.

Section Unchanged.
Context `{GoRuntime}.

Lemma sziChangePercent_diag (szi : float) :
  (1 <=? sziChangePercent szi szi)%float = false.
Proof.
  unfold sziChangePercent. destruct (negb _); [|done].
  apply zero_or_nan_below_1, mul_100_zero_or_nan, abs_zero_or_nan,
    div_zero_or_nan, sub_diag_zero_or_nan.
Qed.

Lemma detect_events_diag positions state rangeCurrent rangeLast :
  LastPositions state = positions →
  ranges positions rangeCurrent → ranges positions rangeLast →
  detect_events positions state rangeCurrent rangeLast = [].
Proof.
  intros <- Hc Hl. unfold detect_events.
  assert (H1 : rangeCurrent ≫= diff_current (LastPositions state) = []).
  { assert (Hin : ∀ entry, entry ∈ rangeCurrent → LastPositions state !! entry.1 = Some entry.2)
      by (intros [coin current] Hin; by apply (ranges_lookup _ _ _ _ Hc)).
    clear Hc. induction rangeCurrent as [|[coin current] l IH]; [done|].
    cbn [mbind list_bind]. rewrite IH by (intros; apply Hin; by right).
    pose proof (Hin (coin, current) (list_elem_of_here _ _)) as Hlook.
    cbn [fst snd] in Hlook. unfold diff_current.
    by rewrite Hlook, sziChangePercent_diag. }
  assert (H2 : rangeLast ≫= diff_closed (LastPositions state) = []).
  { assert (Hin : ∀ entry, entry ∈ rangeLast → LastPositions state !! entry.1 = Some entry.2)
      by (intros [coin last] Hin; by apply (ranges_lookup _ _ _ _ Hl)).
    clear Hl. induction rangeLast as [|[coin last] l IH]; [done|].
    cbn [mbind list_bind]. rewrite IH by (intros; apply Hin; by right).
    pose proof (Hin (coin, last) (list_elem_of_here _ _)) as Hlook.
    cbn [fst snd] in Hlook. unfold diff_closed. by rewrite Hlook. }
  by rewrite H1, H2.
Qed.

End Unchanged.

(** X6. A snapshot whose positions are the positions of the stored state
    gives no event and an empty text, whatever the sizes are (also sizes
    that are infinite or not numbers) and whatever the account value is:
    the multi-tenant monitor stays silent while the positions stay as
    they were stored. *)
Theorem unchanged_positions_are_silent `{GoRuntime} (wallet : WalletConfig)
    (currentPositions : gmap string Position) (currentAccountValue : float)
    (state : AccountState) (timeStamp : string)
    (rangeCurrent rangeLast : list (string * Position)) :
  LastPositions state = currentPositions →
  ranges currentPositions rangeCurrent →
  ranges (LastPositions state) rangeLast →
  detect_events currentPositions state rangeCurrent rangeLast = []
  ∧ detectPositionChanges wallet currentPositions currentAccountValue state timeStamp
      rangeCurrent rangeLast = "".
Proof.
  intros Hsame Hc Hl. rewrite Hsame in Hl.
  rewrite detectPositionChanges_render, detect_events_diag by done. done.
Qed.

Lemma single_detect_diag `{GoRuntime} (wallet : SingleTenant.WalletConfig)
    (positions : gmap string Position) (value : float) (state : AccountState)
    (timeStamp : string) (rangeCurrent rangeLast rangeSummary : list (string * Position)) :
  LastPositions state = positions →
  LastAccountValue state = value →
  ranges positions rangeCurrent →
  ranges positions rangeLast →
  SingleTenant.detectPositionChanges wallet positions value state
    timeStamp rangeCurrent rangeLast rangeSummary = "".
Proof.
  intros Hsame Hvalue Hc Hl.
  rewrite single_detectPositionChanges_text, detect_events_diag by done.
  rewrite Hvalue. unfold SingleTenant.accountValueChangePercent.
  assert (Hquiet : (1 <=? PrimFloat.abs
                            (if (0 <? value)%float
                             then (value - value) / value * 100
                             else 0))%float = false).
  { destruct (0 <? value)%float; [|done].
    apply zero_or_nan_below_1, abs_zero_or_nan, mul_100_zero_or_nan,
      div_zero_or_nan, sub_diag_zero_or_nan. }
  by rewrite Hquiet.
Qed.

(** X7. In the single-tenant monitor a snapshot equal to the stored state
    (same positions, same account value) gives the empty text: neither a
    position report nor an account-value report, whatever the values
    are. *)
Theorem single_unchanged_snapshot_is_silent `{GoRuntime} (wallet : SingleTenant.WalletConfig)
    (currentPositions : gmap string Position) (currentAccountValue : float)
    (state : AccountState) (timeStamp : string)
    (rangeCurrent rangeLast rangeSummary : list (string * Position)) :
  LastPositions state = currentPositions →
  LastAccountValue state = currentAccountValue →
  ranges currentPositions rangeCurrent →
  ranges (LastPositions state) rangeLast →
  SingleTenant.detectPositionChanges wallet currentPositions currentAccountValue state
    timeStamp rangeCurrent rangeLast rangeSummary = "".
Proof.
  intros Hsame Hvalue Hc Hl. rewrite Hsame in Hl. by apply single_detect_diag.
Qed.

(** X8. Detection reports at most one event per instrument.  An
    instrument is reported as opened exactly when it is in the snapshot
    and not in the stored state, as closed exactly when it is in the
    stored state and not in the snapshot (the event carries the stored
    position), and a resize is only ever reported for an instrument
    that is in both. *)
Theorem one_event_per_instrument `{GoRuntime}
    (currentPositions : gmap string Position) (state : AccountState)
    (rangeCurrent rangeLast : list (string * Position)) :
  ranges currentPositions rangeCurrent →
  ranges (LastPositions state) rangeLast →
  let events := detect_events currentPositions state rangeCurrent rangeLast in
  (∀ coin, (length (filter (λ e, event_coin e = coin) events) ≤ 1)%nat)
  ∧ (∀ coin current,
       Opened coin current ∈ events
       ↔ currentPositions !! coin = Some current ∧ LastPositions state !! coin = None)
  ∧ (∀ coin last,
       Closed coin last ∈ events
       ↔ LastPositions state !! coin = Some last ∧ currentPositions !! coin = None)
  ∧ (∀ e, e ∈ events → is_resized e = true →
       is_Some (currentPositions !! event_coin e)
       ∧ is_Some (LastPositions state !! event_coin e)).
Proof.
  intros Hc Hl events.
  pose proof (λ coin, detect_events_of_coin currentPositions state rangeCurrent rangeLast
                        coin Hc Hl) as Hcoin.
  fold events in Hcoin.
  assert (Hin : ∀ e, e ∈ events ↔ e ∈ filter (λ e', event_coin e' = event_coin e) events).
  { intros e. rewrite list_elem_of_filter. split; [by intros ?|by intros [_ ?]]. }
  split; [|split; [|split]].
  - intros coin. rewrite Hcoin.
    destruct (currentPositions !! coin) as [current|].
    + unfold diff_current. destruct (LastPositions state !! coin); [|cbn; lia].
      destruct (1 <=? _)%float; cbn; lia.
    + destruct (LastPositions state !! coin); cbn; lia.
  - intros coin current. rewrite Hin, Hcoin. cbn [event_coin].
    destruct (currentPositions !! coin) as [current'|].
    + unfold diff_current. destruct (LastPositions state !! coin) as [last|].
      * split; [|by intros [_ ?]].
        destruct (1 <=? _)%float; [|by intros ?%elem_of_nil].
        by intros ?%list_elem_of_singleton.
      * rewrite list_elem_of_singleton. split; [by intros [= ->]|by intros [[= ->] _]].
    + split; [|by intros [? _]].
      destruct (LastPositions state !! coin); [|by intros ?%elem_of_nil].
      by intros ?%list_elem_of_singleton.
  - intros coin last. rewrite Hin, Hcoin. cbn [event_coin].
    destruct (currentPositions !! coin) as [current|].
    + split; [|by intros [_ ?]].
      unfold diff_current. destruct (LastPositions state !! coin).
      * destruct (1 <=? _)%float; [|by intros ?%elem_of_nil].
        by intros ?%list_elem_of_singleton.
      * by intros ?%list_elem_of_singleton.
    + destruct (LastPositions state !! coin) as [last'|].
      * rewrite list_elem_of_singleton. split; [by intros [= ->]|by intros [[= ->] _]].
      * split; [by intros ?%elem_of_nil|by intros [? _]].
  - intros e He Hres. apply Hin in He. rewrite Hcoin in He.
    destruct (currentPositions !! event_coin e) as [current|].
    + split; [done|]. revert He. unfold diff_current.
      destruct (LastPositions state !! event_coin e); [done|].
      intros He%list_elem_of_singleton. by rewrite He in Hres.
    + exfalso. destruct (LastPositions state !! event_coin e).
      * apply list_elem_of_singleton in He. by rewrite He in Hres.
      * by apply elem_of_nil in He.
Qed.


(** * Subscriptions: further properties *)

(** X9. [hasSubscribers] answers whether the registry holds a
    subscription to the address whose recipient is not the excluded
    one, whatever order its loop takes, and it changes nothing. *)
Theorem hasSubscribers_any_order `{GoRuntime} (E : Env)
    (address excludeChatID : string) (w : World) :
  fair E →
  let r := hasSubscribers E address excludeChatID w in
  (r.1 = true ↔ other_subscriber (wallets w) address excludeChatID)
  ∧ wallets r.2 = wallets w ∧ accountStates r.2 = accountStates w
  ∧ store r.2 = store w ∧ trace r.2 = trace w.
Proof.
  intros Hfair r.
  destruct (hasSubscribers_run E address excludeChatID w Hfair) as (others & Hrun & Hiff).
  unfold r. rewrite Hrun. cbn [fst snd later wallets accountStates store trace].
  by rewrite app_nil_r.
Qed.

(** X10. Unsubscribing a pair that is not registered changes neither the
    registry nor the states nor the store; its only effect is the "not
    subscribed" notice to the recipient. *)
Theorem unsubscribe_unknown_is_noop `{GoRuntime} (E : Env)
    (chatID address : string) (w : World) :
  wallets w !! wallet_key chatID address = None →
  let w' := (unsubscribeWallet E chatID address w).2 in
  let notice := "地址 " +:+ shortenAddress address +:+ " 未被订阅" in
  wallets w' = wallets w
  ∧ accountStates w' = accountStates w
  ∧ store w' = store w
  ∧ ∃ delivered, trace w' = trace w ++ [IoSend chatID notice delivered].
Proof.
  intros Hw w' notice. unfold w', unsubscribeWallet. run_io. rewrite Hw. simpl_world.
  repeat split. by eexists.
Qed.

(** X11. Unsubscribing one recipient while another one still subscribes
    to the address removes only that recipient's subscription: the other
    subscription stays, and the state of the address stays as it is, in
    memory and in the store. *)
Theorem unsubscribe_keeps_state_for_others `{GoRuntime} (E : Env)
    (chatID address : string) (w : World) (wallet : WalletConfig)
    (key' : string) (other : WalletConfig) :
  fair E →
  wallets w !! wallet_key chatID address = Some wallet →
  key' ≠ wallet_key chatID address →
  wallets w !! key' = Some other →
  Address other = address →
  ChatID other ≠ "" →
  let w' := (unsubscribeWallet E chatID address w).2 in
  wallets w' = delete (wallet_key chatID address) (wallets w)
  ∧ wallets w' !! key' = Some other
  ∧ accountStates w' = accountStates w
  ∧ account_states (store w') = account_states (store w).
Proof.
  intros Hfair Hw Hne Hother Haddr Hchat w'.
  destruct (unsubscribeWallet_existing E chatID address w wallet Hfair Hw)
    as (Hwallets & _ & _ & Hkept).
  fold w' in Hwallets, Hkept.
  assert (Hlook : delete (wallet_key chatID address) (wallets w) !! key' = Some other)
    by (by rewrite lookup_delete_ne).
  destruct Hkept as [Hs Hd]; [by exists key', other|].
  by rewrite Hwallets.
Qed.


(** ** What the computations keep *)

Section Keeps.
Context (R : relation World) `{!PreOrder R}.

Lemma keeps_ret {A} (x : A) : keeps R (ret x).
Proof. intros w. reflexivity. Qed.

Lemma keeps_get_world : keeps R get_world.
Proof. intros w. reflexivity. Qed.

Lemma keeps_bind {A B} (c : IO A) (k : A → IO B) :
  keeps R c → (∀ x, keeps R (k x)) → keeps R (bind c k).
Proof.
  intros Hc Hk w. unfold bind. specialize (Hc w).
  destruct (c w) as [x w1]. etransitivity; [exact Hc|apply Hk].
Qed.

Lemma keeps_for_each {A} (l : list A) (body : A → IO unit) :
  (∀ x, x ∈ l → keeps R (body x)) → keeps R (for_each l body).
Proof.
  induction l as [|x l IH]; intros Hbody; [apply keeps_ret|].
  cbn [for_each]. apply keeps_bind; [apply Hbody; left|].
  intros _. apply IH. intros y Hy. apply Hbody. by right.
Qed.

End Keeps.

Global Instance only_events_preorder (P : IOEvent → Prop) : PreOrder (only_events P).
Proof.
  split.
  - intros w. exists []. by rewrite app_nil_r.
  - intros w1 w2 w3 (evs1 & Ht1 & Hp1) (evs2 & Ht2 & Hp2).
    exists (evs1 ++ evs2). rewrite Ht2, Ht1, app_assoc. split; [done|].
    by apply Forall_app.
Qed.

Global Instance same_registry_preorder : PreOrder same_registry.
Proof. split; [done|]. unfold same_registry. intros w1 w2 w3 H1 H2. congruence. Qed.

Global Instance states_stay_preorder : PreOrder states_stay.
Proof. split; [by intros w a|]. intros w1 w2 w3 H1 H2 a Ha. by apply H2, H1. Qed.

(** Steps that leave the trace as it is, or add one event. *)
Lemma only_events_silent (P : IOEvent → Prop) {A} (c : IO A) :
  (∀ w, trace (c w).2 = trace w) → keeps (only_events P) c.
Proof. intros Hc w. exists []. by rewrite Hc, app_nil_r. Qed.

Lemma only_events_record (P : IOEvent → Prop) (ev : IOEvent) :
  P ev → keeps (only_events P) (record ev).
Proof. intros Hev w. exists [ev]. split; [done|]. by constructor. Qed.

Lemma same_registry_step {A} (c : IO A) :
  (∀ w, wallets (c w).2 = wallets w) → keeps same_registry c.
Proof. intros Hc w. apply Hc. Qed.

Lemma no_panic_panics (evs : list IOEvent) : Forall no_panic evs → panics evs = [].
Proof.
  induction 1 as [|ev evs Hev _ IH]; [done|].
  destruct ev; cbn in *; done.
Qed.

(** Takes a computation apart, down to its steps. *)
Ltac keeps_steps :=
  unfold saveSubscriptionToDB, deleteSubscriptionFromDB, saveAccountStateToDB,
    dbExec, sendMessage, fetchPositions, call_generateInitialStatusMessage,
    call_detectPositionChanges, range_over, timeNow, log_if, logPrintf;
  repeat match goal with
    | |- keeps ?R (ret _) => apply (keeps_ret R)
    | |- keeps ?R get_world => apply (keeps_get_world R)
    | |- keeps ?R (bind _ _) => apply (keeps_bind R); [|intros ?; cbv zeta]
    | |- keeps ?R (for_each _ _) => apply (keeps_for_each R); intros ? ?
    | |- keeps (only_events _) (record _) =>
        apply only_events_record; first [done | by eexists]
    | |- keeps (only_events _) _ => by apply only_events_silent
    | |- keeps same_registry _ => by apply same_registry_step
    | |- keeps _ (match ?x with _ => _ end) => destruct x
    end.

Section KeptByProgram.
Context `{GoRuntime} (E : Env).

Lemma monitor_address_without_panic group :
  group.2 ≠ [] → keeps (only_events no_panic) (monitor_address E group).
Proof.
  destruct group as [address [|first subscribers]]; [done|]. intros _.
  unfold monitor_address, notify_subscriber. keeps_steps.
Qed.

Lemma monitor_address_answered group :
  keeps (only_events (answered E)) (monitor_address E group).
Proof. unfold monitor_address, notify_subscriber. keeps_steps. Qed.

Lemma monitor_address_same_registry group :
  keeps same_registry (monitor_address E group).
Proof. unfold monitor_address, notify_subscriber. keeps_steps. Qed.

Lemma goroutine_same_registry g : keeps same_registry (subscribeWallet_goroutine E g).
Proof. unfold subscribeWallet_goroutine, hasSubscribers. keeps_steps. Qed.

End KeptByProgram.

Section KeptByCycle.
Context `{GoRuntime} (E : Env).

Lemma monitorAllWallets_keeps (R : relation World) `{!PreOrder R} :
  fair E →
  (∀ group, group.2 ≠ [] → keeps R (monitor_address E group)) →
  (∀ w w', wallets w' = wallets w → accountStates w' = accountStates w →
            store w' = store w → trace w' = trace w → R w w') →
  keeps R (monitorAllWallets E).
Proof.
  intros Hfair Hbody Hclock w. unfold monitorAllWallets. run_io.
  rewrite (copy_of_map (wallets w)) by apply Hfair.
  set (order := range_order E WalletConfig (S (clock w)) (wallets w)).
  set (groups := range_order E (list WalletConfig) (S (S (clock w))) (group_by_address order)).
  destruct (groups_of_registry (wallets w) order groups) as (_ & _ & Hsubs);
    [apply Hfair..|].
  match goal with
  | |- R w (for_each groups _ ?W0).2 =>
      transitivity W0; [by apply Hclock|]
  end.
  apply (keeps_for_each R). intros group Hin. apply Hbody. by apply Hsubs.
Qed.

End KeptByCycle.

(** X12. A poll cycle never panics: every group it goes through has a
    first subscriber, so the index [subscribers[0]] is in range, and
    the state the detection reads is never nil. *)
Theorem poll_cycle_never_panics `{GoRuntime} (E : Env) (w : World) :
  fair E →
  ∃ evs, trace (monitorAllWallets E w).2 = trace w ++ evs ∧ panics evs = [].
Proof.
  intros Hfair.
  destruct (monitorAllWallets_keeps E (only_events no_panic) Hfair) with (w := w)
    as (evs & Ht & Hevs).
  - apply monitor_address_without_panic.
  - intros w1 w2 _ _ _ Ht. exists []. by rewrite app_nil_r.
  - exists evs. split; [done|]. by apply no_panic_panics.
Qed.


Section GoroutineFacts.
Context `{GoRuntime} (E : Env).

(** Runs the call of [hasSubscribers] that the goal is stuck on. *)
Ltac run_hasSubscribers Hfair others Hothers :=
  match goal with
  | |- context [hasSubscribers ?E ?a ?x ?W] =>
      let Hrun := fresh "Hrun" in
      destruct (hasSubscribers_run E a x W Hfair) as (others & Hrun & Hothers);
      rewrite Hrun; clear Hrun;
      cbn [fst snd wallets accountStates store trace clock later] in Hothers;
      simpl_world
  end.

Lemma goroutine_messages g w :
  fair E →
  let w' := (subscribeWallet_goroutine E g w).2 in
  ∃ evs message,
    trace w' = trace w ++ evs
    ∧ fetched evs = [go_address g]
    ∧ sent evs = [(go_chatID g, message)]
    ∧ match http_post E (clock w) (go_address g) with
      | inl err =>
          message = "获取地址 " +:+ shortenAddress (go_address g) +:+ " 初始状态失败: " +:+ err
      | inr responseData =>
          ∃ timeStamp rangePositions,
            ranges (snapshot_of responseData).1 rangePositions
            ∧ message = generateInitialStatusMessage (go_wallet g)
                          (snapshot_of responseData).1 (snapshot_of responseData).2
                          timeStamp rangePositions
      end.
Proof.
  intros Hfair w'. unfold w', subscribeWallet_goroutine. run_io.
  destruct (http_post E (clock w) (go_address g)) as [err|responseData]; simpl_world.
  { eexists _, _. split; [rewrite <- !app_assoc; reflexivity|]. done. }
  set (message := generateInitialStatusMessage _ _ _ _ _).
  assert (Hmsg : ∃ timeStamp rangePositions,
            ranges (snapshot_of responseData).1 rangePositions
            ∧ message = generateInitialStatusMessage (go_wallet g)
                          (snapshot_of responseData).1 (snapshot_of responseData).2
                          timeStamp rangePositions).
  { eexists _, _. split; [apply Hfair|]. done. }
  clearbody message.
  destruct (bot_send E _ _ _) as [e|]; simpl_world.
  all: case_decide; simpl_world.
  all: try run_hasSubscribers Hfair others Hothers.
  all: try (destruct others; simpl_world).
  all: try (destruct (accountStates w !! go_address g); simpl_world).
  all: try match goal with
       | |- context [db_exec E ?n ?q] => destruct (db_exec E n q) as [e'|]; simpl_world
       end.
  all: eexists _, message; (split; [rewrite <- ?app_assoc; reflexivity|]); done.
Qed.

End GoroutineFacts.

Section LifeCycle.
Context `{GoRuntime} (E : Env).

Ltac run_hasSubscribers Hfair others Hothers :=
  match goal with
  | |- context [hasSubscribers ?E ?a ?x ?W] =>
      let Hrun := fresh "Hrun" in
      destruct (hasSubscribers_run E a x W Hfair) as (others & Hrun & Hothers);
      rewrite Hrun; clear Hrun;
      cbn [fst snd wallets accountStates store trace clock later] in Hothers;
      simpl_world
  end.

(** The goroutine of a subscription finds no state for its address. *)
Lemma goroutine_without_state g w responseData :
  fair E →
  accountStates w !! go_address g = None →
  ¬ other_subscriber (wallets w) (go_address g) (go_chatID g) →
  http_post E (clock w) (go_address g) = inr responseData →
  let w' := (subscribeWallet_goroutine E g w).2 in
  last (trace w') = Some (IoPanic "nil pointer dereference")
  ∧ accountStates w' = accountStates w ∧ store w' = store w.
Proof.
  intros Hfair Hstate Hother Hpost w'. unfold w', subscribeWallet_goroutine. run_io.
  rewrite Hpost. simpl_world.
  destruct (bot_send E _ _ _) as [e|]; simpl_world.
  all: case_decide; simpl_world.
  all: try run_hasSubscribers Hfair others Hothers.
  all: try (destruct others; simpl_world; [exfalso; apply Hother; by apply Hothers|]).
  all: rewrite Hstate; simpl_world.
  all: by rewrite last_snoc.
Qed.

(** The registry and the states after a new subscription was removed
    again. *)
Lemma subscribe_unsubscribe_registry chatID address name w :
  fair E →
  wallets w !! wallet_key chatID address = None →
  (∀ key other, wallets w !! key = Some other → Address other ≠ address) →
  let r := subscribeWallet E chatID address name w in
  ∀ w1,
    wallets w1 = wallets r.2 →
    let w2 := (unsubscribeWallet E chatID address w1).2 in
    wallets w2 = wallets w
    ∧ accountStates w2 = delete address (accountStates w1)
    ∧ subscriptions (store w2)
      = (if is_nil (db_exec E (clock w1) (DeleteSubscription chatID address))
         then delete (chatID, address) (subscriptions (store w1))
         else subscriptions (store w1))
    ∧ account_states (store w2)
      = (if is_nil (db_exec E (2 + clock w1) (DeleteAccountState address))
         then delete address (account_states (store w1))
         else account_states (store w1)).
Proof.
  intros Hfair Hw Hnone r w1 Hw1 w2.
  destruct (subscribeWallet_new E chatID address name w Hw) as (_ & Hwallets & _).
  fold r in Hwallets. rewrite Hwallets in Hw1.
  assert (Hreg : delete (wallet_key chatID address) (wallets w1) = wallets w).
  { rewrite Hw1, delete_insert_eq. by apply delete_id. }
  destruct (unsubscribeWallet_existing E chatID address w1
              {| Address := address; Name := name; ChatID := chatID |} Hfair)
    as (Hwallets2 & Hsubs & Hdeleted & _).
  { by rewrite Hw1, lookup_insert_eq. }
  fold w2 in Hwallets2, Hsubs, Hdeleted. rewrite Hreg in Hwallets2, Hdeleted.
  destruct Hdeleted as [Hs Hd].
  { intros (key & other & Hlook & Haddr & _). by apply (Hnone key other). }
  done.
Qed.

End LifeCycle.


(** X14. When a recipient subscribes to an address nobody else follows
    and unsubscribes before the goroutine of the subscription has run,
    the state of the address is gone when the goroutine runs; if its
    fetch succeeds, the goroutine assigns through the nil state: the
    program panics with a nil pointer dereference. *)
Theorem unsubscribe_before_initial_fetch_panics `{GoRuntime} (E : Env)
    (chatID address name : string) (w : World) (responseData : Response) :
  fair E →
  wallets w !! wallet_key chatID address = None →
  (∀ key other, wallets w !! key = Some other → Address other ≠ address) →
  let r := subscribeWallet E chatID address name w in
  let w2 := (unsubscribeWallet E chatID address r.2).2 in
  http_post E (clock w2) address = inr responseData →
  ∃ g, r.1 = Some g
       ∧ accountStates w2 !! address = None
       ∧ last (trace (subscribeWallet_goroutine E g w2).2)
         = Some (IoPanic "nil pointer dereference").
Proof.
  intros Hfair Hw Hnone r w2 Hpost.
  destruct (subscribeWallet_new E chatID address name w Hw) as (Hg & _).
  fold r in Hg. eexists. split; [exact Hg|].
  destruct (subscribe_unsubscribe_registry E chatID address name w Hfair Hw Hnone r.2 eq_refl)
    as (Hwallets2 & Hstates2 & _).
  fold r w2 in Hwallets2, Hstates2.
  assert (Hgone : accountStates w2 !! address = None)
    by (by rewrite Hstates2, lookup_delete_eq).
  split; [done|].
  eapply goroutine_without_state; [done|done| |done].
  intros (key & other & Hlook & Haddr & _). cbn [go_address] in Haddr.
  rewrite Hwallets2 in Hlook. by apply (Hnone key other).
Qed.


Lemma Forall2_impl_both {A B} (P Q : A → B → Prop) (l : list A) (k : list B) :
  Forall2 P l k → (∀ x y, x ∈ l → y ∈ k → P x y → Q x y) → Forall2 Q l k.
Proof.
  induction 1 as [|x y l k Hxy _ IH]; intros Himp; constructor.
  - apply Himp; [left|left|done].
  - apply IH. intros x' y' Hx Hy. apply Himp; by right.
Qed.

Lemma Forall2_elem_of_left {A B} (P : A → B → Prop) (l : list A) (k : list B) (x : A) :
  Forall2 P l k → x ∈ l → ∃ y, y ∈ k ∧ P x y.
Proof.
  induction 1 as [|x' y l k Hxy _ IH]; [by intros ?%elem_of_nil|].
  intros [->|Hin]%elem_of_cons.
  - exists y. split; [left|done].
  - destruct (IH Hin) as (y' & Hy' & HP). exists y'. split; [by right|done].
Qed.

Lemma executed_app (evs1 evs2 : list IOEvent) :
  executed (evs1 ++ evs2) = executed evs1 ++ executed evs2.
Proof. apply omap_app. Qed.

Section Settled.
Context `{GoRuntime} (E : Env).

Lemma monitorAllWallets_answered w :
  fair E → only_events (answered E) w (monitorAllWallets E w).2.
Proof.
  intros Hfair. apply (monitorAllWallets_keeps E (only_events (answered E)) Hfair).
  - intros group _. apply monitor_address_answered.
  - intros w1 w2 _ _ _ Ht. exists []. by rewrite app_nil_r.
Qed.

(** A state that is the snapshot does not differ from it. *)
Lemma snapshot_settled (snapshot : gmap string Position * float) :
  ¬ changed snapshot (state_of_snapshot snapshot).
Proof.
  unfold changed. intros Hne. apply Hne.
  apply detect_events_diag; [done|apply ranges_map_to_list..].
Qed.

End Settled.

(** X15. When the exchange keeps giving the same answer for every
    address, the poll cycle that follows a poll cycle sends no message
    and issues no statement, and it leaves the state of every subscribed
    address as the first cycle left it: a change is notified once. *)
Theorem second_poll_is_silent `{GoRuntime} (E : Env) (w : World) :
  fair E →
  (∀ n n' address, http_post E n address = http_post E n' address) →
  let w1 := (monitorAllWallets E w).2 in
  let w2 := (monitorAllWallets E w1).2 in
  ∃ evs, trace w2 = trace w1 ++ evs
         ∧ sent evs = [] ∧ executed evs = []
         ∧ ∀ key wallet, wallets w !! key = Some wallet →
             accountStates w2 !! Address wallet = accountStates w1 !! Address wallet.
Proof.
  intros Hfair Hsteady w1 w2.
  pose proof (monitorAllWallets_answered E w Hfair) as (evs1 & Hevs1 & Hans1).
  fold w1 in Hevs1.
  pose proof (monitorAllWallets_answered E w1 Hfair) as (evs2 & Hevs2 & Hans2).
  fold w2 in Hevs2.
  destruct (monitorAllWallets_run E w Hfair)
    as (groups1 & W1 & segs1 & Hrun1 & Hw1 & Ht1 & Houts1 & _ & Hdom1 & _).
  assert (W1 = w1) as -> by (unfold w1; by rewrite Hrun1). clear Hrun1.
  destruct (monitorAllWallets_run E w1 Hfair)
    as (groups2 & W2 & segs2 & Hrun2 & Hw2 & Ht2 & Houts2 & _ & Hdom2 & _).
  assert (W2 = w2) as -> by (unfold w2; by rewrite Hrun2). clear Hrun2.
  rewrite Ht1 in Hevs1. apply app_inv_head in Hevs1. subst evs1.
  rewrite Ht2 in Hevs2. apply app_inv_head in Hevs2. subst evs2.
  rewrite Forall_concat in Hans1, Hans2.
  rewrite Forall_forall in Hans1, Hans2.
  assert (Hquiet : Forall2
    (λ (group : string * list WalletConfig) segment,
       sent segment = [] ∧ executed segment = []
       ∧ accountStates w2 !! group.1 = accountStates w1 !! group.1)
    groups2 segs2).
  { eapply Forall2_impl_both; [exact Houts2|].
    intros [address subs2] seg2 Hg2 Hs2 (answer2 & rest2 & Hseg2 & _ & _ & Hcases2).
    cbn [fst snd] in *.
    (* the answer of the second fetch *)
    assert (Ha2 : answer2 = http_post E 0 address).
    { specialize (Hans2 seg2 Hs2). rewrite Hseg2 in Hans2.
      apply Forall_cons in Hans2 as [[n ->] _]. apply Hsteady. }
    (* the group of the address in the first cycle *)
    assert (Hin1 : address ∈ groups1.*1).
    { apply Hdom1. rewrite <- Hw1. apply Hdom2.
      apply list_elem_of_fmap. by exists (address, subs2). }
    apply list_elem_of_fmap in Hin1 as ([address' subs1] & Heq & Hg1).
    cbn [fst] in Heq. subst address'.
    destruct (Forall2_elem_of_left _ _ _ _ Houts1 Hg1)
      as (seg1 & Hs1 & answer1 & rest1 & Hseg1 & _ & _ & Hcases1).
    cbn [fst snd] in *.
    assert (Ha1 : answer1 = http_post E 0 address).
    { specialize (Hans1 seg1 Hs1). rewrite Hseg1 in Hans1.
      apply Forall_cons in Hans1 as [[n ->] _]. apply Hsteady. }
    rewrite <- Ha2 in Ha1. subst answer1. rewrite Hseg2.
    destruct answer2 as [err|responseData].
    { destruct Hcases2 as (Hst & _ & Hsent & Hexec). done. }
    cbv zeta in Hcases1, Hcases2.
    destruct Hcases1 as [Hsame1 Hdiff1]. destruct Hcases2 as [Hsame2 _].
    set (snapshot := snapshot_of responseData) in *.
    assert (Hstill : ¬ changed snapshot (default zero_state (accountStates w1 !! address))).
    { destruct (changed_dec snapshot (default zero_state (accountStates w !! address)))
        as [Hch|Hno].
      - destruct (Hdiff1 Hch) as [-> _]. apply snapshot_settled.
      - destruct (Hsame1 Hno) as [-> _]. done. }
    destruct (Hsame2 Hstill) as (Hst2 & _ & ->).
    split; [done|]. split; [done|]. rewrite Hst2.
    destruct (changed_dec snapshot (default zero_state (accountStates w !! address)))
      as [Hch|Hno].
    - by destruct (Hdiff1 Hch) as [-> _].
    - by destruct (Hsame1 Hno) as [-> _]. }
  exists (concat segs2). split; [done|].
  assert (Hall : sent (concat segs2) = [] ∧ executed (concat segs2) = []).
  { clear -Hquiet. induction Hquiet as [|g s gs ss (Hs & Hx & _) _ [IHs IHx]]; [done|].
    cbn [concat]. by rewrite sent_app, executed_app, Hs, Hx, IHs, IHx. }
  destruct Hall as [Hsent Hexec]. split; [done|]. split; [done|].
  intros key wallet Hlook.
  assert (Hin2 : Address wallet ∈ groups2.*1)
    by (apply Hdom2; rewrite Hw1; by exists key, wallet).
  apply list_elem_of_fmap in Hin2 as ([address subs] & Heq & Hg2).
  cbn [fst] in Heq. subst address.
  destruct (Forall2_elem_of_left _ _ _ _ Hquiet Hg2) as (seg & _ & _ & _ & Hst). done.
Qed.


(** * The command handler *)

(** ** Prefixes and chat ids *)

Lemma prefix_app (p rest : string) : String.prefix p (p +:+ rest) = true.
Proof.
  induction p as [|c p IH]; [by destruct rest|].
  change (String.prefix (String c p) (String c (p +:+ rest)) = true).
  cbn [String.prefix]. by destruct (ascii_dec c c); [|congruence].
Qed.

Lemma HasPrefix_iff (s p : string) : HasPrefix s p = true ↔ ∃ rest, s = p +:+ rest.
Proof.
  unfold HasPrefix. split; [|intros [rest ->]; apply prefix_app].
  revert s. induction p as [|c p IH]; intros s Hp; [by exists s|].
  destruct s as [|c' s]; [done|]. cbn [String.prefix] in Hp.
  destruct (ascii_dec c c') as [<-|]; [|done].
  destruct (IH s Hp) as [rest ->]. by exists rest.
Qed.

Lemma chars_app (a b : string) : list_ascii_of_string (a +:+ b) = list_ascii_of_string a ++ list_ascii_of_string b.
Proof. induction a as [|c a IH]; [done|]. exact (f_equal (cons c) IH). Qed.

Lemma uint_chars (d : Decimal.uint) (c : ascii) :
  c ∈ list_ascii_of_string (NilEmpty.string_of_uint d) → c ≠ "_"%char ∧ c ≠ " "%char.
Proof.
  induction d as [|d IH|d IH|d IH|d IH|d IH|d IH|d IH|d IH|d IH|d IH];
    cbn [NilEmpty.string_of_uint list_ascii_of_string].
  1: by intros ?%elem_of_nil.
  all: intros [->|Hin]%elem_of_cons; [done|by apply IH].
Qed.

Lemma decimal_chars (s : string) (c : ascii) :
  decimal s → c ∈ list_ascii_of_string s → c ≠ "_"%char ∧ c ≠ " "%char.
Proof.
  intros [i ->]. unfold FormatInt, NilZero.string_of_int, NilZero.string_of_uint.
  destruct (Z.to_int i) as [d|d]; destruct d;
    cbn [list_ascii_of_string NilEmpty.string_of_uint].
  all: repeat (intros [->|Hin]%elem_of_cons; [done|revert Hin]).
  all: try by intros ?%elem_of_nil.
  all: apply uint_chars.
Qed.

Lemma decimal_nonempty (s : string) : decimal s → s ≠ "".
Proof.
  intros [i ->]. unfold FormatInt, NilZero.string_of_int, NilZero.string_of_uint.
  by destruct (Z.to_int i) as [d|d]; destruct d.
Qed.

(** Two texts without the separator that are followed by it are told
    apart by it. *)
Lemma separated_prefix (sep : ascii) (a b x : string) :
  sep ∉ list_ascii_of_string a → sep ∉ list_ascii_of_string b →
  String.prefix (b +:+ String sep "") (a +:+ String sep x) = true ↔ a = b.
Proof.
  revert b. induction a as [|c a IH]; intros b Ha Hb.
  - destruct b as [|d b].
    + split; [done|]. intros _.
      change (String.prefix (String sep "") (String sep x) = true).
      cbn [String.prefix]. destruct (ascii_dec sep sep); [by destruct x|congruence].
    + split; [|done].
      change (String.prefix (String d (b +:+ String sep "")) (String sep x) = true → "" = String d b).
      cbn [String.prefix]. destruct (ascii_dec d sep) as [->|]; [|done].
      exfalso. apply Hb. left.
  - cbn [list_ascii_of_string] in Ha. apply not_elem_of_cons in Ha as [Hc Ha].
    destruct b as [|d b].
    + split; [|done].
      change (String.prefix (String sep "") (String c (a +:+ String sep x)) = true
              → String c a = "").
      cbn [String.prefix]. destruct (ascii_dec sep c) as [->|]; done.
    + cbn [list_ascii_of_string] in Hb. apply not_elem_of_cons in Hb as [Hd Hb].
      change (String.prefix (String d (b +:+ String sep ""))
                (String c (a +:+ String sep x)) = true ↔ String c a = String d b).
      cbn [String.prefix]. destruct (ascii_dec d c) as [->|Hne].
      * rewrite IH by done. split; [by intros ->|by intros [= ->]].
      * split; [done|]. by intros [= -> _].
Qed.

(** ** The list of subscriptions *)

Section Listing.
Context `{GoRuntime} (E : Env).

Lemma own_key (chatID key : string) (wallet : WalletConfig) :
  decimal chatID →
  key = wallet_key (ChatID wallet) (Address wallet) →
  decimal (ChatID wallet) →
  HasPrefix key (chatID +:+ "_") = true ↔ ChatID wallet = chatID.
Proof.
  intros Hc -> Hw. unfold HasPrefix, wallet_key.
  apply (separated_prefix "_").
  - intros Hin. by destruct (decimal_chars _ _ Hw Hin).
  - intros Hin. by destruct (decimal_chars _ _ Hc Hin).
Qed.

Lemma list_entries (chatID : string) (order : list (string * WalletConfig)) :
  decimal chatID →
  (∀ key wallet, (key, wallet) ∈ order →
     key = wallet_key (ChatID wallet) (Address wallet) ∧ decimal (ChatID wallet)) →
  ∀ message count,
    let mine := filter (λ wallet, ChatID wallet = chatID) order.*2 in
    foldl (list_entry chatID) (message, count) order
    = (message +:+ concat_s (subscription_lines count mine),
       (count + Z.of_nat (length mine))%Z).
Proof.
  intros Hc. induction order as [|[key wallet] order IH]; intros Hok message count.
  - cbn. by rewrite app_nil_r_s, Z.add_0_r.
  - cbn [foldl list_entry fmap list_fmap snd].
    destruct (Hok key wallet) as [Hkey Hw]; [left|].
    pose proof (own_key chatID key wallet Hc Hkey Hw) as Hown.
    destruct (HasPrefix key (chatID +:+ "_")).
    + rewrite filter_cons_True by (by apply Hown).
      rewrite IH by (intros; apply Hok; by right).
      cbn [subscription_lines concat_s foldr length].
      rewrite !app_assoc_s. f_equal. lia.
    + rewrite filter_cons_False by (intros Heq; by apply Hown in Heq).
      apply IH. intros. apply Hok. by right.
Qed.

End Listing.

(** X16. [/list] answers with exactly the subscriptions of the asking
    recipient, each once and numbered from 1 in the order of the loop,
    or with the "none yet" notice when there is none; it sends this one
    message and changes nothing.  (The registry holds its subscriptions
    under the keys of their recipients and addresses, and chat ids are
    decimal numbers.) *)
Theorem listSubscriptions_lists_own `{GoRuntime} (E : Env) (chatID : string) (w : World) :
  fair E →
  registry_ok (wallets w) →
  decimal chatID →
  let w' := (listSubscriptions E chatID w).2 in
  ∃ mine message delivered,
    mine ≡ₚ filter (λ wallet, ChatID wallet = chatID) (map_to_list (wallets w)).*2
    ∧ message = match mine with
                | [] => "您尚未订阅任何地址。"
                | _ => "📋 您的订阅列表:" +:+ nl +:+ nl
                       +:+ concat_s (subscription_lines 0 mine)
                end
    ∧ trace w' = trace w ++ [IoSend chatID message delivered]
    ∧ wallets w' = wallets w ∧ accountStates w' = accountStates w
    ∧ store w' = store w.
Proof.
  intros Hfair Hok Hc w'. unfold w', listSubscriptions. run_io.
  set (order := range_order E WalletConfig (clock w) (wallets w)).
  assert (Horder : ranges (wallets w) order) by apply Hfair.
  rewrite (list_entries chatID order Hc).
  2:{ intros key wallet Hin. apply (ranges_lookup _ _ _ _ Horder) in Hin.
      destruct (Hok key wallet Hin) as (? & _ & ?). done. }
  cbv zeta. set (mine := filter _ order.*2). simpl_world.
  exists mine. eexists _, _. split; [|split; [|done]].
  - unfold mine. unfold ranges in Horder. by rewrite Horder.
  - destruct mine as [|wallet mine']; [done|].
    cbn [length]. by rewrite !app_assoc_s.
Qed.

(** ** Commands *)

(** Computes the fields of the bots and worlds in the goal. *)
Ltac simpl_bot :=
  cbn [world authorizedUsers config admin_executed
       is_nil fst snd wallets accountStates store trace clock exec_stmt exec_admin
       subscriptions account_states authorized_users later Nat.add negb].

(** Unfolds the plumbing of [BotIO] and [IO] and computes the bots. *)
Ltac run_bot :=
  unfold authorizeUser, deauthorizeUser, isAuthorized, adminExec, reply,
    bot_bind, bot_ret, lift, get_bot, set_authorizedUsers, record_admin,
    saveSubscriptionToDB, deleteSubscriptionFromDB, saveAccountStateToDB,
    dbExec, sendMessage, fetchPositions, call_generateInitialStatusMessage,
    call_detectPositionChanges, range_over, timeNow, log_if, logPrintf,
    bind, get_world, tick, record, set_wallets, set_store, set_accountStates, ret;
  simpl_bot.

Section Commands.
Context `{GoRuntime} (E : Env) (admin_db : nat → AdminStmt → option string).

Lemma lift_run {A} (c : IO A) (b : Bot) :
  (lift c b).1 = (c (world b)).1
  ∧ world (lift c b).2 = (c (world b)).2
  ∧ authorizedUsers (lift c b).2 = authorizedUsers b
  ∧ config (lift c b).2 = config b
  ∧ admin_executed (lift c b).2 = admin_executed b.
Proof. unfold lift. by destruct (c (world b)). Qed.

Lemma handle_update_nil (update : Update) (b : Bot) :
  Update_Message update = None → handle_update E admin_db update b = (None, b).
Proof. intros Hm. unfold handle_update. by rewrite Hm. Qed.

(** What the handler does with an update that carries a message:
    nothing, a reply, or one of the five commands. *)
Lemma handle_update_cases (update : Update) (message : Message) (b : Bot) :
  Update_Message update = Some message →
  let chatID := FormatInt (Chat_ID message) in
  let r := handle_update E admin_db update b in
  r = (None, b)
  ∨ (∃ text, r = reply E chatID text b)
  ∨ (chatID = SuperAdminID (config b)
     ∧ ∃ target, r = (None, (authorizeUser E admin_db target b).2))
  ∨ (chatID = SuperAdminID (config b)
     ∧ ∃ target, r = (None, (deauthorizeUser E admin_db target b).2))
  ∨ (default false (authorizedUsers b !! chatID) = true
     ∧ ∃ address name,
         isValidHexadecimal address = true
         ∧ r = lift (subscribeWallet E chatID address name) b)
  ∨ r = (None, (lift (listSubscriptions E chatID) b).2)
  ∨ (∃ address,
       isValidHexadecimal address = true
       ∧ r = (None, (lift (unsubscribeWallet E chatID address) b).2)).
Proof.
  intros Hm chatID r. assert (Hr : r = handle_update E admin_db update b) by done.
  clearbody r. revert Hr. unfold handle_update. rewrite Hm.
  destruct message as [chat text]. cbn [Chat_ID Text] in *. cbv zeta. fold chatID.
  unfold bot_bind at 1. unfold get_bot at 1.
  assert (Hreply : ∀ (text' : string) (P : Prop),
            r = reply E chatID text' b →
            r = (None, b) ∨ (∃ text'', r = reply E chatID text'' b) ∨ P)
    by (intros; right; left; by eexists).
  destruct (bool_decide (text = "/myid")); [apply Hreply|].
  destruct (HasPrefix text "/authorize"
            && bool_decide (chatID = SuperAdminID (config b))) eqn:Hauth.
  { apply andb_true_iff in Hauth as [_ Hadmin%bool_decide_eq_true].
    destruct (_ <? _)%nat; [apply Hreply|]. intros ->.
    do 2 right; left. split; [done|]. exists (nth 1 (SplitN text " " 2) "").
    unfold bot_bind, bot_ret. by destruct (authorizeUser _ _ _ _). }
  destruct (HasPrefix text "/deauthorize"
            && bool_decide (chatID = SuperAdminID (config b))) eqn:Hdeauth.
  { apply andb_true_iff in Hdeauth as [_ Hadmin%bool_decide_eq_true].
    destruct (_ <? _)%nat; [apply Hreply|]. intros ->.
    do 3 right; left. split; [done|]. exists (nth 1 (SplitN text " " 2) "").
    unfold bot_bind, bot_ret. by destruct (deauthorizeUser _ _ _ _). }
  destruct (HasPrefix text "/subscribe").
  { unfold bot_bind at 1, isAuthorized, bot_bind, get_bot, bot_ret.
    destruct (default false (authorizedUsers b !! chatID)) eqn:Hok;
      cbn [negb]; [|apply Hreply].
    destruct (_ <? _)%nat; [apply Hreply|].
    destruct (isValidHexadecimal _) eqn:Hvalid; cbn [negb]; [|apply Hreply].
    intros ->. do 4 right; left. split; [done|]. by eexists _, _. }
  destruct (bool_decide (text = "/list")).
  { intros ->. do 5 right; left. unfold bot_bind, bot_ret. by destruct (lift _ _). }
  destruct (HasPrefix text "/unsubscribe").
  { destruct (_ <? _)%nat; [apply Hreply|].
    destruct (isValidHexadecimal _) eqn:Hvalid; cbn [negb]; [|apply Hreply].
    intros ->. do 6 right. exists (nth 1 (SplitN text " " 2) "").
    split; [exact Hvalid|]. unfold bot_bind, bot_ret. by destruct (lift _ _). }
  destruct (_ || _); [apply Hreply|]. by left.
Qed.

(** The effects of the commands on the registry, the states and the
    authorizations. *)
Lemma reply_run chatID text b :
  let b' := (reply E chatID text b).2 in
  (reply E chatID text b).1 = None
  ∧ wallets (world b') = wallets (world b)
  ∧ accountStates (world b') = accountStates (world b)
  ∧ store (world b') = store (world b)
  ∧ authorizedUsers b' = authorizedUsers b ∧ config b' = config b
  ∧ admin_executed b' = admin_executed b
  ∧ ∃ delivered, trace (world b') = trace (world b) ++ [IoSend chatID text delivered].
Proof. run_bot. repeat split. by eexists. Qed.

Lemma authorizeUser_run target b :
  let b' := (authorizeUser E admin_db target b).2 in
  wallets (world b') = wallets (world b)
  ∧ accountStates (world b') = accountStates (world b)
  ∧ subscriptions (store (world b')) = subscriptions (store (world b))
  ∧ account_states (store (world b')) = account_states (store (world b))
  ∧ authorized_users (store (world b'))
    = (if is_nil (admin_db (clock (world b)) (InsertAuthorizedUser target))
       then {[ target ]} ∪ authorized_users (store (world b))
       else authorized_users (store (world b)))
  ∧ authorizedUsers b' = <[target := true]> (authorizedUsers b)
  ∧ config b' = config b.
Proof.
  run_bot.
  destruct (admin_db (clock (world b)) (InsertAuthorizedUser target)); simpl_bot; done.
Qed.

Lemma deauthorizeUser_run target b :
  let b' := (deauthorizeUser E admin_db target b).2 in
  wallets (world b') = wallets (world b)
  ∧ accountStates (world b') = accountStates (world b)
  ∧ subscriptions (store (world b')) = subscriptions (store (world b))
  ∧ account_states (store (world b')) = account_states (store (world b))
  ∧ config b' = config b
  ∧ if decide (target = SuperAdminID (config b))
    then authorizedUsers b' = authorizedUsers b
         ∧ store (world b') = store (world b)
         ∧ admin_executed b' = admin_executed b
         ∧ ∃ delivered,
             trace (world b')
             = trace (world b) ++ [IoSend target "不能取消超级管理员的授权！" delivered]
    else authorizedUsers b' = delete target (authorizedUsers b)
         ∧ authorized_users (store (world b'))
           = (if is_nil (admin_db (clock (world b)) (DeleteAuthorizedUser target))
              then authorized_users (store (world b)) ∖ {[ target ]}
              else authorized_users (store (world b))).
Proof.
  run_bot. case_decide as Hadmin.
  - simpl_bot. repeat split. by eexists.
  - simpl_bot.
    destruct (admin_db (clock (world b)) (DeleteAuthorizedUser target)); simpl_bot; done.
Qed.

Lemma listSubscriptions_frame chatID w :
  let w' := (listSubscriptions E chatID w).2 in
  wallets w' = wallets w ∧ accountStates w' = accountStates w ∧ store w' = store w.
Proof.
  unfold listSubscriptions. run_io.
  by destruct (foldl _ _ _) as [message count].
Qed.

Lemma subscribeWallet_ok chatID address name w :
  decimal chatID →
  isValidHexadecimal address = true →
  registry_ok (wallets w) → states_ok w →
  let w' := (subscribeWallet E chatID address name w).2 in
  registry_ok (wallets w') ∧ states_ok w'.
Proof.
  intros Hc Hv Hreg Hst w'.
  destruct (wallets w !! wallet_key chatID address) as [wallet|] eqn:Hw.
  { unfold w'. rewrite subscribeWallet_existing by done. done. }
  destruct (subscribeWallet_new E chatID address name w Hw)
    as (_ & Hwallets & Hstates & _). fold w' in Hwallets, Hstates.
  assert (Hgrow : ∀ a, is_Some (accountStates w !! a) → is_Some (accountStates w' !! a)).
  { intros a Ha. rewrite Hstates. destruct (accountStates w !! address) eqn:Hs; [done|].
    destruct (decide (a = address)) as [->|Hne].
    - by rewrite lookup_insert_eq.
    - by rewrite lookup_insert_ne. }
  split.
  - intros key wallet. rewrite Hwallets.
    destruct (decide (key = wallet_key chatID address)) as [->|Hne].
    + rewrite lookup_insert_eq. by intros [= <-].
    + rewrite lookup_insert_ne by done. apply Hreg.
  - intros key wallet. unfold states_ok in Hst. rewrite Hwallets.
    destruct (decide (key = wallet_key chatID address)) as [->|Hne].
    + rewrite lookup_insert_eq. intros [= <-]. cbn [Address]. rewrite Hstates.
      destruct (accountStates w !! address) eqn:Hs; [by rewrite Hs|].
      by rewrite lookup_insert_eq.
    + rewrite lookup_insert_ne by done. intros Hlook. by eapply Hgrow, Hst.
Qed.

Lemma unsubscribeWallet_ok chatID address w :
  fair E →
  registry_ok (wallets w) → states_ok w →
  let w' := (unsubscribeWallet E chatID address w).2 in
  registry_ok (wallets w') ∧ states_ok w'
  ∧ ∀ key wallet, wallets w' !! key = Some wallet → wallets w !! key = Some wallet.
Proof.
  intros Hfair Hreg Hst w'.
  destruct (wallets w !! wallet_key chatID address) as [wallet|] eqn:Hw.
  2:{ assert (Hsame : wallets w' = wallets w ∧ accountStates w' = accountStates w).
      { unfold w', unsubscribeWallet. run_io. by rewrite Hw. }
      destruct Hsame as [Hwallets Hstates].
      split; [by rewrite Hwallets|]. split; [|by rewrite Hwallets].
      intros key wallet. rewrite Hwallets, Hstates. apply Hst. }
  destruct (unsubscribeWallet_existing E chatID address w wallet Hfair Hw)
    as (Hwallets & _ & Hgone & Hkept). fold w' in Hwallets, Hgone, Hkept.
  assert (Hsub : ∀ key wallet', wallets w' !! key = Some wallet' →
                                 wallets w !! key = Some wallet').
  { intros key wallet'. rewrite Hwallets. by intros [_ ?]%lookup_delete_Some. }
  split; [intros key wallet' Hlook; by apply Hreg, Hsub|]. split; [|done].
  intros key wallet' Hlook.
  set (registry := delete (wallet_key chatID address) (wallets w)) in *.
  assert (Hdec : other_subscriber registry address "" ∨ ¬ other_subscriber registry address "").
  { destruct (hasSubscribers_run E address ""
                {| wallets := registry; accountStates := accountStates w; store := store w;
                   trace := trace w; clock := clock w |} Hfair) as ([] & _ & Hiff).
    - left. by apply Hiff.
    - right. intros Ho. by apply Hiff in Ho. }
  destruct Hdec as [Hoth|Hnone].
  - destruct (Hkept Hoth) as [-> _]. by eapply Hst, Hsub.
  - destruct (Hgone Hnone) as [-> _].
    rewrite lookup_delete_ne; [by eapply Hst, Hsub|].
    intros Heq. apply Hnone. exists key, wallet'.
    destruct (Hreg key wallet' (Hsub _ _ Hlook)) as (_ & _ & Hdecimal).
    rewrite Hwallets in Hlook. split; [done|]. split; [done|].
    by apply decimal_nonempty.
Qed.

Lemma unsubscribeWallet_registry chatID address w :
  wallets (unsubscribeWallet E chatID address w).2
  = delete (wallet_key chatID address) (wallets w).
Proof.
  unfold unsubscribeWallet, hasSubscribers. run_io.
  destruct (wallets w !! wallet_key chatID address) eqn:Hw; simpl_world.
  2:{ symmetry. by apply delete_id. }
  destruct (db_exec E _ _) as [e|]; simpl_world.
  all: destruct (existsb _ _); simpl_world; [done|].
  all: by destruct (db_exec E _ _) as [e'|].
Qed.

Lemma goroutine_states_stay g : keeps states_stay (subscribeWallet_goroutine E g).
Proof.
  intros w a Ha. unfold subscribeWallet_goroutine, hasSubscribers. run_io.
  destruct (http_post E _ _) as [err|responseData]; simpl_world; [done|].
  destruct (bot_send E _ _ _) as [e|]; simpl_world.
  all: case_decide; simpl_world.
  all: try (destruct (existsb _ _); simpl_world).
  all: try done.
  all: destruct (accountStates w !! go_address g) eqn:Hs; simpl_world; [|done].
  all: match goal with
       | |- context [db_exec E ?n ?q] => destruct (db_exec E n q) as [e'|]; simpl_world
       end.
  all: destruct (decide (a = go_address g)) as [->|Hne];
         [by rewrite lookup_insert_eq|by rewrite lookup_insert_ne].
Qed.

Lemma monitor_address_states_stay group :
  fair E → group.2 ≠ [] → keeps states_stay (monitor_address E group).
Proof.
  intros Hfair Hsubs w a Ha. destruct group as [address subscribers].
  destruct (monitor_address_run E address subscribers w Hfair Hsubs)
    as (W & rest & -> & _ & _ & _ & Hcases). cbn [snd].
  assert (Hins : ∀ state, is_Some (<[address := state]> (accountStates w) !! a)).
  { intros state. destruct (decide (a = address)) as [->|Hne].
    - by rewrite lookup_insert_eq.
    - by rewrite lookup_insert_ne. }
  destruct (http_post E (clock w) address) as [err|responseData].
  - by destruct Hcases as (-> & _).
  - cbv zeta in Hcases. destruct Hcases as [Hsame Hdiff].
    destruct (changed_dec (snapshot_of responseData)
                (default zero_state (accountStates w !! address))) as [Hch|Hno].
    + destruct (Hdiff Hch) as [-> _]. apply Hins.
    + destruct (Hsame Hno) as [-> _]. apply Hins.
Qed.

(** One step of the running program keeps the registry well formed and
    a state for every subscribed address. *)
Lemma step_ok (x y : Bot * list Goroutine) :
  fair E →
  step E admin_db x y →
  registry_ok (wallets (world x.1)) → states_ok (world x.1) →
  registry_ok (wallets (world y.1)) ∧ states_ok (world y.1).
Proof.
  intros Hfair Hstep Hreg Hst.
  destruct Hstep as [update b pool|g b pool1 pool2|b pool]; cbn [fst] in *.
  - destruct (Update_Message update) as [message|] eqn:Hm.
    2:{ by rewrite handle_update_nil. }
    destruct (handle_update_cases update message b Hm)
      as [->|[[text ->]|[[_ [target ->]]|[[_ [target ->]]|[(_ & address & name & Hv & ->)|
          [->|(address & Hv & ->)]]]]]]; cbn [snd].
    + done.
    + destruct (reply_run (FormatInt (Chat_ID message)) text b) as (_ & Hw & Ha & _).
      split; [by rewrite Hw|]. unfold states_ok. by rewrite Hw, Ha.
    + destruct (authorizeUser_run target b) as (Hw & Ha & _).
      split; [by rewrite Hw|]. unfold states_ok. by rewrite Hw, Ha.
    + destruct (deauthorizeUser_run target b) as (Hw & Ha & _).
      split; [by rewrite Hw|]. unfold states_ok. by rewrite Hw, Ha.
    + destruct (lift_run (subscribeWallet E (FormatInt (Chat_ID message)) address name) b)
        as (_ & -> & _).
      apply subscribeWallet_ok; [by eexists|done..].
    + destruct (lift_run (listSubscriptions E (FormatInt (Chat_ID message))) b)
        as (_ & -> & _).
      destruct (listSubscriptions_frame (FormatInt (Chat_ID message)) (world b))
        as (Hw & Ha & _).
      split; [by rewrite Hw|]. unfold states_ok. by rewrite Hw, Ha.
    + destruct (lift_run (unsubscribeWallet E (FormatInt (Chat_ID message)) address) b)
        as (_ & -> & _).
      by destruct (unsubscribeWallet_ok (FormatInt (Chat_ID message)) address (world b)
                     Hfair Hreg Hst) as (? & ? & _).
  - destruct (lift_run (subscribeWallet_goroutine E g) b) as (_ & -> & _).
    pose proof (goroutine_same_registry E g (world b)) as Hw.
    pose proof (goroutine_states_stay g (world b)) as Hs.
    unfold same_registry in Hw. split; [by rewrite Hw|].
    intros key wallet. rewrite Hw. intros Hlook. by eapply Hs, Hst.
  - destruct (lift_run (monitorAllWallets E) b) as (_ & -> & _).
    destruct (monitorAllWallets_run E (world b) Hfair) as (groups & W & segs & Hrun & Hw & _).
    pose proof (monitorAllWallets_keeps E states_stay Hfair
                  (λ group, monitor_address_states_stay group Hfair)) as Hs.
    assert (Hblind : ∀ w1 w2 : World,
              wallets w2 = wallets w1 → accountStates w2 = accountStates w1 →
              store w2 = store w1 → trace w2 = trace w1 → states_stay w1 w2)
      by (intros w1 w2 _ Ha _ _ a; by rewrite Ha).
    specialize (Hs Hblind (world b)). rewrite Hrun in Hs |- *. cbn [snd] in *.
    split; [by rewrite Hw|].
    intros key wallet. rewrite Hw. intros Hlook. by eapply Hs, Hst.
Qed.

(** What an update changes of the authorizations. *)
Lemma handle_update_authorizations (update : Update) (b : Bot) :
  let b' := (handle_update E admin_db update b).2 in
  config b' = config b
  ∧ (authorizedUsers b' = authorizedUsers b ∧ admin_executed b' = admin_executed b
     ∨ ∃ message target,
         Update_Message update = Some message
         ∧ FormatInt (Chat_ID message) = SuperAdminID (config b)
         ∧ (authorizedUsers b' = <[target := true]> (authorizedUsers b)
            ∨ target ≠ SuperAdminID (config b)
              ∧ authorizedUsers b' = delete target (authorizedUsers b))).
Proof.
  intros b'. unfold b'.
  destruct (Update_Message update) as [message|] eqn:Hm.
  2:{ rewrite handle_update_nil by done. split; [done|by left]. }
  destruct (handle_update_cases update message b Hm)
    as [->|[[text ->]|[[Hadmin [target ->]]|[[Hadmin [target ->]]|
        [(_ & address & name & Hv & ->)|[->|(address & Hv & ->)]]]]]]; cbn [snd].
  - split; [done|by left].
  - destruct (reply_run (FormatInt (Chat_ID message)) text b)
      as (_ & _ & _ & _ & Hu & Hc & Hx & _).
    split; [done|by left].
  - destruct (authorizeUser_run target b) as (_ & _ & _ & _ & _ & Hu & Hc).
    split; [done|]. right. exists message, target. split; [done|]. split; [done|by left].
  - destruct (deauthorizeUser_run target b) as (_ & _ & _ & _ & Hc & Hu).
    split; [done|]. case_decide as Ht.
    + destruct Hu as (Hu & _ & Hx & _). by left.
    + destruct Hu as [Hu _]. right. exists message, target.
      split; [done|]. split; [done|by right].
  - destruct (lift_run (subscribeWallet E (FormatInt (Chat_ID message)) address name) b)
      as (_ & _ & Hu & Hc & Hx).
    split; [done|by left].
  - destruct (lift_run (listSubscriptions E (FormatInt (Chat_ID message))) b)
      as (_ & _ & Hu & Hc & Hx).
    split; [done|by left].
  - destruct (lift_run (unsubscribeWallet E (FormatInt (Chat_ID message)) address) b)
      as (_ & _ & Hu & Hc & Hx).
    split; [done|by left].
Qed.

Lemma step_super_admin (x y : Bot * list Goroutine) :
  step E admin_db x y →
  authorizedUsers x.1 !! SuperAdminID (config x.1) = Some true →
  config y.1 = config x.1
  ∧ authorizedUsers y.1 !! SuperAdminID (config y.1) = Some true.
Proof.
  intros Hstep Hadmin.
  destruct Hstep as [update b pool|g b pool1 pool2|b pool]; cbn [fst] in *.
  - destruct (handle_update_authorizations update b)
      as [Hc [[Hu _]|(message & target & _ & _ & [Hu|[Hne Hu]])]].
    + by rewrite Hc, Hu.
    + rewrite Hc, Hu. split; [done|].
      destruct (decide (target = SuperAdminID (config b))) as [->|Hne].
      * by rewrite lookup_insert_eq.
      * by rewrite lookup_insert_ne.
    + rewrite Hc, Hu. split; [done|]. by rewrite lookup_delete_ne.
  - destruct (lift_run (subscribeWallet_goroutine E g) b) as (_ & _ & Hu & Hc & _).
    by rewrite Hc, Hu.
  - destruct (lift_run (monitorAllWallets E) b) as (_ & _ & Hu & Hc & _).
    by rewrite Hc, Hu.
Qed.

End Commands.

(** X17. Once the super admin is authorized (as [main] does before the
    handler starts), the super admin stays authorized whatever updates
    arrive, whatever goroutines run and however many poll cycles pass:
    no command removes that authorization, and the configuration is
    never changed. *)
Theorem super_admin_stays_authorized `{GoRuntime} (E : Env)
    (admin_db : nat → AdminStmt → option string)
    (b b' : Bot) (pool pool' : list Goroutine) :
  rtc (step E admin_db) (b, pool) (b', pool') →
  authorizedUsers b !! SuperAdminID (config b) = Some true →
  config b' = config b
  ∧ (isAuthorized (SuperAdminID (config b')) b').1 = true.
Proof.
  intros Hrtc Hadmin.
  assert (Hinv : config b' = config b
                 ∧ authorizedUsers b' !! SuperAdminID (config b') = Some true).
  { remember (b, pool) as x eqn:Hx. remember (b', pool') as y eqn:Hy.
    revert b pool b' pool' Hx Hy Hadmin.
    induction Hrtc as [x|x y z Hstep _ IH]; intros b pool b' pool' -> Hy Hadmin.
    - by injection Hy as <- <-.
    - destruct y as [b1 pool1].
      destruct (step_super_admin E admin_db _ _ Hstep Hadmin) as [Hc1 Ha1].
      cbn [fst] in Hc1, Ha1.
      destruct (IH b1 pool1 b' pool' eq_refl Hy Ha1) as [Hc Ha].
      split; [congruence|done]. }
  destruct Hinv as [Hc Ha]. split; [done|].
  unfold isAuthorized, bot_bind, get_bot, bot_ret. cbn [fst]. by rewrite Ha.
Qed.

(** X18. The running program keeps its registry well formed: every
    subscription stays under the key of its recipient and address, with
    an address of the accepted format and a decimal chat id, and every
    subscribed address has a state, whatever updates arrive, whatever
    goroutines run and however many poll cycles pass. *)
Theorem registry_stays_well_formed `{GoRuntime} (E : Env)
    (admin_db : nat → AdminStmt → option string)
    (b b' : Bot) (pool pool' : list Goroutine) :
  fair E →
  rtc (step E admin_db) (b, pool) (b', pool') →
  registry_ok (wallets (world b)) → states_ok (world b) →
  registry_ok (wallets (world b')) ∧ states_ok (world b').
Proof.
  intros Hfair Hrtc.
  remember (b, pool) as x eqn:Hx. remember (b', pool') as y eqn:Hy.
  revert b pool b' pool' Hx Hy.
  induction Hrtc as [x|x y z Hstep _ IH]; intros b pool b' pool' -> Hy Hreg Hst.
  - by injection Hy as <- <-.
  - destruct y as [b1 pool1].
    destruct (step_ok E admin_db _ _ Hfair Hstep Hreg Hst) as [Hreg1 Hst1].
    by apply (IH b1 pool1 b' pool').
Qed.

(** X19. An update from a recipient who is not authorized adds no
    subscription: after it the registry holds only subscriptions it held
    before, and no goroutine is started. *)
Theorem unauthorized_sender_adds_no_subscription `{GoRuntime} (E : Env)
    (admin_db : nat → AdminStmt → option string)
    (update : Update) (message : Message) (b : Bot) :
  Update_Message update = Some message →
  (isAuthorized (FormatInt (Chat_ID message)) b).1 = false →
  let r := handle_update E admin_db update b in
  r.1 = None
  ∧ ∀ key wallet, wallets (world r.2) !! key = Some wallet →
      wallets (world b) !! key = Some wallet.
Proof.
  intros Hm Hno r.
  assert (Hun : default false (authorizedUsers b !! FormatInt (Chat_ID message)) = false)
    by done.
  unfold r.
  destruct (handle_update_cases E admin_db update message b Hm)
    as [->|[[text ->]|[[_ [target ->]]|[[_ [target ->]]|
        [(Hok & _)|[->|(address & Hv & ->)]]]]]]; cbn [fst snd].
  - done.
  - destruct (reply_run E (FormatInt (Chat_ID message)) text b) as (-> & -> & _). done.
  - by destruct (authorizeUser_run E admin_db target b) as (-> & _).
  - by destruct (deauthorizeUser_run E admin_db target b) as (-> & _).
  - congruence.
  - destruct (lift_run (listSubscriptions E (FormatInt (Chat_ID message))) b)
      as (_ & -> & _).
    by destruct (listSubscriptions_frame E (FormatInt (Chat_ID message)) (world b))
      as (-> & _).
  - destruct (lift_run (unsubscribeWallet E (FormatInt (Chat_ID message)) address) b)
      as (_ & -> & _).
    rewrite unsubscribeWallet_registry. split; [done|].
    intros key wallet. by intros [_ ?]%lookup_delete_Some.
Qed.

(** X20. Only the super admin changes the authorizations: an update from
    any other recipient leaves the authorized users as they are and
    issues no statement on their table. *)
Theorem only_super_admin_changes_authorizations `{GoRuntime} (E : Env)
    (admin_db : nat → AdminStmt → option string)
    (update : Update) (message : Message) (b : Bot) :
  Update_Message update = Some message →
  FormatInt (Chat_ID message) ≠ SuperAdminID (config b) →
  let b' := (handle_update E admin_db update b).2 in
  authorizedUsers b' = authorizedUsers b
  ∧ admin_executed b' = admin_executed b.
Proof.
  intros Hm Hne b'.
  destruct (handle_update_authorizations E admin_db update b)
    as [_ [Hsame|(message' & target & Hm' & Hadmin & _)]]; [done|].
  rewrite Hm in Hm'. injection Hm' as <-. done.
Qed.

(** X21. [authorizeUser] makes the recipient authorized, in memory also
    when the store refuses the statement; [deauthorizeUser] makes the
    recipient unauthorized again, unless the recipient is the super
    admin, in which case it changes nothing and only sends the refusal.
    Neither touches the registry or the states: the subscriptions of a
    recipient who is no longer authorized stay. *)
Theorem authorize_then_deauthorize `{GoRuntime} (E : Env)
    (admin_db : nat → AdminStmt → option string) (chatID : string) (b : Bot) :
  let b1 := (authorizeUser E admin_db chatID b).2 in
  let b2 := (deauthorizeUser E admin_db chatID b1).2 in
  (isAuthorized chatID b1).1 = true
  ∧ authorized_users (store (world b1))
    = (if is_nil (admin_db (clock (world b)) (InsertAuthorizedUser chatID))
       then {[ chatID ]} ∪ authorized_users (store (world b))
       else authorized_users (store (world b)))
  ∧ wallets (world b2) = wallets (world b)
  ∧ accountStates (world b2) = accountStates (world b)
  ∧ (chatID ≠ SuperAdminID (config b) →
     (isAuthorized chatID b2).1 = false
     ∧ authorizedUsers b2 = delete chatID (authorizedUsers b))
  ∧ (chatID = SuperAdminID (config b) →
     (isAuthorized chatID b2).1 = true
     ∧ authorizedUsers b2 = authorizedUsers b1
     ∧ store (world b2) = store (world b1)
     ∧ ∃ delivered,
         trace (world b2)
         = trace (world b1) ++ [IoSend chatID "不能取消超级管理员的授权！" delivered]).
Proof.
  intros b1 b2.
  destruct (authorizeUser_run E admin_db chatID b) as (Hw1 & Ha1 & _ & _ & Hd1 & Hu1 & Hc1).
  destruct (deauthorizeUser_run E admin_db chatID b1) as (Hw2 & Ha2 & _ & _ & Hc2 & Hu2).
  fold b1 in Hw1, Ha1, Hd1, Hu1, Hc1. fold b2 in Hw2, Ha2, Hc2, Hu2.
  assert (Hin : ∀ b0, (isAuthorized chatID b0).1 = default false (authorizedUsers b0 !! chatID))
    by done.
  split; [by rewrite Hin, Hu1, lookup_insert_eq|]. split; [done|].
  split; [congruence|]. split; [congruence|].
  rewrite Hc1 in Hu2. split; intros Hadmin.
  - rewrite decide_False in Hu2 by done. destruct Hu2 as [Hu2 _].
    rewrite Hin, Hu2, Hu1, lookup_delete_eq, delete_insert_eq. done.
  - rewrite decide_True in Hu2 by done. destruct Hu2 as (Hu2 & Hs2 & _ & Ht2).
    rewrite Hin, Hu2, Hu1, lookup_insert_eq. done.
Qed.


(** ** The text of a command *)

Lemma app_cons_s (c : ascii) (a b : string) : String c a +:+ b = String c (a +:+ b).
Proof. done. Qed.

Lemma Index_none (sep : ascii) (a : string) :
  sep ∉ list_ascii_of_string a → Index a (String sep "") = None.
Proof.
  induction a as [|c a IH]; [done|].
  cbn [list_ascii_of_string]. intros [Hc Ha]%not_elem_of_cons.
  cbn [Index String.prefix]. destruct (ascii_dec sep c) as [->|]; [done|].
  by rewrite IH.
Qed.

Lemma Index_first (sep : ascii) (a rest : string) :
  sep ∉ list_ascii_of_string a →
  Index (a +:+ String sep rest) (String sep "") = Some (String.length a).
Proof.
  induction a as [|c a IH].
  - intros _. change (Index (String sep rest) (String sep "") = Some 0).
    cbn [Index String.prefix]. destruct (ascii_dec sep sep); [by destruct rest|congruence].
  - cbn [list_ascii_of_string]. intros [Hc Ha]%not_elem_of_cons.
    rewrite app_cons_s. cbn [Index String.prefix].
    destruct (ascii_dec sep c) as [->|]; [done|]. by rewrite IH.
Qed.

Lemma SplitN_step (s sep : string) (n : nat) :
  SplitN s sep (S (S n))
  = match Index s sep with
    | None => [s]
    | Some m =>
        substring 0 m s
          :: SplitN (substring (m + String.length sep)
                       (String.length s - (m + String.length sep)) s) sep (S n)
    end.
Proof. done. Qed.

Lemma SplitN_last (sep : ascii) (a : string) (n : nat) :
  sep ∉ list_ascii_of_string a → SplitN a (String sep "") (S n) = [a].
Proof.
  intros Ha. destruct n as [|n]; [done|].
  by rewrite SplitN_step, Index_none.
Qed.

Lemma SplitN_cons (sep : ascii) (a rest : string) (n : nat) :
  sep ∉ list_ascii_of_string a →
  SplitN (a +:+ String sep rest) (String sep "") (S (S n))
  = a :: SplitN rest (String sep "") (S n).
Proof.
  intros Ha. rewrite SplitN_step, Index_first by done. f_equal.
  - apply substring_0_app.
  - f_equal. rewrite length_app_s. cbn [String.length].
    replace (String.length a + S (String.length rest) - (String.length a + 1))
      with (String.length rest) by lia.
    change (a +:+ String sep rest) with (a +:+ String sep "" +:+ rest).
    rewrite <- app_assoc_s.
    replace (String.length a + 1) with (String.length (a +:+ String sep "") + 0)
      by (rewrite length_app_s; cbn [String.length]; lia).
    rewrite substring_skip. apply substring_all.
Qed.

Lemma hex_digit_no_space (c : ascii) : is_hex_digit c = true → c ≠ " "%char.
Proof. by intros Hc ->. Qed.

Lemma valid_address_no_space (address : string) :
  isValidHexadecimal address = true → " "%char ∉ list_ascii_of_string address.
Proof.
  intros (digits & -> & _ & Hd)%isValidHexadecimal_spec.
  rewrite hex_digits_all in Hd.
  change ("0x" +:+ digits) with (String "0" (String "x" digits)).
  cbn [list_ascii_of_string]. rewrite !not_elem_of_cons.
  split; [done|]. split; [done|]. intros Hin. by apply Hd in Hin.
Qed.

Section CommandText.
Context `{GoRuntime} (E : Env) (admin_db : nat → AdminStmt → option string).

(** The pieces of a [/subscribe] command. *)
Lemma subscribe_parts (address name : string) :
  isValidHexadecimal address = true →
  SplitN ("/subscribe " +:+ address) " " 3 = ["/subscribe"; address]
  ∧ SplitN ("/subscribe " +:+ address +:+ " " +:+ name) " " 3
    = ["/subscribe"; address; name].
Proof.
  intros Hv%valid_address_no_space.
  assert (Hcmd : " "%char ∉ list_ascii_of_string "/subscribe").
  { cbn [list_ascii_of_string]. rewrite !not_elem_of_cons. repeat split; try done.
    apply not_elem_of_nil. }
  change ("/subscribe " +:+ address) with ("/subscribe" +:+ String " " address).
  change ("/subscribe " +:+ address +:+ " " +:+ name)
    with ("/subscribe" +:+ String " " (address +:+ String " " name)).
  rewrite !(SplitN_cons " ") by done.
  by rewrite (SplitN_last " " address).
Qed.

(** The cases of the [switch] that come before [/subscribe] do not
    apply to a text that starts with [/subscribe]. *)
Lemma subscribe_not_earlier (rest : string) (admin : bool) :
  bool_decide ("/subscribe" +:+ rest = "/myid") = false
  ∧ HasPrefix ("/subscribe" +:+ rest) "/authorize" && admin = false
  ∧ HasPrefix ("/subscribe" +:+ rest) "/deauthorize" && admin = false
  ∧ HasPrefix ("/subscribe" +:+ rest) "/subscribe" = true.
Proof.
  split; [by apply bool_decide_eq_false_2|].
  split; [done|]. split; [done|]. apply prefix_app.
Qed.

End CommandText.

(** X22. The text [/subscribe <address>], optionally followed by a space
    and a name, sent by an authorized recipient who does not follow the
    address yet, registers the subscription of that recipient to that
    address under that name (the rest of the text, spaces included), or
    under the default name when no name follows, and starts the
    goroutine of the subscription. *)
Theorem subscribe_command_registers `{GoRuntime} (E : Env)
    (admin_db : nat → AdminStmt → option string)
    (chat : Z) (address name text : string) (b : Bot) :
  (isAuthorized (FormatInt chat) b).1 = true →
  isValidHexadecimal address = true →
  wallets (world b) !! wallet_key (FormatInt chat) address = None →
  text = "/subscribe " +:+ address ∧ name = "未命名账户"
  ∨ text = "/subscribe " +:+ address +:+ " " +:+ name →
  let update := {| Update_Message := Some {| Chat_ID := chat; Text := text |} |} in
  let r := handle_update E admin_db update b in
  let wallet := {| Address := address; Name := name; ChatID := FormatInt chat |} in
  r.1 = Some {| go_chatID := FormatInt chat; go_address := address; go_wallet := wallet |}
  ∧ wallets (world r.2) = <[wallet_key (FormatInt chat) address := wallet]> (wallets (world b))
  ∧ authorizedUsers r.2 = authorizedUsers b.
Proof.
  intros Hok Hv Hnew Htext update r wallet.
  assert (Hauth : default false (authorizedUsers b !! FormatInt chat) = true) by done.
  destruct (subscribe_parts address name Hv) as [Hparts2 Hparts3].
  assert (Hr : r = lift (subscribeWallet E (FormatInt chat) address name) b).
  { unfold r, handle_update, update. cbn [Update_Message Chat_ID Text]. cbv zeta.
    unfold bot_bind at 1. unfold get_bot at 1.
    destruct Htext as [[-> ->]| ->].
    - change ("/subscribe " +:+ address) with ("/subscribe" +:+ (" " +:+ address)).
      destruct (subscribe_not_earlier (" " +:+ address)
                  (bool_decide (FormatInt chat = SuperAdminID (config b))))
        as (-> & -> & -> & ->).
      change ("/subscribe" +:+ (" " +:+ address)) with ("/subscribe " +:+ address).
      unfold isAuthorized, bot_bind, get_bot, bot_ret. rewrite Hauth, Hparts2.
      cbn [negb length Nat.ltb Nat.leb Nat.eqb nth]. by rewrite Hv.
    - change ("/subscribe " +:+ address +:+ " " +:+ name)
        with ("/subscribe" +:+ (" " +:+ address +:+ " " +:+ name)).
      destruct (subscribe_not_earlier (" " +:+ address +:+ " " +:+ name)
                  (bool_decide (FormatInt chat = SuperAdminID (config b))))
        as (-> & -> & -> & ->).
      change ("/subscribe" +:+ (" " +:+ address +:+ " " +:+ name))
        with ("/subscribe " +:+ address +:+ " " +:+ name).
      unfold isAuthorized, bot_bind, get_bot, bot_ret. rewrite Hauth, Hparts3.
      cbn [negb length Nat.ltb Nat.leb Nat.eqb nth]. by rewrite Hv. }
  rewrite Hr.
  destruct (lift_run (subscribeWallet E (FormatInt chat) address name) b)
    as (-> & -> & -> & _).
  destruct (subscribeWallet_new E (FormatInt chat) address name (world b) Hnew)
    as (Hg & Hw & _).
  done.
Qed.


(** * The single-tenant program *)

(** Unfolds the functions of the single-tenant program and computes
    the worlds. *)
Ltac run_single :=
  unfold SingleProgram.initialStatus, SingleProgram.monitorAddress,
    SingleProgram.sendTelegramMessage, SingleProgram.call_generateInitialStatusMessage,
    SingleProgram.call_detectPositionChanges;
  run_io.

Section SingleProgramFacts.
Context `{GoRuntime} (E : Env) (post_form : SingleProgram.Transport).

Lemma monitorAddress_run wallet token chatID w state :
  fair E →
  accountStates w !! SingleTenant.Address wallet = Some state →
  let address := SingleTenant.Address wallet in
  let w' := (SingleProgram.monitorAddress E post_form wallet token chatID w).2 in
  ∃ evs,
    trace w' = trace w ++ evs
    ∧ fetched evs = [address] ∧ panics evs = []
    ∧ match http_post E (clock w) address with
      | inl _ => accountStates w' = accountStates w ∧ sent evs = []
      | inr responseData =>
          let snapshot := snapshot_of responseData in
          ∃ message,
            SingleProgram.detect_text_of wallet snapshot state message
            ∧ if decide (message = "")
              then accountStates w' = accountStates w ∧ sent evs = []
              else ∃ delivered : bool,
                     sent evs = [(chatID, message)]
                     ∧ IoSend chatID message delivered ∈ evs
                     ∧ accountStates w'
                       = if delivered
                         then <[address := state_of_snapshot snapshot]> (accountStates w)
                         else accountStates w
      end.
Proof.
  intros Hfair Hstate address w'. unfold w', address. clear w' address. run_single.
  destruct (http_post E (clock w) (SingleTenant.Address wallet)) as [err|responseData]; simpl_world.
  { eexists. split; [rewrite <- ?app_assoc; reflexivity|]. done. }
  rewrite Hstate. simpl_world.
  set (message := SingleTenant.detectPositionChanges _ _ _ _ _ _ _ _).
  assert (Htext : SingleProgram.detect_text_of wallet (snapshot_of responseData) state message).
  { eexists _, _, _, _. split; [apply Hfair|]. split; [apply Hfair|].
    split; [apply Hfair|]. done. }
  clearbody message.
  destruct (decide (message = "")) as [Hnil|Hsome]; simpl_world.
  { eexists. split; [rewrite <- ?app_assoc; reflexivity|]. split; [done|]. split; [done|].
    exists message. split; [done|]. by rewrite decide_True. }
  destruct (post_form _ _ _ _) as [err|[status body]]; simpl_world.
  2: destruct (status =? 200)%Z; simpl_world.
  all: eexists; (split; [rewrite <- ?app_assoc; reflexivity|]).
  all: split; [done|]; split; [done|].
  all: exists message; split; [done|]; rewrite decide_False by done.
  1,3: exists false.
  3: exists true.
  all: split; [done|]; split; [|done].
  all: rewrite !elem_of_app, !elem_of_cons; naive_solver.
Qed.


Lemma initialStatus_run wallet token chatID w state :
  fair E →
  accountStates w !! SingleTenant.Address wallet = Some state →
  let address := SingleTenant.Address wallet in
  let w' := (SingleProgram.initialStatus E post_form wallet token chatID w).2 in
  ∃ evs,
    trace w' = trace w ++ evs
    ∧ fetched evs = [address] ∧ panics evs = []
    ∧ match http_post E (clock w) address with
      | inl _ => accountStates w' = accountStates w ∧ sent evs = []
      | inr responseData =>
          let snapshot := snapshot_of responseData in
          accountStates w' = <[address := state_of_snapshot snapshot]> (accountStates w)
          ∧ ∃ message timeStamp rangePositions,
              sent evs = [(chatID, message)]
              ∧ ranges snapshot.1 rangePositions
              ∧ message = SingleProgram.generateInitialStatusMessage wallet
                            snapshot.1 snapshot.2 timeStamp rangePositions
      end.
Proof.
  intros Hfair Hstate address w'. unfold w', address. clear w' address. run_single.
  destruct (http_post E (clock w) (SingleTenant.Address wallet)) as [err|responseData];
    simpl_world.
  { eexists. split; [rewrite <- ?app_assoc; reflexivity|]. done. }
  set (message := SingleProgram.generateInitialStatusMessage _ _ _ _ _).
  assert (Hmsg : ∃ timeStamp rangePositions,
            ranges (snapshot_of responseData).1 rangePositions
            ∧ message = SingleProgram.generateInitialStatusMessage wallet
                          (snapshot_of responseData).1 (snapshot_of responseData).2
                          timeStamp rangePositions).
  { eexists _, _. split; [apply Hfair|]. done. }
  destruct Hmsg as (timeStamp & rangePositions & Hr & Hm). clearbody message.
  destruct (post_form _ _ _ _) as [err|[status body]]; simpl_world.
  2: destruct (status =? 200)%Z; simpl_world.
  all: rewrite Hstate; simpl_world.
  all: eexists; (split; [rewrite <- ?app_assoc; reflexivity|]).
  all: split; [done|]; split; [done|]; split; [done|].
  all: by exists message, timeStamp, rangePositions.
Qed.

Global Instance runs_safely_preorder config : PreOrder (runs_safely config).
Proof.
  split.
  - intros w Hc. split; [done|reflexivity].
  - intros w1 w2 w3 H12 H23 Hc. destruct (H12 Hc) as [Hc2 Hq12].
    destruct (H23 Hc2) as [Hc3 Hq23]. split; [done|]. by etransitivity.
Qed.

Lemma panics_no_panic (evs : list IOEvent) : panics evs = [] → Forall no_panic evs.
Proof.
  induction evs as [|ev evs IH]; [by constructor|].
  destruct ev; cbn; try done; intros Hp; constructor; try done; by apply IH.
Qed.

Lemma covered_insert config w w' :
  accountStates w' = accountStates w
  ∨ (∃ address state, accountStates w' = <[address := state]> (accountStates w)) →
  covered config w → covered config w'.
Proof.
  unfold covered. intros [->|(address & state & ->)] Hc wallet Hin; [by apply Hc|].
  destruct (decide (SingleTenant.Address wallet = address)) as [->|Hne].
  - by rewrite lookup_insert_eq.
  - rewrite lookup_insert_ne by done. by apply Hc.
Qed.

Lemma monitorAddress_safe config wallet token chatID :
  fair E →
  wallet ∈ SingleProgram.Addresses config →
  keeps (runs_safely config) (SingleProgram.monitorAddress E post_form wallet token chatID).
Proof.
  intros Hfair Hin w Hc. destruct (Hc wallet Hin) as [state Hstate].
  destruct (monitorAddress_run wallet token chatID w state Hfair Hstate)
    as (evs & Ht & _ & Hp & Hcases).
  split; [|exists evs; split; [done|by apply panics_no_panic]].
  eapply covered_insert; [|exact Hc].
  destruct (http_post E (clock w) (SingleTenant.Address wallet)) as [err|responseData].
  - left. by destruct Hcases.
  - cbv zeta in Hcases. destruct Hcases as (message & _ & Hcases).
    destruct (decide (message = "")).
    + left. by destruct Hcases.
    + destruct Hcases as ([] & _ & _ & ->); [right; by eexists _, _|by left].
Qed.

Lemma initialStatus_safe config wallet token chatID :
  fair E →
  wallet ∈ SingleProgram.Addresses config →
  keeps (runs_safely config) (SingleProgram.initialStatus E post_form wallet token chatID).
Proof.
  intros Hfair Hin w Hc. destruct (Hc wallet Hin) as [state Hstate].
  destruct (initialStatus_run wallet token chatID w state Hfair Hstate)
    as (evs & Ht & _ & Hp & Hcases).
  split; [|exists evs; split; [done|by apply panics_no_panic]].
  eapply covered_insert; [|exact Hc].
  destruct (http_post E (clock w) (SingleTenant.Address wallet)) as [err|responseData].
  - left. by destruct Hcases.
  - right. destruct Hcases as [-> _]. by eexists _, _.
Qed.

Lemma states_of_addresses (wallets : list SingleTenant.WalletConfig) (wallet : SingleTenant.WalletConfig) :
  wallet ∈ wallets →
  foldl (λ states wallet, <[SingleTenant.Address wallet := zero_state]> states)
    (∅ : gmap string AccountState) wallets !! SingleTenant.Address wallet
  = Some zero_state.
Proof.
  induction wallets as [|last wallets IH] using rev_ind; [by intros ?%elem_of_nil|].
  rewrite foldl_snoc. intros [Hin| ->%list_elem_of_singleton]%elem_of_app.
  - destruct (decide (SingleTenant.Address last = SingleTenant.Address wallet)) as [->|Hne].
    + by rewrite lookup_insert_eq.
    + rewrite lookup_insert_ne by done. by apply IH.
  - by rewrite lookup_insert_eq.
Qed.

Lemma main_rounds_safe config n w :
  fair E →
  only_events no_panic w (SingleProgram.main_rounds E post_form config n w).2
  ∧ covered config (SingleProgram.main_rounds E post_form config n w).2.
Proof.
  intros Hfair. revert w. induction n as [|n IH]; intros w.
  - cbn [SingleProgram.main_rounds]. unfold SingleProgram.main_start. run_io.
    match goal with
    | |- context [for_each _ _ ?W0] =>
        destruct (keeps_for_each (runs_safely config) (SingleProgram.Addresses config)
                    (λ wallet, SingleProgram.initialStatus E post_form wallet
                                 (SingleProgram.TelegramToken config)
                                 (SingleProgram.ChatID config))
                    (λ wallet Hin, initialStatus_safe config wallet _ _ Hfair Hin) W0)
          as [Hc (evs & Ht & Hq)]
    end.
    { intros wallet Hin. cbn [accountStates]. by rewrite states_of_addresses. }
    split; [|done]. cbn [trace] in Ht. eexists. split; [by rewrite Ht, <- app_assoc|].
    constructor; [done|exact Hq].
  - cbn [SingleProgram.main_rounds]. unfold bind.
    destruct (IH w) as [Hq Hc].
    destruct (SingleProgram.main_rounds E post_form config n w) as [[] w1]. cbn [snd] in *.
    destruct (keeps_for_each (runs_safely config) (SingleProgram.Addresses config)
                (λ wallet, SingleProgram.monitorAddress E post_form wallet
                             (SingleProgram.TelegramToken config)
                             (SingleProgram.ChatID config))
                (λ wallet Hin, monitorAddress_safe config wallet _ _ Hfair Hin) w1 Hc)
      as [Hc2 Hq2].
    split; [|done]. by etransitivity.
Qed.

End SingleProgramFacts.


(** X24. [initialStatus] makes the fetched snapshot the state of the
    address whether or not the initial message could be delivered; when
    the fetch fails it sends nothing and the state stays the zero-valued
    one that [main] created. *)
Theorem single_baseline_from_initial_fetch `{GoRuntime} (E : Env)
    (post_form : SingleProgram.Transport) (wallet : SingleTenant.WalletConfig)
    (token chatID : string) (w : World) (state : AccountState) :
  fair E →
  accountStates w !! SingleTenant.Address wallet = Some state →
  let address := SingleTenant.Address wallet in
  let w' := (SingleProgram.initialStatus E post_form wallet token chatID w).2 in
  ∃ evs,
    trace w' = trace w ++ evs
    ∧ fetched evs = [address] ∧ panics evs = []
    ∧ match http_post E (clock w) address with
      | inl _ => accountStates w' = accountStates w ∧ sent evs = []
      | inr responseData =>
          let snapshot := snapshot_of responseData in
          accountStates w' = <[address := state_of_snapshot snapshot]> (accountStates w)
          ∧ ∃ message timeStamp rangePositions,
              sent evs = [(chatID, message)]
              ∧ ranges snapshot.1 rangePositions
              ∧ message = SingleProgram.generateInitialStatusMessage wallet
                            snapshot.1 snapshot.2 timeStamp rangePositions
      end.
Proof. apply initialStatus_run. Qed.

(** X25. The single-tenant program never dereferences a nil state:
    [main] creates a state for every configured address before it
    fetches anything, and no later step removes one, so the start and any
    number of rounds of the loop record no panic. *)
Theorem single_main_never_panics `{GoRuntime} (E : Env)
    (post_form : SingleProgram.Transport) (config : SingleProgram.Config)
    (n : nat) (w : World) :
  fair E →
  ∃ evs, trace (SingleProgram.main_rounds E post_form config n w).2 = trace w ++ evs
         ∧ panics evs = [].
Proof.
  intros Hfair.
  destruct (main_rounds_safe E post_form config n w Hfair) as [(evs & Ht & Hq) _].
  exists evs. split; [done|]. by apply no_panic_panics.
Qed.

(** X26. After [initialStatus] stored a snapshot, a round that fetches the
    same answer again sends nothing and leaves the state as it is. *)
Theorem single_settled_address_is_silent `{GoRuntime} (E : Env)
    (post_form : SingleProgram.Transport) (wallet : SingleTenant.WalletConfig)
    (token chatID : string) (w : World) (state : AccountState)
    (responseData : Response) :
  fair E →
  accountStates w !! SingleTenant.Address wallet = Some state →
  (∀ n, http_post E n (SingleTenant.Address wallet) = inr responseData) →
  let w1 := (SingleProgram.initialStatus E post_form wallet token chatID w).2 in
  let w2 := (SingleProgram.monitorAddress E post_form wallet token chatID w1).2 in
  accountStates w1 !! SingleTenant.Address wallet
  = Some (state_of_snapshot (snapshot_of responseData))
  ∧ accountStates w2 = accountStates w1
  ∧ ∃ evs, trace w2 = trace w1 ++ evs ∧ sent evs = [].
Proof.
  intros Hfair Hstate Hpost w1 w2.
  destruct (initialStatus_run E post_form wallet token chatID w state Hfair Hstate)
    as (evs1 & _ & _ & _ & Hcases1).
  fold w1 in Hcases1. rewrite Hpost in Hcases1. cbv zeta in Hcases1.
  destruct Hcases1 as [Hs1 _].
  assert (Hstate1 : accountStates w1 !! SingleTenant.Address wallet
                    = Some (state_of_snapshot (snapshot_of responseData)))
    by (by rewrite Hs1, lookup_insert_eq).
  split; [done|].
  destruct (monitorAddress_run E post_form wallet token chatID w1 _ Hfair Hstate1)
    as (evs2 & Ht2 & _ & _ & Hcases2).
  fold w2 in Ht2, Hcases2. rewrite Hpost in Hcases2. cbv zeta in Hcases2.
  destruct Hcases2 as (message & (ts & r1 & r2 & r3 & Hr1 & Hr2 & _ & Hm) & Hcases2).
  assert (Hnil : message = "").
  { rewrite Hm. by apply single_detect_diag. }
  rewrite decide_True in Hcases2 by done. destruct Hcases2 as [Hs2 Hsent].
  split; [done|]. by exists evs2.
Qed.


(** * Subscribing: further properties *)

(** X27. Subscribing a pair that is not registered yet registers it in
    memory and acknowledges it to the recipient whether or not the store
    executes the insert (a failure is only logged); the address gets the
    zero-valued state unless it has one already; nothing is fetched by
    the call itself: the initial fetch is left to the goroutine that the
    call starts. *)
Theorem subscribe_new_registers `{GoRuntime} (E : Env)
    (chatID address name : string) (w : World) :
  wallets w !! wallet_key chatID address = None →
  let r := subscribeWallet E chatID address name w in
  let wallet := {| Address := address; Name := name; ChatID := chatID |} in
  let notice := "已订阅地址 " +:+ shortenAddress address +:+ " (" +:+ name +:+ ")" in
  r.1 = Some {| go_chatID := chatID; go_address := address; go_wallet := wallet |}
  ∧ wallets r.2 = <[wallet_key chatID address := wallet]> (wallets w)
  ∧ accountStates r.2
    = match accountStates w !! address with
      | None => <[address := zero_state]> (accountStates w)
      | Some _ => accountStates w
      end
  ∧ subscriptions (store r.2)
    = (if is_nil (db_exec E (clock w) (InsertSubscription chatID address name))
       then <[(chatID, address) := name]> (subscriptions (store w))
       else subscriptions (store w))
  ∧ account_states (store r.2) = account_states (store w)
  ∧ ∃ evs, trace r.2 = trace w ++ evs
           ∧ sent evs = [(chatID, notice)] ∧ fetched evs = [].
Proof.
  intros Hw r wallet notice. unfold r, subscribeWallet. run_io. rewrite Hw.
  destruct (db_exec E (clock w) _) as [e|]; simpl_world;
    destruct (accountStates w !! address); simpl_world.
  all: repeat (split; [done|]).
  all: eexists; (split; [rewrite <- ?app_assoc; reflexivity|]); done.
Qed.

(** X28. The goroutine of a subscription fetches the address once and
    sends one message, to the new recipient only: the initial status
    built from the fetched snapshot, or the notice that the initial
    state could not be fetched. *)
Theorem initial_fetch_is_reported_to_the_subscriber `{GoRuntime} (E : Env)
    (g : Goroutine) (w : World) :
  fair E →
  let w' := (subscribeWallet_goroutine E g w).2 in
  ∃ evs message,
    trace w' = trace w ++ evs
    ∧ fetched evs = [go_address g]
    ∧ sent evs = [(go_chatID g, message)]
    ∧ match http_post E (clock w) (go_address g) with
      | inl err =>
          message = "获取地址 " +:+ shortenAddress (go_address g) +:+ " 初始状态失败: " +:+ err
      | inr responseData =>
          ∃ timeStamp rangePositions,
            ranges (snapshot_of responseData).1 rangePositions
            ∧ message = generateInitialStatusMessage (go_wallet g)
                          (snapshot_of responseData).1 (snapshot_of responseData).2
                          timeStamp rangePositions
      end.
Proof. apply goroutine_messages. Qed.

(** X29. When two recipients subscribe to an address that had no
    subscriber before either goroutine has run, neither goroutine stores
    the snapshot it fetched: each finds the other subscription and leaves
    the zero-valued state, whichever runs first, so that the next poll
    cycle compares the snapshot with an empty state. *)
Theorem two_early_subscribers_keep_zero_state `{GoRuntime} (E : Env)
    (chat1 chat2 address name1 name2 : string) (w : World) (first_runs_first : bool) :
  fair E →
  wallet_key chat1 address ≠ wallet_key chat2 address →
  wallets w !! wallet_key chat1 address = None →
  wallets w !! wallet_key chat2 address = None →
  accountStates w !! address = None →
  let r1 := subscribeWallet E chat1 address name1 w in
  let r2 := subscribeWallet E chat2 address name2 r1.2 in
  ∃ g1 g2,
    r1.1 = Some g1 ∧ r2.1 = Some g2
    ∧ let first := if first_runs_first then g1 else g2 in
      let second := if first_runs_first then g2 else g1 in
      let w3 := (subscribeWallet_goroutine E first r2.2).2 in
      let w4 := (subscribeWallet_goroutine E second w3).2 in
      accountStates w4 !! address = Some zero_state
      ∧ account_states (store w4) = account_states (store w).
Proof.
  intros Hfair Hkeys Hw1 Hw2 Hstate r1 r2.
  assert (Hne : chat1 ≠ chat2) by (intros ->; by apply Hkeys).
  destruct (subscribeWallet_new E chat1 address name1 w Hw1)
    as (Hg1 & Hwallets1 & Hstates1 & Hstore1 & _).
  fold r1 in Hg1, Hwallets1, Hstates1, Hstore1. rewrite Hstate in Hstates1.
  assert (Hw2' : wallets r1.2 !! wallet_key chat2 address = None)
    by (by rewrite Hwallets1, lookup_insert_ne).
  destruct (subscribeWallet_new E chat2 address name2 r1.2 Hw2')
    as (Hg2 & Hwallets2 & Hstates2 & Hstore2 & _).
  fold r2 in Hg2, Hwallets2, Hstates2, Hstore2.
  rewrite Hstates1, lookup_insert_eq in Hstates2.
  eexists _, _. split; [exact Hg1|]. split; [exact Hg2|].
  set (g1 := {| go_chatID := chat1 |}). set (g2 := {| go_chatID := chat2 |}).
  set (wallet1 := {| Address := address; Name := name1; ChatID := chat1 |}).
  set (wallet2 := {| Address := address; Name := name2; ChatID := chat2 |}).
  assert (Hl1 : wallets r2.2 !! wallet_key chat1 address = Some wallet1)
    by (by rewrite Hwallets2, lookup_insert_ne, Hwallets1, lookup_insert_eq).
  assert (Hl2 : wallets r2.2 !! wallet_key chat2 address = Some wallet2)
    by (by rewrite Hwallets2, lookup_insert_eq).
  assert (Hkeep : ∀ g W,
    g = g1 ∨ g = g2 → wallets W = wallets r2.2 →
    let W' := (subscribeWallet_goroutine E g W).2 in
    wallets W' = wallets W ∧ accountStates W' = accountStates W ∧ store W' = store W).
  { intros g W Hg HW. apply goroutine_not_first; [done| |].
    - destruct Hg as [-> | ->]; cbn [go_address go_chatID g1 g2].
      + exists (wallet_key chat2 address), wallet2. rewrite HW. done.
      + exists (wallet_key chat1 address), wallet1. rewrite HW.
        split; [done|]. split; [done|]. cbn [ChatID wallet1]. congruence.
    - rewrite HW.
      by apply (size_two_keys _ (wallet_key chat1 address) (wallet_key chat2 address)). }
  cbv zeta.
  destruct first_runs_first.
  - destruct (Hkeep g1 r2.2 (or_introl eq_refl) eq_refl) as (Hw3 & Hs3 & Hd3).
    destruct (Hkeep g2 _ (or_intror eq_refl) Hw3) as (_ & Hs4 & Hd4).
    rewrite Hs4, Hs3, Hd4, Hd3, Hstates2, Hstore2, Hstore1, lookup_insert_eq. done.
  - destruct (Hkeep g2 r2.2 (or_intror eq_refl) eq_refl) as (Hw3 & Hs3 & Hd3).
    destruct (Hkeep g1 _ (or_introl eq_refl) Hw3) as (_ & Hs4 & Hd4).
    rewrite Hs4, Hs3, Hd4, Hd3, Hstates2, Hstore2, Hstore1, lookup_insert_eq. done.
Qed.

(** * The initial status message *)

Section InitialStatus.
Context `{GoRuntime}.

Lemma initial_position_append (message : string) (entry : string * Position) :
  initial_position message entry = message +:+ initial_position "" entry.
Proof. unfold initial_position. by rewrite !app_assoc_s. Qed.

Lemma single_initial_position_append (message : string) (entry : string * Position) :
  SingleProgram.initial_position message entry
  = message +:+ SingleProgram.initial_position "" entry.
Proof. unfold SingleProgram.initial_position. by rewrite !app_assoc_s. Qed.

Lemma ranges_nil_size {A} (m : gmap string A) (order : list (string * A)) :
  ranges m order → bool_decide (0 < size m) = match order with [] => false | _ => true end.
Proof.
  intros Hr. rewrite <- (ranges_length _ _ Hr).
  destruct order; [done|]. apply bool_decide_eq_true. cbn. lia.
Qed.

End InitialStatus.

(** X30. The initial status message is a head (name, time stamp, address
    and account value), then one block per position of the snapshot in
    the order of the loop, each block depending on its position only,
    then the closing line; a snapshot without positions gives the "no
    open position" notice in place of the blocks.  This holds for the
    message of either program. *)
Theorem initial_status_lists_every_position `{GoRuntime}
    (wallet : WalletConfig) (wallet1 : SingleTenant.WalletConfig)
    (accountValue : float) (timeStamp : string) :
  ∃ head footer head1 footer1,
    ∀ (positions : gmap string Position) (order : list (string * Position)),
      ranges positions order →
      generateInitialStatusMessage wallet positions accountValue timeStamp order
      = head
          +:+ match order with
              | [] => "没有找到开放的持仓。" +:+ nl
              | _ => "📊 当前持仓:" +:+ nl +:+ nl
                     +:+ concat_s (initial_position "" <$> order)
              end
          +:+ footer
      ∧ SingleProgram.generateInitialStatusMessage wallet1 positions accountValue
          timeStamp order
        = head1
            +:+ match order with
                | [] => "没有找到开放的持仓。"
                | _ => "📊 当前持仓:" +:+ nl +:+ nl
                       +:+ concat_s (SingleProgram.initial_position "" <$> order)
                end
            +:+ footer1.
Proof.
  exists ("🔄 HyperLiquid初始持仓状态 - " +:+ Name wallet
            +:+ " (" +:+ timeStamp +:+ ")" +:+ nl +:+ nl
            +:+ "💼 账户地址: " +:+ shortenAddress (Address wallet) +:+ nl
            +:+ "💰 账户价值: $" +:+ Sprintf_f 2 accountValue +:+ nl +:+ nl),
    "🔔 持仓监控已启动，将在仓位变化时发送通知。",
    ("🔄 HyperLiquid初始持仓状态 - " +:+ SingleTenant.Name wallet1
       +:+ " (" +:+ timeStamp +:+ ")" +:+ nl +:+ nl
       +:+ "💼 账户地址: " +:+ shortenAddress (SingleTenant.Address wallet1) +:+ nl
       +:+ "💰 账户价值: $" +:+ Sprintf_f 2 accountValue +:+ nl
       +:+ "💵 可提取金额: $" +:+ Sprintf_f 2 0 +:+ nl +:+ nl),
    (nl +:+ "🔔 持仓监控已启动，将在仓位变化时发送通知。").
  intros positions order Hr. split.
  - unfold generateInitialStatusMessage. rewrite (ranges_nil_size _ _ Hr).
    destruct order as [|entry order'] eqn:Horder.
    + by rewrite !app_assoc_s.
    + rewrite (foldl_append _ _ initial_position_append). by rewrite !app_assoc_s.
  - unfold SingleProgram.generateInitialStatusMessage. rewrite (ranges_nil_size _ _ Hr).
    destruct order as [|entry order'] eqn:Horder.
    + by rewrite !app_assoc_s.
    + rewrite (foldl_append _ _ single_initial_position_append). by rewrite !app_assoc_s.
Qed.


(** * Closed instances of the further properties *)

Section MoreInstances.
Import Sample Scenario.
Local Existing Instance go_runtime.

Lemma fair_outside (transport : option string) : fair (outside transport).
Proof. intros A n m. unfold ranges. reflexivity. Qed.

(** Alice's key and Bob's key on the same address. *)
Lemma wallet_key_injective_witness :
  isValidHexadecimal account = true
  ∧ ("1001" = "1001" ∧ account = account).
Proof.
  assert (Hv : isValidHexadecimal account = true) by (vm_compute; reflexivity).
  split; [exact Hv|].
  exact (wallet_key_injective "1001" account "1001" account Hv Hv eq_refl).
Defined.

(** The snapshot with the two positions against the state that holds
    them. *)
Lemma unchanged_positions_are_silent_witness :
  ranges two_positions btc_first ∧ ranges two_positions eth_first
  ∧ detectPositionChanges alice two_positions 2000 (state_of two_positions 1000) stamp
      btc_first eth_first = "".
Proof.
  assert (H1 : ranges two_positions btc_first) by apply ranges_btc_first.
  assert (H2 : ranges two_positions eth_first) by apply ranges_eth_first.
  split; [exact H1|]. split; [exact H2|].
  exact (proj2 (unchanged_positions_are_silent alice two_positions 2000
                  (state_of two_positions 1000) stamp btc_first eth_first eq_refl H1 H2)).
Defined.

Lemma single_unchanged_snapshot_is_silent_witness :
  ranges two_positions btc_first ∧ ranges two_positions eth_first
  ∧ SingleTenant.detectPositionChanges solo two_positions 1000
      (state_of two_positions 1000) stamp btc_first eth_first btc_first = "".
Proof.
  assert (H1 : ranges two_positions btc_first) by apply ranges_btc_first.
  assert (H2 : ranges two_positions eth_first) by apply ranges_eth_first.
  split; [exact H1|]. split; [exact H2|].
  exact (single_unchanged_snapshot_is_silent solo two_positions 1000
           (state_of two_positions 1000) stamp btc_first eth_first btc_first
           eq_refl eq_refl H1 H2).
Defined.

(** BTC stays, ETH is closed. *)
Lemma one_event_per_instrument_witness :
  ranges ({[ "BTC" := btc ]} : gmap string Position) [("BTC", btc)]
  ∧ ranges two_positions eth_first
  ∧ (Closed "ETH" eth
       ∈ detect_events {[ "BTC" := btc ]} (state_of two_positions 1000)
           [("BTC", btc)] eth_first
     ↔ two_positions !! "ETH" = Some eth
       ∧ ({[ "BTC" := btc ]} : gmap string Position) !! "ETH" = None).
Proof.
  assert (H1 : ranges ({[ "BTC" := btc ]} : gmap string Position) [("BTC", btc)])
    by (unfold ranges; vm_compute; reflexivity).
  assert (H2 : ranges (LastPositions (state_of two_positions 1000)) eth_first)
    by apply ranges_eth_first.
  split; [exact H1|]. split; [exact H2|].
  exact (proj1 (proj2 (proj2 (one_event_per_instrument {[ "BTC" := btc ]}
                                (state_of two_positions 1000) [("BTC", btc)] eth_first
                                H1 H2))) "ETH" eth).
Defined.

(** Is there a subscriber of the account other than Alice?  Bob. *)
Lemma hasSubscribers_any_order_witness :
  fair (outside None)
  ∧ ((hasSubscribers (outside None) account "1001" alice_and_bob).1 = true
     ↔ other_subscriber (wallets alice_and_bob) account "1001").
Proof.
  split; [exact (fair_outside None)|].
  exact (proj1 (hasSubscribers_any_order (outside None) account "1001" alice_and_bob
                  (fair_outside None))).
Defined.

(** Bob unsubscribes from the account he never subscribed to. *)
Lemma unsubscribe_unknown_is_noop_witness :
  wallets alice_alone !! wallet_key "1002" account = None
  ∧ wallets (unsubscribeWallet (outside None) "1002" account alice_alone).2
    = wallets alice_alone.
Proof.
  assert (Hkey : wallets alice_alone !! wallet_key "1002" account = None)
    by (vm_compute; reflexivity).
  split; [exact Hkey|].
  exact (proj1 (unsubscribe_unknown_is_noop (outside None) "1002" account alice_alone Hkey)).
Defined.

(** Alice unsubscribes while Bob still follows the account. *)
Lemma unsubscribe_keeps_state_for_others_witness :
  fair (outside None)
  ∧ wallets alice_and_bob !! wallet_key "1001" account = Some alice
  ∧ accountStates (unsubscribeWallet (outside None) "1001" account alice_and_bob).2
    = accountStates alice_and_bob.
Proof.
  assert (Hkey : wallets alice_and_bob !! wallet_key "1001" account = Some alice)
    by (vm_compute; reflexivity).
  split; [exact (fair_outside None)|]. split; [exact Hkey|].
  refine (proj1 (proj2 (proj2
            (unsubscribe_keeps_state_for_others (outside None) "1001" account alice_and_bob
               alice (wallet_key "1002" account) bob (fair_outside None) Hkey _ _ _ _)))).
  - vm_compute. discriminate.
  - vm_compute. reflexivity.
  - reflexivity.
  - discriminate.
Defined.

(** A cycle over the registry of Alice and Bob. *)
Lemma poll_cycle_never_panics_witness :
  fair (outside None)
  ∧ ∃ evs, trace (monitorAllWallets (outside None) alice_and_bob).2
           = trace alice_and_bob ++ evs
           ∧ panics evs = [].
Proof.
  split; [exact (fair_outside None)|].
  exact (poll_cycle_never_panics (outside None) alice_and_bob (fair_outside None)).
Defined.


(** Alice subscribes and unsubscribes before the goroutine runs. *)
Lemma unsubscribe_before_initial_fetch_panics_witness :
  fair (outside None)
  ∧ ∃ g, (subscribeWallet (outside None) "1001" account "desk" nobody).1 = Some g
         ∧ accountStates
             (unsubscribeWallet (outside None) "1001" account
                (subscribeWallet (outside None) "1001" account "desk" nobody).2).2
             !! account = None
         ∧ last (trace
                   (subscribeWallet_goroutine (outside None) g
                      (unsubscribeWallet (outside None) "1001" account
                         (subscribeWallet (outside None) "1001" account "desk" nobody).2).2).2)
           = Some (IoPanic "nil pointer dereference").
Proof.
  split; [exact (fair_outside None)|].
  refine (unsubscribe_before_initial_fetch_panics (outside None) "1001" account "desk"
            nobody response_btc (fair_outside None) _ _ _).
  - vm_compute. reflexivity.
  - intros key other Hlook. unfold nobody, wallets in Hlook.
    rewrite lookup_empty in Hlook. discriminate Hlook.
  - reflexivity.
Defined.

(** Two cycles over the registry of Alice and Bob. *)
Lemma second_poll_is_silent_witness :
  fair (outside None)
  ∧ ∃ evs,
      trace (monitorAllWallets (outside None)
               (monitorAllWallets (outside None) alice_and_bob).2).2
      = trace (monitorAllWallets (outside None) alice_and_bob).2 ++ evs
      ∧ sent evs = [] ∧ executed evs = [].
Proof.
  split; [exact (fair_outside None)|].
  destruct (second_poll_is_silent (outside None) alice_and_bob (fair_outside None)
              (λ _ _ _, eq_refl)) as (evs & Ht & Hs & Hx & _).
  exists evs. split; [exact Ht|]. split; [exact Hs|exact Hx].
Defined.

Lemma registry_ok_alice_and_bob : registry_ok (wallets alice_and_bob).
Proof.
  intros key wallet Hlook. unfold alice_and_bob, wallets in Hlook.
  apply lookup_insert_Some in Hlook as [[<- <-]|[_ Hlook]].
  { split; [reflexivity|]. split; [vm_compute; reflexivity|].
    exists 1001%Z. vm_compute. reflexivity. }
  apply lookup_singleton_Some in Hlook as [<- <-].
  split; [reflexivity|]. split; [vm_compute; reflexivity|].
  exists 1002%Z. vm_compute. reflexivity.
Qed.

Lemma states_ok_alice_and_bob : states_ok alice_and_bob.
Proof.
  intros key wallet Hlook. unfold alice_and_bob, wallets in Hlook.
  apply lookup_insert_Some in Hlook as [[<- <-]|[_ Hlook]].
  { exists zero_state. vm_compute. reflexivity. }
  apply lookup_singleton_Some in Hlook as [<- <-].
  exists zero_state. vm_compute. reflexivity.
Qed.

(** Alice asks for her list while Bob follows the same account. *)
Lemma listSubscriptions_lists_own_witness :
  fair (outside None) ∧ registry_ok (wallets alice_and_bob) ∧ decimal "1001"
  ∧ ∃ mine message delivered,
      mine ≡ₚ filter (λ wallet, ChatID wallet = "1001")
                (map_to_list (wallets alice_and_bob)).*2
      ∧ trace (listSubscriptions (outside None) "1001" alice_and_bob).2
        = trace alice_and_bob ++ [IoSend "1001" message delivered].
Proof.
  assert (Hdecimal : decimal "1001") by (exists 1001%Z; vm_compute; reflexivity).
  split; [exact (fair_outside None)|]. split; [exact registry_ok_alice_and_bob|].
  split; [exact Hdecimal|].
  destruct (listSubscriptions_lists_own (outside None) "1001" alice_and_bob
              (fair_outside None) registry_ok_alice_and_bob Hdecimal)
    as (mine & message & delivered & Hmine & _ & Htrace & _).
  exists mine, message, delivered. split; [exact Hmine|exact Htrace].
Defined.

(** The super admin asks for the own authorization to be removed. *)
Lemma super_admin_stays_authorized_witness :
  authorizedUsers (bot_of alice_alone) !! SuperAdminID (config (bot_of alice_alone))
  = Some true
  ∧ (isAuthorized "1000"
       (handle_update (outside None) admin_store (update_of 1000 "/deauthorize 1000")
          (bot_of alice_alone)).2).1 = true.
Proof.
  assert (Hauth : authorizedUsers (bot_of alice_alone)
                    !! SuperAdminID (config (bot_of alice_alone)) = Some true)
    by (vm_compute; reflexivity).
  split; [exact Hauth|].
  pose proof (super_admin_stays_authorized (outside None) admin_store _ _ _ _
                (rtc_once _ _
                   (step_update (outside None) admin_store
                      (update_of 1000 "/deauthorize 1000") (bot_of alice_alone) []))
                Hauth) as [Hconfig Hstill].
  rewrite Hconfig in Hstill. exact Hstill.
Defined.

(** A poll cycle of the bot of Alice and Bob. *)
Lemma registry_stays_well_formed_witness :
  fair (outside None)
  ∧ registry_ok (wallets (world (bot_of alice_and_bob)))
  ∧ states_ok (world (bot_of alice_and_bob))
  ∧ registry_ok
      (wallets (world (lift (monitorAllWallets (outside None)) (bot_of alice_and_bob)).2)).
Proof.
  split; [exact (fair_outside None)|]. split; [exact registry_ok_alice_and_bob|].
  split; [exact states_ok_alice_and_bob|].
  exact (proj1 (registry_stays_well_formed (outside None) admin_store _ _ _ _
                  (fair_outside None)
                  (rtc_once _ _
                     (step_poll (outside None) admin_store (bot_of alice_and_bob) []))
                  registry_ok_alice_and_bob states_ok_alice_and_bob)).
Defined.

(** Bob, who is not authorized, tries to subscribe. *)
Lemma unauthorized_sender_adds_no_subscription_witness :
  (isAuthorized (FormatInt 1002) (bot_of alice_alone)).1 = false
  ∧ (handle_update (outside None) admin_store
       (update_of 1002 ("/subscribe " +:+ other_account)) (bot_of alice_alone)).1 = None.
Proof.
  assert (Hno : (isAuthorized (FormatInt 1002) (bot_of alice_alone)).1 = false)
    by (vm_compute; reflexivity).
  split; [exact Hno|].
  exact (proj1 (unauthorized_sender_adds_no_subscription (outside None) admin_store
                  (update_of 1002 ("/subscribe " +:+ other_account))
                  {| Chat_ID := 1002; Text := "/subscribe " +:+ other_account |}
                  (bot_of alice_alone) eq_refl Hno)).
Defined.

(** Alice, who is not the super admin, tries to authorize Bob. *)
Lemma only_super_admin_changes_authorizations_witness :
  FormatInt 1001 ≠ SuperAdminID (config (bot_of alice_alone))
  ∧ authorizedUsers
      (handle_update (outside None) admin_store (update_of 1001 "/authorize 1002")
         (bot_of alice_alone)).2
    = authorizedUsers (bot_of alice_alone).
Proof.
  assert (Hne : FormatInt 1001 ≠ SuperAdminID (config (bot_of alice_alone)))
    by (vm_compute; discriminate).
  split; [exact Hne|].
  exact (proj1 (only_super_admin_changes_authorizations (outside None) admin_store
                  (update_of 1001 "/authorize 1002")
                  {| Chat_ID := 1001; Text := "/authorize 1002" |}
                  (bot_of alice_alone) eq_refl Hne)).
Defined.

(** Alice subscribes to a second account under a name with a space. *)
Lemma subscribe_command_registers_witness :
  (isAuthorized (FormatInt 1001) (bot_of alice_alone)).1 = true
  ∧ isValidHexadecimal other_account = true
  ∧ wallets (world (bot_of alice_alone)) !! wallet_key (FormatInt 1001) other_account = None
  ∧ wallets
      (world
         (handle_update (outside None) admin_store
            (update_of 1001 ("/subscribe " +:+ other_account +:+ " " +:+ "my fund"))
            (bot_of alice_alone)).2)
    = <[wallet_key (FormatInt 1001) other_account :=
          {| Address := other_account; Name := "my fund"; ChatID := FormatInt 1001 |}]>
        (wallets (world (bot_of alice_alone))).
Proof.
  assert (Hauth : (isAuthorized (FormatInt 1001) (bot_of alice_alone)).1 = true)
    by (vm_compute; reflexivity).
  assert (Hvalid : isValidHexadecimal other_account = true) by (vm_compute; reflexivity).
  assert (Hnew : wallets (world (bot_of alice_alone))
                   !! wallet_key (FormatInt 1001) other_account = None)
    by (vm_compute; reflexivity).
  split; [exact Hauth|]. split; [exact Hvalid|]. split; [exact Hnew|].
  exact (proj1 (proj2 (subscribe_command_registers (outside None) admin_store 1001
                         other_account "my fund"
                         ("/subscribe " +:+ other_account +:+ " " +:+ "my fund")
                         (bot_of alice_alone) Hauth Hvalid Hnew (or_intror eq_refl)))).
Defined.


(** The initial status of the account, with the same transport. *)
Lemma single_baseline_from_initial_fetch_witness :
  fair (outside None)
  ∧ accountStates alice_alone !! SingleTenant.Address solo = Some zero_state
  ∧ ∃ evs,
      trace (SingleProgram.initialStatus (outside None) refuses solo "token" "1001"
               alice_alone).2
      = trace alice_alone ++ evs
      ∧ fetched evs = [SingleTenant.Address solo] ∧ panics evs = [].
Proof.
  assert (Hstate : accountStates alice_alone !! SingleTenant.Address solo = Some zero_state)
    by (vm_compute; reflexivity).
  split; [exact (fair_outside None)|]. split; [exact Hstate|].
  destruct (single_baseline_from_initial_fetch (outside None) refuses solo "token" "1001"
              alice_alone zero_state (fair_outside None) Hstate)
    as (evs & Ht & Hf & Hp & _).
  exists evs. split; [exact Ht|]. split; [exact Hf|exact Hp].
Defined.

(** The start of the single-tenant program and two rounds of its loop. *)
Lemma single_main_never_panics_witness :
  fair (outside None)
  ∧ ∃ evs,
      trace (SingleProgram.main_rounds (outside None) accepts single_settings 2 nobody).2
      = trace nobody ++ evs
      ∧ panics evs = [].
Proof.
  split; [exact (fair_outside None)|].
  exact (single_main_never_panics (outside None) accepts single_settings 2 nobody
           (fair_outside None)).
Defined.

(** The initial status and one round, the exchange answering the same. *)
Lemma single_settled_address_is_silent_witness :
  fair (outside None)
  ∧ accountStates alice_alone !! SingleTenant.Address solo = Some zero_state
  ∧ accountStates
      (SingleProgram.initialStatus (outside None) accepts solo "token" "1001" alice_alone).2
      !! SingleTenant.Address solo
    = Some (state_of_snapshot (snapshot_of response_btc)).
Proof.
  assert (Hstate : accountStates alice_alone !! SingleTenant.Address solo = Some zero_state)
    by (vm_compute; reflexivity).
  split; [exact (fair_outside None)|]. split; [exact Hstate|].
  exact (proj1 (single_settled_address_is_silent (outside None) accepts solo "token" "1001"
                  alice_alone zero_state response_btc (fair_outside None) Hstate
                  (λ _, eq_refl))).
Defined.

(** Bob subscribes to the account that Alice follows. *)
Lemma subscribe_new_registers_witness :
  wallets alice_alone !! wallet_key "1002" account = None
  ∧ wallets (subscribeWallet (outside None) "1002" account "fund" alice_alone).2
    = <[wallet_key "1002" account := bob]> (wallets alice_alone).
Proof.
  assert (Hkey : wallets alice_alone !! wallet_key "1002" account = None)
    by (vm_compute; reflexivity).
  split; [exact Hkey|].
  exact (proj1 (proj2 (subscribe_new_registers (outside None) "1002" account "fund"
                         alice_alone Hkey))).
Defined.

(** The goroutine of Alice's subscription. *)
Lemma initial_fetch_is_reported_to_the_subscriber_witness :
  fair (outside None)
  ∧ ∃ evs message,
      trace (subscribeWallet_goroutine (outside None)
               {| go_chatID := "1001"; go_address := account; go_wallet := alice |}
               alice_alone).2
      = trace alice_alone ++ evs
      ∧ fetched evs = [account]
      ∧ sent evs = [("1001", message)].
Proof.
  split; [exact (fair_outside None)|].
  destruct (initial_fetch_is_reported_to_the_subscriber (outside None)
              {| go_chatID := "1001"; go_address := account; go_wallet := alice |}
              alice_alone (fair_outside None))
    as (evs & message & Ht & Hf & Hs & _).
  exists evs, message. split; [exact Ht|]. split; [exact Hf|exact Hs].
Defined.

(** Alice and Bob subscribe to the account before either goroutine
    runs; Bob's goroutine runs first. *)
Lemma two_early_subscribers_keep_zero_state_witness :
  fair (outside None)
  ∧ wallet_key "1001" account ≠ wallet_key "1002" account
  ∧ ∃ g1 g2,
      (subscribeWallet (outside None) "1001" account "desk" nobody).1 = Some g1
      ∧ (subscribeWallet (outside None) "1002" account "fund"
           (subscribeWallet (outside None) "1001" account "desk" nobody).2).1 = Some g2
      ∧ accountStates
          (subscribeWallet_goroutine (outside None) g1
             (subscribeWallet_goroutine (outside None) g2
                (subscribeWallet (outside None) "1002" account "fund"
                   (subscribeWallet (outside None) "1001" account "desk" nobody).2).2).2).2
          !! account = Some zero_state.
Proof.
  assert (Hne : wallet_key "1001" account ≠ wallet_key "1002" account)
    by (vm_compute; discriminate).
  split; [exact (fair_outside None)|]. split; [exact Hne|].
  destruct (two_early_subscribers_keep_zero_state (outside None) "1001" "1002" account
              "desk" "fund" nobody false (fair_outside None) Hne eq_refl eq_refl eq_refl)
    as (g1 & g2 & H1 & H2 & Hstate & _).
  exists g1, g2. split; [exact H1|]. split; [exact H2|exact Hstate].
Defined.

End MoreInstances.

